(** * clidle: the game session core, verified against its Go sources

    The development embeds the guess evaluator ([viewGridRowFilled]), the
    score ledger ([query.sql], and the older [db.json] statistics file) and
    the per-session state machine ([model.Update]) of clidle, and proves the
    properties its specification states about them.

    Conventions of the embedding:
    - a Go [byte] is an [ascii]; a [[n]byte] array is a [list byte] of length
      [n]; [string(b[:])] is [string_of_list_ascii];
    - a Go [int] is a [Z]; [++] and [--] wrap around at 64 bits ([int_wrap]);
    - [map[byte]keyState] is a [gmap byte keyState], a missing key reading as
      the zero value [keyStateUnselected];
    - a run-time panic (index out of range, the explicit [panic] of
      [db.addWin]) is the [Panic] outcome of the [result] type;
    - everything the session cannot decide by itself (whether a store call
      fails, which word the dictionary draws) is an input, the [env] of the
      event being handled. *)

From Stdlib Require Import ZArith Ascii String Lia.
From stdpp Require Import base list gmap strings pretty.

Open Scope Z_scope.

(** ** Go values *)

Abbreviation byte := ascii (only parsing).

(** The zero value of [byte]; [viewGridRowFilled] overwrites consumed answer
    letters with it. *)
Definition byte0 : byte := "000"%char.

#[global] Instance byte_inhabited : Inhabited byte := populate byte0.

(** [string(b)] for a single byte [b]: the UTF-8 encoding of the code point
    [b], one byte below 0x80 and two bytes from there on. *)
Definition string_of_byte (b : byte) : string :=
  let n := N_of_ascii b in
  if (n <? 128)%N then String b EmptyString
  else String (ascii_of_N (192 + N.shiftr n 6))
         (String (ascii_of_N (128 + N.land n 63)) EmptyString).

(** Two's complement wrap-around of a 64-bit [int]. *)
Definition int_wrap (z : Z) : Z := (z + 2 ^ 63) mod 2 ^ 64 - 2 ^ 63.

Definition int_incr (z : Z) : Z := int_wrap (z + 1).
Definition int_decr (z : Z) : Z := int_wrap (z - 1).

(** The outcome of running Go code that may panic. *)
Inductive result (A : Type) : Type :=
  | Done (a : A)
  | Panic (reason : string).
Arguments Done {A} a.
Arguments Panic {A} reason.

(** [a[i]] on an array or slice, with Go's bounds check. *)
Definition index {A} (a : list A) (i : Z) : result A :=
  if decide (0 <= i) then
    match a !! Z.to_nat i with
    | Some x => Done x
    | None => Panic "index out of range"
    end
  else Panic "index out of range".

(** The indices of [for i := 0; i < n; i++]. *)
Definition upto (n : Z) : list nat := seq 0 (Z.to_nat n).

(** [copy(dst[:], src)]: the first [min(len(dst), len(src))] bytes of [src]
    overwrite those of [dst]. *)
Definition copy_bytes (dst src : list byte) : list byte :=
  take (length dst) src ++ drop (length src) dst.

(** [bytes.IndexByte]: the index of the first [c] in [b], or [-1]. *)
Fixpoint IndexByte (b : list byte) (c : byte) : Z :=
  match b with
  | [] => -1
  | x :: b' =>
      if decide (x = c) then 0
      else let r := IndexByte b' c in
           if decide (r = -1) then -1 else r + 1
  end.

(** ** Constants and key states (model.go) *)

(** [numGuesses] is the maximum number of guesses you can make. *)
Definition numGuesses : Z := 6.
(** [numChars] is the word size in characters. *)
Definition numChars : Z := 5.

(** [keyState] represents the state of a key; the constructors are in the
    order of the [iota] declaration. *)
Inductive keyState : Type :=
  | keyStateUnselected
  | keyStateAbsent
  | keyStatePresent
  | keyStateCorrect.

#[global] Instance keyState_eq_dec : EqDecision keyState.
Proof. solve_decision. Defined.

#[global] Instance keyState_inhabited : Inhabited keyState :=
  populate keyStateUnselected.

(** The integer behind each constant. *)
Definition keyState_int (s : keyState) : Z :=
  match s with
  | keyStateUnselected => 0
  | keyStateAbsent => 1
  | keyStatePresent => 2
  | keyStateCorrect => 3
  end.

(** [max] on key states (the builtin [max] on the underlying ints). *)
Definition keyState_max (a b : keyState) : keyState :=
  if decide (keyState_int a < keyState_int b) then b else a.

Inductive Color : Type :=
  | colorPrimary
  | colorSecondary
  | colorSeparator
  | colorYellow
  | colorGreen.

(** [color] returns the appropriate dark mode color for the given key
    state. *)
Definition color (s : keyState) : Color :=
  match s with
  | keyStateUnselected => colorPrimary
  | keyStateAbsent => colorSecondary
  | keyStatePresent => colorYellow
  | keyStateCorrect => colorGreen
  end.

(** What [viewKey] is asked to draw: a text and its color.  The drawing
    itself is lipgloss's. *)
Record key_view : Type := viewKey { key_text : string; key_color : Color }.

(** [keyStates[key]] on the map, the zero value for a missing key. *)
Definition keyStates_get (ks : gmap byte keyState) (key : byte) : keyState :=
  default keyStateUnselected (ks !! key).

(** [isAsciiUpper] checks if a rune is between A-Z. *)
Definition isAsciiUpper (r : Z) : bool := (65 <=? r) && (r <=? 90).

(** [toAsciiUpper] converts a rune to uppercase if it is between a-z. *)
Definition toAsciiUpper (r : Z) : Z :=
  if (97 <=? r) && (r <=? 122) then r - (97 - 65) else r.

(** [byte(ch)]: the low eight bits of a rune. *)
Definition byte_of_rune (r : Z) : byte := ascii_of_N (Z.to_N (r mod 256)).

(** ** The guess evaluator (viewGridRowFilled) *)

(** The evaluator's working state: the [keyStates] array and the [letters]
    array, a copy of the answer in which consumed letters are zeroed. *)
Abbreviation eval_state := (list keyState * list byte)%type (only parsing).

(** One iteration of the loop "Mark keyStatusAbsent". *)
Definition markAbsent (ks : list keyState) (i : nat) : list keyState :=
  <[i := keyStateAbsent]> ks.

(** One iteration of the loop "Mark keyStatusCorrect". *)
Definition markCorrect (answer word : list byte) (st : eval_state) (i : nat)
  : eval_state :=
  if decide (word !!! i = answer !!! i)
  then (<[i := keyStateCorrect]> st.1, <[i := byte0]> st.2)
  else st.

(** One iteration of the loop "Mark keyStatusPresent". *)
Definition markPresent (word : list byte) (st : eval_state) (i : nat)
  : eval_state :=
  if decide (st.1 !!! i = keyStateCorrect) then st
  else
    let foundIdx := IndexByte st.2 (word !!! i) in
    if decide (foundIdx ≠ -1)
    then (<[i := keyStatePresent]> st.1, <[Z.to_nat foundIdx := byte0]> st.2)
    else st.

(** The [keyStates] array [viewGridRowFilled] computes for the guess [word]
    against [answer] (the receiver's [m.answer], [m.word] in the older
    model.go). *)
Definition gridRowKeyStates (answer word : list byte) : list keyState :=
  let keyStates := replicate (Z.to_nat numChars) keyStateUnselected in
  let letters := answer in
  let keyStates := foldl markAbsent keyStates (upto numChars) in
  let st := foldl (markCorrect answer word) (keyStates, letters) (upto numChars) in
  let st := foldl (markPresent word) st (upto numChars) in
  st.1.

(** [viewGridRowFilled] renders a filled-in grid row, choosing the color of
    each key. *)
Definition viewGridRowFilled (answer word : list byte) : list key_view :=
  let keyStates := gridRowKeyStates answer word in
  (λ i, viewKey (string_of_byte (word !!! i)) (color (keyStates !!! i)))
    <$> upto numChars.

(** *** The evaluator as the specification words it

    Section 4.1 of the specification: all slots start [Absent]; pass 1 marks
    the exact positions [Correct] and consumes their answer letters; pass 2
    marks a remaining slot [Present] when its letter occurs among the
    unconsumed answer letters, and consumes the first such occurrence.
    Consumption is a flag per answer position here, not a zeroed letter. *)

Fixpoint spec_first_unconsumed (answer : list byte) (consumed : list bool)
    (c : byte) : option nat :=
  match answer, consumed with
  | a :: answer', u :: consumed' =>
      if decide (a = c ∧ u = false) then Some 0%nat
      else S <$> spec_first_unconsumed answer' consumed' c
  | _, _ => None
  end.

Definition spec_pass1 (answer guess : list byte)
    (st : list keyState * list bool) (i : nat) : list keyState * list bool :=
  if decide (guess !!! i = answer !!! i)
  then (<[i := keyStateCorrect]> st.1, <[i := true]> st.2)
  else st.

Definition spec_pass2 (answer guess : list byte)
    (st : list keyState * list bool) (i : nat) : list keyState * list bool :=
  if decide (st.1 !!! i = keyStateCorrect) then st
  else
    match spec_first_unconsumed answer st.2 (guess !!! i) with
    | Some j => (<[i := keyStatePresent]> st.1, <[j := true]> st.2)
    | None => st
    end.

Definition spec_Evaluate (answer guess : list byte) : list keyState :=
  let n := length answer in
  let st := (replicate n keyStateAbsent, replicate n false) in
  let st := foldl (spec_pass1 answer guess) st (seq 0 n) in
  let st := foldl (spec_pass2 answer guess) st (seq 0 n) in
  st.1.

(** The number of positions of the guess that hold the letter [c] and that
    the classification [ks] puts in the set [P] of key states. *)
Definition marked (P : keyState → bool) (c : byte) (guess : list byte)
    (ks : list keyState) : nat :=
  length (filter (λ p, p.1 = c ∧ P p.2 = true) (zip guess ks)).

Definition isCorrect (s : keyState) : bool := bool_decide (s = keyStateCorrect).
Definition isPresent (s : keyState) : bool := bool_decide (s = keyStatePresent).
Definition isHit (s : keyState) : bool := isCorrect s || isPresent s.

(** The number of occurrences of [c] in [l]. *)
Definition count (c : byte) (l : list byte) : nat := length (filter (λ x, x = c) l).

Definition bytes (s : string) : list byte := list_ascii_of_string s.


(** *** Loop invariants of the evaluator *)

(** What holds of the evaluator's state once pass 1 has visited the indices
    below [k]. *)
Definition pass1_inv (answer word : list byte) (k : nat) (st : eval_state) : Prop :=
  length st.1 = Z.to_nat numChars ∧ length st.2 = Z.to_nat numChars ∧
  (∀ i, (k ≤ i)%nat → st.1 !! i = replicate (Z.to_nat numChars) keyStateAbsent !! i
                     ∧ st.2 !! i = answer !! i) ∧
  (∀ i, (i < k)%nat →
        st.1 !!! i = (if decide (word !!! i = answer !!! i)
                      then keyStateCorrect else keyStateAbsent)) ∧
  (∀ c, c ≠ byte0 → (marked isHit c word st.1 + count c st.2 = count c answer)%nat).

(** What holds once pass 2 has visited the indices below [k]. *)
Definition pass2_inv (answer word : list byte) (k : nat) (st : eval_state) : Prop :=
  length st.1 = Z.to_nat numChars ∧ length st.2 = Z.to_nat numChars ∧
  (∀ i, (k ≤ i)%nat → st.1 !!! i ≠ keyStatePresent) ∧
  (∀ i, (i < Z.to_nat numChars)%nat →
        st.1 !!! i = keyStateCorrect ↔ word !!! i = answer !!! i) ∧
  (∀ c, c ≠ byte0 → (marked isHit c word st.1 + count c st.2 = count c answer)%nat).

(** The [letters] array that stands for the consumption flags [consumed]:
    a consumed answer letter reads as the zero byte. *)
Definition hide (answer : list byte) (consumed : list bool) : list byte :=
  zip_with (λ a (u : bool), if u then byte0 else a) answer consumed.

(** The evaluator's state and the specification's state tell the same
    story. *)
Definition same_story (answer : list byte) (st : eval_state) (sp : list keyState * list bool) : Prop :=
  st.1 = sp.1 ∧ st.2 = hide answer sp.2.


(** ** The score ledger (query.sql) *)

Module store.

(** Modelled from the spec: schema.sql, which declares the two tables, is not
    among the sources.  Section 6: "a Game record (identity, answer, creation
    order) and a Guess record (identity, owning game, guess text, submission
    order) in a one-to-many relationship".  The columns below are the ones
    query.sql and model.go name; those that model.go fills through
    [sql.NullString] and [sql.NullInt64] are nullable.  A table is the list of
    its rows in insertion order. *)
Record Game : Type := mkGame {
  game_ID : Z;
  game_Answer : option string;
}.

Record Guess : Type := mkGuess {
  guess_ID : Z;
  guess_GameID : option Z;
  guess_Guess : option string;
}.

Record Tables : Type := mkTables {
  game : list Game;
  guess : list Guess;
}.

Definition empty : Tables := mkTables [] [].

(** Modelled from the spec: the identity a new row gets.  schema.sql is not
    among the sources; an integer primary key that the INSERT leaves out is
    set to one more than the largest in the table, and to 1 in an empty
    table. *)
Definition fresh_ID (ids : list Z) : Z := 1 + foldr Z.max 0 ids.

(** SQL's [=]: true only of two equal values, neither of them NULL. *)
Definition sql_eq {A} `{EqDecision A} (x y : option A) : bool :=
  match x, y with
  | Some a, Some b => bool_decide (a = b)
  | _, _ => false
  end.

(** [-- name: CreateGame :one]
    [INSERT INTO game (answer) VALUES (?) RETURNING *;] *)
Definition CreateGame (t : Tables) (answer : option string) : Game * Tables :=
  let row := mkGame (fresh_ID (game_ID <$> game t)) answer in
  (row, mkTables (game t ++ [row]) (guess t)).

(** [-- name: CreateGuess :one]
    [INSERT INTO guess (game_id, guess) VALUES (?, ?) RETURNING *;] *)
Definition CreateGuess (t : Tables) (game_id : option Z) (word : option string)
  : Guess * Tables :=
  let row := mkGuess (fresh_ID (guess_ID <$> guess t)) game_id word in
  (row, mkTables (game t) (guess t ++ [row])).

(** The join condition [game.id = victory.game_id AND game.answer =
    victory.guess]. *)
Definition on_victory (g : Game) (victory : Guess) : Prop :=
  sql_eq (Some (game_ID g)) (guess_GameID victory) = true ∧
  sql_eq (game_Answer g) (guess_Guess victory) = true.

(** The join condition [game.id = guess.game_id]. *)
Definition on_guess (g : Game) (x : Guess) : Prop :=
  sql_eq (Some (game_ID g)) (guess_GameID x) = true.

#[global] Instance on_victory_dec g v : Decision (on_victory g v).
Proof. unfold on_victory. apply _. Defined.

#[global] Instance on_guess_dec g x : Decision (on_guess g x).
Proof. unfold on_guess. apply _. Defined.

(** [FROM game INNER JOIN guess victory ON ... INNER JOIN guess ON ...] *)
Definition joined_rows (t : Tables) : list (Game * Guess * Guess) :=
  g ← game t;
  victory ← filter (on_victory g) (guess t);
  x ← filter (on_guess g) (guess t);
  [(g, victory, x)].

(** The joined rows of one game. *)
Definition rows_of (t : Tables) (g : Game) : list (Game * Guess * Guess) :=
  victory ← filter (on_victory g) (guess t);
  x ← filter (on_guess g) (guess t);
  [(g, victory, x)].

(** The column [game.id] of a joined row, which the rows are grouped by. *)
Definition group_key (r : Game * Guess * Guess) : Z := game_ID r.1.1.

(** [COUNT(guess.id)] within the group of [id]; [guess.id] is never NULL. *)
Definition COUNT (rows : list (Game * Guess * Guess)) (id : Z) : Z :=
  Z.of_nat (length (filter (λ r, group_key r = id) rows)).

(** [SELECT game.id, (10 * (11 - COUNT(guess.id))) AS score ... GROUP BY
    game.id]: one row per group. *)
Definition game_scores (t : Tables) : list (Z * Z) :=
  let rows := joined_rows t in
  (λ id, (id, 10 * (11 - COUNT rows id))) <$> remove_dups (group_key <$> rows).

Definition SUM (l : list Z) : Z := foldr Z.add 0 l.

(** The sum of the scores of the groups of [rows]. *)
Definition SUM_of_groups (rows : list (Game * Guess * Guess)) : Z :=
  SUM ((λ id, 10 * (11 - COUNT rows id)) <$> remove_dups (group_key <$> rows)).

(** [-- name: GetTotalScore :one]
    [SELECT SUM(score) FROM game_scores;]  NULL ([None]) when [game_scores]
    has no row. *)
Definition GetTotalScore (t : Tables) : option Z :=
  match game_scores t with
  | [] => None
  | rows => Some (SUM (snd <$> rows))
  end.

(** [int(score.Float64)] on the [sql.NullFloat64] that GetTotalScore scans
    into: a NULL leaves the zero value.  The sum is an integer and the
    conversions through float64 are exact below 2^53. *)
Definition score_value (r : option Z) : Z := default 0 r.

(** *** The total score as the specification words it

    Section 4.3: "for each game, count its guesses; it is a win iff its last
    guess equals its answer; contribute 100 - 10*(count-1) if win else 0; sum
    across all games". *)

Definition guesses_of (t : Tables) (g : Game) : list Guess :=
  filter (λ x, guess_GameID x = Some (game_ID g)) (guess t).

Definition spec_is_win (t : Tables) (g : Game) : bool :=
  match last (guesses_of t g) with
  | Some x => sql_eq (game_Answer g) (guess_Guess x)
  | None => false
  end.

Definition spec_contribution (t : Tables) (g : Game) : Z :=
  let count := Z.of_nat (length (guesses_of t g)) in
  if spec_is_win t g then 100 - 10 * (count - 1) else 0.

Definition spec_TotalScore (t : Tables) : Z :=
  SUM (spec_contribution t <$> game t).

(** The guess counts [k1..kN] of the won games of a ledger. *)
Definition won_guess_counts (t : Tables) : list Z :=
  (λ g, Z.of_nat (length (guesses_of t g)))
    <$> filter (λ g, spec_is_win t g = true) (game t).

(** *** Ledgers that sessions write

    A game has one identity, and no guess of it but the last one equals its
    answer: a session stops writing to a game with the guess that wins it. *)

Definition game_wf (t : Tables) (g : Game) : Prop :=
  let gs := guesses_of t g in
  Forall (λ x, sql_eq (game_Answer g) (guess_Guess x) = false)
    (take (length gs - 1) gs).

Definition ledger_wf (t : Tables) : Prop :=
  NoDup (game_ID <$> game t) ∧ Forall (game_wf t) (game t).

#[global] Instance ledger_wf_dec t : Decision (ledger_wf t).
Proof. unfold ledger_wf, game_wf. apply _. Defined.

End store.

(** A ledger with three games: CRANE won with the second guess, SPEED lost
    after six guesses, and ERASE won with the first guess. *)
Definition example_ledger : store.Tables :=
  store.mkTables
    [store.mkGame 1 (Some "CRANE"); store.mkGame 2 (Some "SPEED");
     store.mkGame 3 (Some "ERASE")]
    [store.mkGuess 1 (Some 1) (Some "CRATE");
     store.mkGuess 2 (Some 2) (Some "CRANE");
     store.mkGuess 3 (Some 1) (Some "CRANE");
     store.mkGuess 4 (Some 2) (Some "CRATE");
     store.mkGuess 5 (Some 2) (Some "ERASE");
     store.mkGuess 6 (Some 3) (Some "ERASE");
     store.mkGuess 7 (Some 2) (Some "TRACE");
     store.mkGuess 8 (Some 2) (Some "REACT");
     store.mkGuess 9 (Some 2) (Some "SPEND")].

(** A table content no session writes: the answer of game 1 recorded twice. *)
Definition doubled_ledger : store.Tables :=
  store.mkTables
    [store.mkGame 1 (Some "CRANE")]
    [store.mkGuess 1 (Some 1) (Some "CRANE");
     store.mkGuess 2 (Some 1) (Some "CRANE")].

(** ** Messages and commands (bubbletea) *)

(** The key types [Update] switches on; every other one is [KeyOther]. *)
Inductive KeyType : Type :=
  | KeyCtrlC
  | KeyCtrlR
  | KeyBackspace
  | KeyEnter
  | KeyRunes
  | KeyOther.

(** [tea.Msg]: the status timer's message, a key press with its runes, a
    window resize, or any other message. *)
Inductive Msg : Type :=
  | msgResetStatus
  | KeyMsg (type : KeyType) (runes : list Z)
  | WindowSizeMsg (width height : Z)
  | OtherMsg.

(** [tea.Cmd]: [nil], [tea.Quit], the [tea.Tick] that sends
    [msgResetStatus] once its duration (in nanoseconds) has passed, or
    [tea.Sequentially] of two commands (used by the first revision only). *)
Inductive Cmd : Type :=
  | CmdNil
  | Quit
  | Tick (duration : Z)
  | Sequentially (first second : Cmd).

(** [time.Second] *)
Definition Second : Z := 1000000000.

(** ** The game session (model.go) *)

Module Session.

(** The consumed part of the [Dictionary] interface that is a function of
    its argument; [GetRandomCommonWord] is an input of the event ([env]). *)
Record Dictionary : Type := { IsWord : string → bool }.

(** The fields of [model].  Left out are [ctx], whose only effect is that a
    store call may time out (an error: see [env]); [store], the handle on
    the shared tables, which are the [db] of the [world]; and [dictionary],
    the parameter [dict] of the functions below. *)
Record model : Type := mkModel {
  gameID : Z;
  gameOver : bool;
  score : Z;
  answer : list byte;
  status : string;
  statusPending : Z;
  windowHeight : Z;
  windowWidth : Z;
  grid : list (list byte);
  gridRow : Z;
  gridCol : Z;
  keyStates : gmap byte keyState;
}.

Definition set_gameID (v : Z) (m : model) : model :=
  mkModel v (gameOver m) (score m) (answer m) (status m) (statusPending m)
    (windowHeight m) (windowWidth m) (grid m) (gridRow m) (gridCol m) (keyStates m).
Definition set_gameOver (v : bool) (m : model) : model :=
  mkModel (gameID m) v (score m) (answer m) (status m) (statusPending m)
    (windowHeight m) (windowWidth m) (grid m) (gridRow m) (gridCol m) (keyStates m).
Definition set_score (v : Z) (m : model) : model :=
  mkModel (gameID m) (gameOver m) v (answer m) (status m) (statusPending m)
    (windowHeight m) (windowWidth m) (grid m) (gridRow m) (gridCol m) (keyStates m).
Definition set_answer (v : list byte) (m : model) : model :=
  mkModel (gameID m) (gameOver m) (score m) v (status m) (statusPending m)
    (windowHeight m) (windowWidth m) (grid m) (gridRow m) (gridCol m) (keyStates m).
Definition set_status (v : string) (m : model) : model :=
  mkModel (gameID m) (gameOver m) (score m) (answer m) v (statusPending m)
    (windowHeight m) (windowWidth m) (grid m) (gridRow m) (gridCol m) (keyStates m).
Definition set_statusPending (v : Z) (m : model) : model :=
  mkModel (gameID m) (gameOver m) (score m) (answer m) (status m) v
    (windowHeight m) (windowWidth m) (grid m) (gridRow m) (gridCol m) (keyStates m).
Definition set_windowHeight (v : Z) (m : model) : model :=
  mkModel (gameID m) (gameOver m) (score m) (answer m) (status m) (statusPending m)
    v (windowWidth m) (grid m) (gridRow m) (gridCol m) (keyStates m).
Definition set_windowWidth (v : Z) (m : model) : model :=
  mkModel (gameID m) (gameOver m) (score m) (answer m) (status m) (statusPending m)
    (windowHeight m) v (grid m) (gridRow m) (gridCol m) (keyStates m).
Definition set_grid (v : list (list byte)) (m : model) : model :=
  mkModel (gameID m) (gameOver m) (score m) (answer m) (status m) (statusPending m)
    (windowHeight m) (windowWidth m) v (gridRow m) (gridCol m) (keyStates m).
Definition set_gridRow (v : Z) (m : model) : model :=
  mkModel (gameID m) (gameOver m) (score m) (answer m) (status m) (statusPending m)
    (windowHeight m) (windowWidth m) (grid m) v (gridCol m) (keyStates m).
Definition set_gridCol (v : Z) (m : model) : model :=
  mkModel (gameID m) (gameOver m) (score m) (answer m) (status m) (statusPending m)
    (windowHeight m) (windowWidth m) (grid m) (gridRow m) v (keyStates m).
Definition set_keyStates (v : gmap byte keyState) (m : model) : model :=
  mkModel (gameID m) (gameOver m) (score m) (answer m) (status m) (statusPending m)
    (windowHeight m) (windowWidth m) (grid m) (gridRow m) (gridCol m) v.

(** What one event's handling depends on besides the model and the tables:
    whether each store call it makes returns without an error (a failed call
    changes no table), and the word the dictionary draws. *)
Record env : Type := mkEnv {
  createGameOk : bool;
  createGuessOk : bool;
  getTotalScoreOk : bool;
  randomWord : string;
}.

(** The store calls a session makes, with their outcome ([None]: an error),
    and a mark where [doRestart] starts a game. *)
Inductive call : Type :=
  | GameStarts
  | CallCreateGame (answer : option string) (id : option Z)
  | CallCreateGuess (game_id : option Z) (word : option string) (ok : bool)
  | CallGetTotalScore (ok : bool).

(** The state the methods of [*model] run in: the model they mutate, the
    tables behind [m.store], and the calls made so far. *)
Record world : Type := mkWorld {
  mdl : model;
  db : store.Tables;
  trace : list call;
}.

(** A method body: reads the event's [env], updates the [world], and
    returns or panics. *)
Definition M (A : Type) : Type := env → world → result (A * world).

#[global] Instance M_ret : MRet M := λ A a _ w, Done (a, w).
#[global] Instance M_bind : MBind M := λ A B f c e w,
  match c e w with
  | Done (a, w') => f a e w'
  | Panic reason => Panic reason
  end.

Definition get : M model := λ _ w, Done (mdl w, w).
Definition tables : M store.Tables := λ _ w, Done (db w, w).
Definition ask : M env := λ e w, Done (e, w).
Definition modify (f : model → model) : M unit :=
  λ _ w, Done ((), mkWorld (f (mdl w)) (db w) (trace w)).
Definition write (t : store.Tables) : M unit :=
  λ _ w, Done ((), mkWorld (mdl w) t (trace w)).
Definition record (c : call) : M unit :=
  λ _ w, Done ((), mkWorld (mdl w) (db w) (trace w ++ [c])).
Definition lift {A} (r : result A) : M A :=
  λ _ w, match r with Done a => Done (a, w) | Panic reason => Panic reason end.

Section methods.
Variable dict : Dictionary.

(** [newModel]: every field but [keyStates] has its zero value. *)
Definition newModel : model :=
  mkModel 0 false 0 (replicate (Z.to_nat numChars) byte0) "" 0 0 0
    (replicate (Z.to_nat numGuesses) (replicate (Z.to_nat numChars) byte0))
    0 0 ∅.

(** [resetStatus] immediately resets the status message to its default
    value. *)
Definition resetStatus : M unit :=
  modify (λ m, set_status ("Score: " +:+ pretty (score m)) m).

(** [setStatus] sets the status message, and returns a [tea.Cmd] that
    restores the default status message after a delay. *)
Definition setStatus (msg : string) (duration : Z) : M Cmd :=
  modify (set_status msg);;
  if decide (duration > 0) then
    modify (λ m, set_statusPending (int_incr (statusPending m)) m);;
    mret (Tick duration)
  else mret CmdNil.

(** [updateScore] fetches the current total score from the database. *)
Definition updateScore : M unit :=
  e ← ask;
  t ← tables;
  record (CallGetTotalScore (getTotalScoreOk e));;
  if getTotalScoreOk e
  then modify (set_score (store.score_value (store.GetTotalScore t)))
  else mret ().

(** [saveGuess]; the result is whether the returned error is [nil]. *)
Definition saveGuess (guess : string) : M bool :=
  (* Create a new game if one doesn't exist. *)
  m ← get;
  e ← ask;
  created ←
    (if decide (gameID m = 0) then
       let answer := Some (string_of_list_ascii (answer m)) in
       if createGameOk e then
         t ← tables;
         let '(game, t') := store.CreateGame t answer in
         write t';;
         record (CallCreateGame answer (Some (store.game_ID game)));;
         modify (set_gameID (store.game_ID game));;
         mret true
       else
         record (CallCreateGame answer None);; mret false
     else mret true);
  if negb created then mret false
  else
    m ← get;
    let game_id := Some (gameID m) in
    record (CallCreateGuess game_id (Some guess) (createGuessOk e));;
    if createGuessOk e then
      t ← tables;
      write (store.CreateGuess t game_id (Some guess)).2;;
      mret true
    else mret false.

(** One iteration of the loop over the guess in [doAcceptGuess], on the
    pair of [success] and [m.keyStates]. *)
Definition acceptKey (answer guess : list byte)
    (st : bool * gmap byte keyState) (idx : nat) : bool * gmap byte keyState :=
  let key := guess !!! idx in
  let '(keyState, success) :=
    if decide (key = answer !!! idx) then (keyStateCorrect, st.1)
    else (if decide (IndexByte answer key ≠ -1)
          then keyStatePresent else keyStateAbsent, false) in
  (success, <[key := keyState_max keyState (keyStates_get st.2 key)]> st.2).

(** [doWin] is called when the user has guessed the word correctly. *)
Definition doWin : M Cmd :=
  modify (set_gameOver true);;
  updateScore;;
  setStatus "You win!" 0.

(** [doLoss] is called when the user has used up all their guesses. *)
Definition doLoss : M Cmd :=
  modify (set_gameOver true);;
  updateScore;;
  m ← get;
  let msg := "The word was " +:+ string_of_list_ascii (answer m)
             +:+ ". Better luck next time!" in
  setStatus msg 0.

(** [doAcceptGuess] accepts the current word. *)
Definition doAcceptGuess : M Cmd :=
  m ← get;
  if gameOver m then mret CmdNil
  else if decide (gridCol m ≠ numChars) then
    (* Only accept a word if it is complete. *)
    setStatus "Your guess must be a 5-letter word." (1 * Second)
  else
    (* Check if the input guess is valid. *)
    guess ← lift (index (grid m) (gridRow m));
    if negb (IsWord dict (string_of_list_ascii guess)) then
      setStatus "That's not a valid word." (1 * Second)
    else
      (* Save the guess; an error is only logged. *)
      saveGuess (string_of_list_ascii guess);;
      (* Update the state of the used letters. *)
      m ← get;
      let st := foldl (acceptKey (answer m) guess) (true, keyStates m)
                  (upto numChars) in
      modify (set_keyStates st.2);;
      (* Move the cursor to the next row. *)
      modify (λ m, set_gridRow (int_incr (gridRow m)) m);;
      modify (set_gridCol 0);;
      (* Check if the game is over. *)
      m ← get;
      if st.1 then doWin
      else if decide (gridRow m = numGuesses) then doLoss
      else mret CmdNil.

(** [m.grid[row][col] = b], with the bounds checks of both indices. *)
Definition grid_store (g : list (list byte)) (row col : Z) (b : byte)
  : result (list (list byte)) :=
  match index g row with
  | Done r =>
      match index r col with
      | Done _ => Done (<[Z.to_nat row := <[Z.to_nat col := b]> r]> g)
      | Panic reason => Panic reason
      end
  | Panic reason => Panic reason
  end.

(** [doAcceptChar] adds one input character to the current word. *)
Definition doAcceptChar (ch : Z) : M Cmd :=
  m ← get;
  (* Only accept a character if the current word is incomplete. *)
  if gameOver m
     || negb (bool_decide (gridRow m < numGuesses)
              && bool_decide (gridCol m < numChars))
  then mret CmdNil
  else
    let ch := toAsciiUpper ch in
    if isAsciiUpper ch then
      g ← lift (grid_store (grid m) (gridRow m) (gridCol m) (byte_of_rune ch));
      modify (set_grid g);;
      modify (λ m, set_gridCol (int_incr (gridCol m)) m);;
      mret CmdNil
    else mret CmdNil.

(** [doDeleteChar] deletes the last character in the current word. *)
Definition doDeleteChar : M Cmd :=
  m ← get;
  if negb (gameOver m) && bool_decide (gridCol m > 0)
  then modify (λ m, set_gridCol (int_decr (gridCol m)) m);; mret CmdNil
  else mret CmdNil.

(** [doExit] exits the program. *)
Definition doExit : M Cmd := mret Quit.

(** [doResize] updates the size of the window. *)
Definition doResize (width height : Z) : M Cmd :=
  modify (set_windowHeight height);;
  modify (set_windowWidth width);;
  mret CmdNil.

(** [doRestart] resets the game state and starts a new game. *)
Definition doRestart : M unit :=
  record GameStarts;;
  (* Start a new game. *)
  modify (set_gameID 0);;
  modify (set_gameOver false);;
  (* Set the puzzle answer. *)
  e ← ask;
  modify (λ m, set_answer (copy_bytes (answer m) (bytes (randomWord e))) m);;
  (* Reset the grid. *)
  modify (set_gridCol 0);;
  modify (set_gridRow 0);;
  (* Clear the key state. *)
  modify (set_keyStates ∅);;
  (* Reset the status message. *)
  updateScore;;
  resetStatus.

(** [Init] is the first function that is called when the UI is created. *)
Definition Init : M Cmd := doRestart;; mret CmdNil.

(** [Update] is called when a message is received. *)
Definition Update (msg : Msg) : M Cmd :=
  match msg with
  | msgResetStatus =>
      modify (λ m, set_statusPending (int_decr (statusPending m)) m);;
      m ← get;
      (if decide (statusPending m = 0) then resetStatus else mret ());;
      mret CmdNil
  | KeyMsg type runes =>
      (* If any key is pressed, reset the status message. *)
      resetStatus;;
      match type with
      | KeyCtrlC => doExit
      | KeyCtrlR => doRestart;; mret CmdNil
      | KeyBackspace => doDeleteChar
      | KeyEnter =>
          m ← get;
          if gameOver m then doRestart;; mret CmdNil
          else doAcceptGuess
      | KeyRunes =>
          match runes with
          | [ch] => doAcceptChar ch
          | _ => mret CmdNil
          end
      | KeyOther => mret CmdNil
      end
  | WindowSizeMsg width height => doResize width height
  | OtherMsg => mret CmdNil
  end.

(** [viewStatus]: the text of the status line. *)
Definition viewStatus (m : model) : key_view := viewKey (status m) colorPrimary.

(** [viewGridRowCurrent] renders the current grid row, with an underscore
    for the letter being currently input. *)
Definition viewGridRowCurrent (row : list byte) (rowIdx : Z) : list key_view :=
  (λ i : nat,
     let key := if decide (Z.of_nat i < rowIdx) then string_of_byte (row !!! i)
                else if decide (Z.of_nat i = rowIdx) then "_" else " " in
     viewKey key colorPrimary) <$> upto numChars.

(** [viewGridRowEmpty] renders an empty grid row; if the grid is locked, the
    keys are grayed out. *)
Definition viewGridRowEmpty (m : model) : list key_view :=
  let keyState := if gameOver m then keyStateAbsent else keyStateUnselected in
  replicate (Z.to_nat numChars) (viewKey " " (color keyState)).

(** [viewGrid] renders the grid. *)
Definition viewGrid (m : model) : list (list key_view) :=
  (λ i : nat,
     if decide (Z.of_nat i < gridRow m)
     then viewGridRowFilled (answer m) (grid m !!! i)
     else if decide (Z.of_nat i = gridRow m ∧ gameOver m = false)
          then viewGridRowCurrent (grid m !!! i) (gridCol m)
          else viewGridRowEmpty m) <$> upto numGuesses.

End methods.

End Session.

(** ** Sessions sharing one ledger *)

Module System.
Import Session.

(** The shape the Go types give the arrays, and the bounds the cursor keeps
    (section "The cursor stays within the grid" proves them of every
    reachable session). *)
Record model_ok (m : model) : Prop := {
  ok_grid_rows : length (grid m) = Z.to_nat numGuesses;
  ok_grid_cols : Forall (λ row, length row = Z.to_nat numChars) (grid m);
  ok_answer : length (answer m) = Z.to_nat numChars;
  ok_gridRow : 0 <= gridRow m <= numGuesses;
  ok_gridCol : 0 <= gridCol m <= numChars;
  ok_in_progress : gameOver m = false → gridRow m < numGuesses;
}.

(** One connection (or the local process): its model, the status resets
    scheduled and not yet fired, oldest first, each named by its rank among
    the resets the session has scheduled, the number of resets scheduled so
    far, and the store calls made so far. *)
Record session : Type := mkSession {
  s_model : model;
  s_ticks : list nat;
  s_scheduled : nat;
  s_trace : list call;
}.

Record system : Type := mkSystem {
  sessions : list session;
  ledger : store.Tables;
}.

(** The runtime's part in a command: a [Tick] is one more status reset
    scheduled. *)
Definition schedule (c : Cmd) (ticks : list nat) (scheduled : nat)
  : list nat * nat :=
  match c with
  | Tick _ => (ticks ++ [scheduled], S scheduled)
  | _ => (ticks, scheduled)
  end.

Definition after (c : Cmd) (w : world) (s : session) : session :=
  let '(ticks, scheduled) := schedule c (s_ticks s) (s_scheduled s) in
  mkSession (mdl w) ticks scheduled (trace w).

Definition world_of (s : session) (t : store.Tables) : world :=
  mkWorld (s_model s) t (s_trace s).

(** *** What handling an event leaves behind

    The worlds below are those the methods of model.go compute ("The
    session's methods, one at a time" proves it); [handles] lists what
    [Update] does with each message. *)

(** After [resetStatus]. *)
Definition defaulted (w : world) : world :=
  mkWorld (set_status ("Score: " +:+ pretty (score (mdl w))) (mdl w)) (db w) (trace w).

(** After [updateScore], on the model [m]. *)
Definition rescored (e : env) (t : store.Tables) (m : model) : model :=
  if getTotalScoreOk e
  then set_score (store.score_value (store.GetTotalScore t)) m else m.

(** After [doRestart]. *)
Definition restarted (e : env) (w : world) : world :=
  let m := set_keyStates ∅ (set_gridRow 0 (set_gridCol 0
             (set_answer (copy_bytes (answer (mdl w)) (bytes (randomWord e)))
                (set_gameOver false (set_gameID 0 (mdl w)))))) in
  let m := rescored e (db w) m in
  mkWorld (set_status ("Score: " +:+ pretty (score m)) m) (db w)
    (trace w ++ [GameStarts] ++ [CallGetTotalScore (getTotalScoreOk e)]).

(** After [saveGuess]. *)
Definition saved (guess : string) (e : env) (w : world) : world :=
  let m := mdl w in
  let ans := Some (string_of_list_ascii (answer m)) in
  if decide (gameID m = 0) then
    if createGameOk e then
      let id := store.game_ID (store.CreateGame (db w) ans).1 in
      let t := (store.CreateGame (db w) ans).2 in
      mkWorld (set_gameID id m)
        (if createGuessOk e
         then (store.CreateGuess t (Some id) (Some guess)).2 else t)
        (trace w ++ [CallCreateGame ans (Some id)]
           ++ [CallCreateGuess (Some id) (Some guess) (createGuessOk e)])
    else mkWorld m (db w) (trace w ++ [CallCreateGame ans None])
  else
    mkWorld m
      (if createGuessOk e
       then (store.CreateGuess (db w) (Some (gameID m)) (Some guess)).2
       else db w)
      (trace w ++ [CallCreateGuess (Some (gameID m)) (Some guess) (createGuessOk e)]).

(** After the guess [guess] has coloured the keys and the cursor has moved
    to the next row. *)
Definition moved (guess : list byte) (w : world) : world :=
  let m := mdl w in
  let st := foldl (acceptKey (answer m) guess) (true, keyStates m) (upto numChars) in
  mkWorld (set_gridCol 0 (set_gridRow (int_incr (gridRow m)) (set_keyStates st.2 m)))
    (db w) (trace w).

(** After [doWin] or [doLoss], which differ in the status they set. *)
Definition ended (msg : string) (e : env) (w : world) : world :=
  mkWorld (set_status msg (rescored e (db w) (set_gameOver true (mdl w))))
    (db w) (trace w ++ [CallGetTotalScore (getTotalScoreOk e)]).

(** After an accepted guess. *)
Definition accepted (guess : list byte) (e : env) (w : world) : world :=
  let w2 := moved guess (saved (string_of_list_ascii guess) e w) in
  if bool_decide (guess = answer (mdl w)) then ended "You win!" e w2
  else if decide (gridRow (mdl w2) = numGuesses) then
    ended ("The word was " +:+ string_of_list_ascii (answer (mdl w2))
           +:+ ". Better luck next time!") e w2
  else w2.

(** After a rejected guess. *)
Definition warned (msg : string) (w : world) : world :=
  mkWorld (set_statusPending (int_incr (statusPending (mdl w))) (set_status msg (mdl w)))
    (db w) (trace w).

(** After [msgResetStatus]. *)
Definition timed_out (w : world) : world :=
  let m := set_statusPending (int_decr (statusPending (mdl w))) (mdl w) in
  mkWorld (if decide (statusPending m = 0)
           then set_status ("Score: " +:+ pretty (score m)) m else m)
    (db w) (trace w).

(** The messages that restart the game. *)
Definition restarts (m : model) (msg : Msg) : bool :=
  match msg with
  | KeyMsg KeyCtrlR _ => true
  | KeyMsg KeyEnter _ => gameOver m
  | _ => false
  end.

(** *** The calls of a session, game by game

    The functions below read the calls of a session in order; [GameStarts]
    begins a game, which has no identity yet. *)

(** The identity of the current game: the one its successful CreateGame
    returned, if any; [id] is the identity before the calls [tr]. *)
Fixpoint identity (id : option Z) (tr : list call) : option Z :=
  match tr with
  | [] => id
  | GameStarts :: tr => identity None tr
  | CallCreateGame _ (Some i) :: tr => identity (Some i) tr
  | _ :: tr => identity id tr
  end.

(** CreateGame is called at most once in every game; [n] is the number of
    its calls in the current game before [tr]. *)
Fixpoint called_once (n : nat) (tr : list call) : bool :=
  match tr with
  | [] => true
  | GameStarts :: tr => called_once 0 tr
  | CallCreateGame _ _ :: tr => bool_decide (n = 0%nat) && called_once (S n) tr
  | _ :: tr => called_once n tr
  end.

(** CreateGame succeeds at most once in every game; [n] is the number of
    its successful calls in the current game before [tr]. *)
Fixpoint created_once (n : nat) (tr : list call) : bool :=
  match tr with
  | [] => true
  | GameStarts :: tr => created_once 0 tr
  | CallCreateGame _ (Some _) :: tr => bool_decide (n = 0%nat) && created_once (S n) tr
  | _ :: tr => created_once n tr
  end.

(** The discipline of lazy creation: while the game has no identity, no
    guess is written, and a CreateGame that succeeds is followed at once by
    the CreateGuess of the guess that caused it, under the new identity;
    once the game has an identity, CreateGame is not called again and every
    guess is written under that identity. *)
Fixpoint lazily (id : option Z) (tr : list call) : bool :=
  match tr with
  | [] => true
  | GameStarts :: tr => lazily None tr
  | CallGetTotalScore _ :: tr => lazily id tr
  | CallCreateGame _ r :: tr =>
      match id, r with
      | Some _, _ => false
      | None, None => lazily None tr
      | None, Some i =>
          match tr with
          | CallCreateGuess g _ _ :: _ => bool_decide (g = Some i)
          | _ => false
          end && lazily (Some i) tr
      end
  | CallCreateGuess g _ _ :: tr =>
      match id with
      | Some i => bool_decide (g = Some i) && lazily id tr
      | None => false
      end
  end.

(** The identity as the model holds it: 0 stands for none. *)
Definition identity_of (m : model) : option Z :=
  if decide (gameID m = 0) then None else Some (gameID m).

(** What a reachable session keeps true of its calls. *)
Definition calls_ok (s : session) : Prop :=
  lazily None (s_trace s) = true ∧
  identity None (s_trace s) = identity_of (s_model s).

(** *** The ledger under many sessions *)

(** The session whose model is [m] owns its game in the tables [t]: if the
    game has an identity, its record is in the game table with the session's
    answer, and while the game is in progress none of its guesses is the
    answer. *)
Definition owns (t : store.Tables) (m : model) : Prop :=
  gameID m ≠ 0 →
  store.mkGame (gameID m) (Some (string_of_list_ascii (answer m))) ∈ store.game t ∧
  (gameOver m = false →
   Forall (λ x, store.sql_eq (Some (string_of_list_ascii (answer m)))
                  (store.guess_Guess x) = false)
     (filter (λ x, store.guess_GameID x = Some (gameID m)) (store.guess t))).

(** Every guess belongs to a game of the game table. *)
Definition referential (t : store.Tables) : Prop :=
  ∀ x j, x ∈ store.guess t → store.guess_GameID x = Some j →
         j ∈ store.game_ID <$> store.game t.

(** No two sessions hold the same game. *)
Definition apart (sessions : list model) : Prop :=
  ∀ i j m m',
    i ≠ j → sessions !! i = Some m → sessions !! j = Some m' →
    gameID m ≠ 0 → gameID m ≠ gameID m'.

(** What a reachable system keeps true of its ledger. *)
Record ledger_inv (sessions : list model) (t : store.Tables) : Prop := {
  inv_wf : store.ledger_wf t;
  inv_referential : referential t;
  inv_owns : Forall (owns t) sessions;
  inv_apart : apart sessions;
}.

Section handling.
Variable dict : Dictionary.

Inductive handles (e : env) (w : world) : Msg → Cmd → world → Prop :=
  | handles_timer :
      handles e w msgResetStatus CmdNil (timed_out w)
  | handles_exit runes :
      handles e w (KeyMsg KeyCtrlC runes) Quit (defaulted w)
  | handles_restart msg :
      restarts (mdl w) msg = true →
      handles e w msg CmdNil (restarted e (defaulted w))
  | handles_delete runes :
      gameOver (mdl w) = false → gridCol (mdl w) > 0 →
      handles e w (KeyMsg KeyBackspace runes) CmdNil
        (mkWorld (set_gridCol (gridCol (mdl w) - 1) (mdl (defaulted w))) (db w) (trace w))
  | handles_rejected runes msg :
      gameOver (mdl w) = false →
      (gridCol (mdl w) ≠ numChars
       ∧ msg = "Your guess must be a 5-letter word."
       ∨ (∃ guess, grid (mdl w) !! Z.to_nat (gridRow (mdl w)) = Some guess
                   ∧ IsWord dict (string_of_list_ascii guess) = false)
         ∧ msg = "That's not a valid word.") →
      handles e w (KeyMsg KeyEnter runes) (Tick (1 * Second)) (warned msg (defaulted w))
  | handles_accepted runes guess :
      gameOver (mdl w) = false → gridCol (mdl w) = numChars →
      grid (mdl w) !! Z.to_nat (gridRow (mdl w)) = Some guess →
      IsWord dict (string_of_list_ascii guess) = true →
      handles e w (KeyMsg KeyEnter runes) CmdNil (accepted guess e (defaulted w))
  | handles_char ch row :
      gameOver (mdl w) = false → gridCol (mdl w) < numChars →
      isAsciiUpper (toAsciiUpper ch) = true →
      grid (mdl w) !! Z.to_nat (gridRow (mdl w)) = Some row →
      handles e w (KeyMsg KeyRunes [ch]) CmdNil
        (mkWorld
           (set_gridCol (gridCol (mdl w) + 1)
              (set_grid (<[Z.to_nat (gridRow (mdl w)) :=
                           <[Z.to_nat (gridCol (mdl w)) :=
                               byte_of_rune (toAsciiUpper ch)]> row]> (grid (mdl w)))
                 (mdl (defaulted w))))
           (db w) (trace w))
  | handles_ignored type runes :
      (** a key press that only resets the status line *)
      type ≠ KeyCtrlC → restarts (mdl w) (KeyMsg type runes) = false →
      handles e w (KeyMsg type runes) CmdNil (defaulted w)
  | handles_resize width height :
      handles e w (WindowSizeMsg width height) CmdNil
        (mkWorld (set_windowWidth width (set_windowHeight height (mdl w))) (db w) (trace w))
  | handles_other :
      handles e w OtherMsg CmdNil w.

End handling.

Section steps.
Variable dict : Dictionary.

(** What can happen next: a session starts ([getModel], the window size of
    the terminal, [Init]); a session receives a key press, a resize or any
    other message; the oldest scheduled status reset of a session fires
    (every [Tick] of model.go lasts one second, so resets expire in the order
    they were scheduled); the process is restarted, which ends every session
    and keeps the ledger. *)
Inductive step : system → system → Prop :=
  | step_connect (sys : system) (width height : Z) (e : env) (c : Cmd) (w : world) :
      Init e (mkWorld (set_windowHeight height (set_windowWidth width newModel))
                (ledger sys) [])
      = Done (c, w) →
      step sys (mkSystem (sessions sys ++ [after c w (mkSession newModel [] 0 [])])
                  (db w))
  | step_event (sys : system) (i : nat) (s : session) (msg : Msg) (e : env)
        (c : Cmd) (w : world) :
      sessions sys !! i = Some s →
      msg ≠ msgResetStatus →
      Update dict msg e (world_of s (ledger sys)) = Done (c, w) →
      step sys (mkSystem (<[i := after c w s]> (sessions sys)) (db w))
  | step_timer (sys : system) (i : nat) (s : session) (k : nat) (rest : list nat)
        (e : env) (c : Cmd) (w : world) :
      sessions sys !! i = Some s →
      s_ticks s = k :: rest →
      Update dict msgResetStatus e (world_of s (ledger sys)) = Done (c, w) →
      step sys
        (mkSystem
           (<[i := after c w (mkSession (s_model s) rest (s_scheduled s) (s_trace s))]>
              (sessions sys))
           (db w))
  | step_restart (sys : system) :
      step sys (mkSystem [] (ledger sys)).

(** The systems that arise from an empty ledger. *)
Inductive reachable : system → Prop :=
  | reachable_start : reachable (mkSystem [] store.empty)
  | reachable_step (sys sys' : system) :
      reachable sys → step sys sys' → reachable sys'.

(** What a reachable session keeps true of its status resets: those still
    scheduled are the last ones it scheduled, in order, and
    [statusPending] counts them. *)
Definition ticks_ok (s : session) : Prop :=
  (length (s_ticks s) ≤ s_scheduled s)%nat ∧
  s_ticks s = seq (s_scheduled s - length (s_ticks s)) (length (s_ticks s)) ∧
  statusPending (s_model s) = int_wrap (Z.of_nat (length (s_ticks s))).

End steps.

End System.

(** ** The first revision: statistics in db.json

    model.go and the file that holds query.sql carry two revisions of the
    program.  The later one, embedded above, keeps games and guesses in SQL
    tables.  The first one keeps a histogram of results in a JSON file and
    records a win with [db.addWin]; it is embedded here. *)

Module Legacy.

(** [db.Guesses]: [Guesses[0]] is the number of games that were lost,
    [Guesses[k]] the number of games that were won with [k] guesses.  The
    array has [numGuesses + 1] cells. *)
Record db : Type := mkDb { Guesses : list Z }.

Definition zero_db : db := mkDb (replicate (Z.to_nat (numGuesses + 1)) 0).

(** What one event's handling depends on besides the model and the file:
    whether [loadDb] and [db.save] return without an error, and the word
    [getWord] draws. *)
Record env : Type := mkEnv {
  loadOk : bool;
  saveOk : bool;
  randomWord : string;
}.

Record model : Type := mkModel {
  score : Z;
  word : list byte;
  gameOver : bool;
  errors : list string;
  keyStates : gmap byte keyState;
  status : string;
  statusPending : Z;
  height : Z;
  width : Z;
  grid : list (list byte);
  gridRow : Z;
  gridCol : Z;
}.

Definition set_score (v : Z) (m : model) : model :=
  mkModel v (word m) (gameOver m) (errors m) (keyStates m) (status m)
    (statusPending m) (height m) (width m) (grid m) (gridRow m) (gridCol m).
Definition set_word (v : list byte) (m : model) : model :=
  mkModel (score m) v (gameOver m) (errors m) (keyStates m) (status m)
    (statusPending m) (height m) (width m) (grid m) (gridRow m) (gridCol m).
Definition set_gameOver (v : bool) (m : model) : model :=
  mkModel (score m) (word m) v (errors m) (keyStates m) (status m)
    (statusPending m) (height m) (width m) (grid m) (gridRow m) (gridCol m).
Definition set_errors (v : list string) (m : model) : model :=
  mkModel (score m) (word m) (gameOver m) v (keyStates m) (status m)
    (statusPending m) (height m) (width m) (grid m) (gridRow m) (gridCol m).
Definition set_keyStates (v : gmap byte keyState) (m : model) : model :=
  mkModel (score m) (word m) (gameOver m) (errors m) v (status m)
    (statusPending m) (height m) (width m) (grid m) (gridRow m) (gridCol m).
Definition set_status (v : string) (m : model) : model :=
  mkModel (score m) (word m) (gameOver m) (errors m) (keyStates m) v
    (statusPending m) (height m) (width m) (grid m) (gridRow m) (gridCol m).
Definition set_statusPending (v : Z) (m : model) : model :=
  mkModel (score m) (word m) (gameOver m) (errors m) (keyStates m) (status m)
    v (height m) (width m) (grid m) (gridRow m) (gridCol m).
Definition set_height (v : Z) (m : model) : model :=
  mkModel (score m) (word m) (gameOver m) (errors m) (keyStates m) (status m)
    (statusPending m) v (width m) (grid m) (gridRow m) (gridCol m).
Definition set_width (v : Z) (m : model) : model :=
  mkModel (score m) (word m) (gameOver m) (errors m) (keyStates m) (status m)
    (statusPending m) (height m) v (grid m) (gridRow m) (gridCol m).
Definition set_grid (v : list (list byte)) (m : model) : model :=
  mkModel (score m) (word m) (gameOver m) (errors m) (keyStates m) (status m)
    (statusPending m) (height m) (width m) v (gridRow m) (gridCol m).
Definition set_gridRow (v : Z) (m : model) : model :=
  mkModel (score m) (word m) (gameOver m) (errors m) (keyStates m) (status m)
    (statusPending m) (height m) (width m) (grid m) v (gridCol m).
Definition set_gridCol (v : Z) (m : model) : model :=
  mkModel (score m) (word m) (gameOver m) (errors m) (keyStates m) (status m)
    (statusPending m) (height m) (width m) (grid m) (gridRow m) v.

(** The model, and the decoded content of db.json ([None]: no such file). *)
Record world : Type := mkWorld {
  mdl : model;
  file : option db;
}.

Definition M (A : Type) : Type := env → world → result (A * world).

#[global] Instance M_ret : MRet M := λ A a _ w, Done (a, w).
#[global] Instance M_bind : MBind M := λ A B f c e w,
  match c e w with
  | Done (a, w') => f a e w'
  | Panic reason => Panic reason
  end.

Definition get : M model := λ _ w, Done (mdl w, w).
Definition ask : M env := λ e w, Done (e, w).
Definition modify (f : model → model) : M unit :=
  λ _ w, Done ((), mkWorld (f (mdl w)) (file w)).
Definition read_file : M (option db) := λ _ w, Done (file w, w).
Definition write_file (d : db) : M unit := λ _ w, Done ((), mkWorld (mdl w) (Some d)).
Definition lift {A} (r : result A) : M A :=
  λ _ w, match r with Done a => Done (a, w) | Panic reason => Panic reason end.

(** [loadDb] reads the database; a missing file is an empty database.
    Decoding into the array keeps [numGuesses + 1] numbers, zeros where the
    file has fewer.  [None] is an error. *)
Definition loadDb : M (option db) :=
  e ← ask;
  if loadOk e then
    f ← read_file;
    match f with
    | None => mret (Some zero_db)
    | Some d =>
        mret (Some (mkDb (take (Z.to_nat (numGuesses + 1))
                            (Guesses d ++ replicate (Z.to_nat (numGuesses + 1)) 0))))
    end
  else mret None.

(** [save] writes the database; the result is whether the error is
    [nil]. *)
Definition save (d : db) : M bool :=
  e ← ask;
  if saveOk e then write_file d;; mret true else mret false.

(** [addWin] adds a win to the game statistics.  It also stores the number
    of guesses it took, in the range [1,numGuesses]. *)
Definition addWin (d : db) (guesses : Z) : result db :=
  if negb (bool_decide (1 <= guesses) && bool_decide (guesses <= numGuesses))
  then Panic "guesses out of range"
  else
    match index (Guesses d) guesses with
    | Done n => Done (mkDb (<[Z.to_nat guesses := int_incr n]> (Guesses d)))
    | Panic reason => Panic reason
    end.

(** [addLoss] adds a loss to the game statistics. *)
Definition addLoss (d : db) : result db :=
  match index (Guesses d) 0 with
  | Done n => Done (mkDb (<[0%nat := int_incr n]> (Guesses d)))
  | Panic reason => Panic reason
  end.

(** [score] returns the current total score based on the statistics: the
    loop over [db.Guesses[1:]], in 64-bit arithmetic. *)
Definition score_of (d : db) : Z :=
  foldl (λ score '(i, guess),
           int_wrap (score + int_wrap (int_wrap (100 - 10 * Z.of_nat i) * guess)))
    0 (imap pair (drop 1 (Guesses d))).

Section methods.
(** [isWord], of the dictionary, which is not among the sources. *)
Variable isWord : string → bool.

(** [resetStatus] immediately resets the status message to its default
    value. *)
Definition resetStatus : M unit :=
  modify (λ m, set_status ("Score: " +:+ pretty (score m)) m).

(** [setStatus] sets the status message, and returns a [tea.Cmd] that
    restores the default status message after a delay. *)
Definition setStatus (msg : string) (duration : Z) : M Cmd :=
  modify (set_status msg);;
  if decide (duration > 0) then
    modify (λ m, set_statusPending (int_incr (statusPending m)) m);;
    mret (Tick duration)
  else mret CmdNil.

(** [reportError] stores the given error and prints a message to the status
    line. *)
Definition reportError (err msg : string) : M Cmd :=
  modify (λ m, set_errors (errors m ++ [err]) m);;
  setStatus msg (3 * Second).

(** [withDb] runs a function in the context of the database.  The database
    is automatically saved at the end. *)
Definition withDb (f : db → M db) : M Cmd :=
  loaded ← loadDb;
  match loaded with
  | None => reportError "could not read from database" "Error loading database."
  | Some d =>
      d ← f d;
      save d ≫= λ saved : bool,
        if saved then mret CmdNil
        else reportError "could not write to database" "Error saving database."
  end.

(** [reset] *)
Definition reset : M unit :=
  (* Unlock and reset the grid. *)
  modify (set_gameOver false);;
  modify (set_gridCol 0);;
  modify (set_gridRow 0);;
  (* Clear the key state. *)
  modify (set_keyStates ∅);;
  (* Set the puzzle word. *)
  e ← ask;
  modify (λ m, set_word (copy_bytes (word m) (bytes (randomWord e))) m);;
  (* Reset the status message. *)
  resetStatus.

(** [Init]: the model starts from its zero value, with the window size the
    server knows. *)
Definition zero_model : model :=
  mkModel 0 (replicate (Z.to_nat numChars) byte0) false [] ∅ "" 0 0 0
    (replicate (Z.to_nat numGuesses) (replicate (Z.to_nat numChars) byte0)) 0 0.

Definition Init : M Cmd :=
  modify (set_keyStates ∅);;
  withDb (λ d, modify (set_score (score_of d));; reset;; mret d).

(** One iteration of the loop over the word in [doAcceptWord]. *)
Definition acceptKey (answer guess : list byte)
    (st : bool * gmap byte keyState) (i : nat) : bool * gmap byte keyState :=
  let key := guess !!! i in
  let '(keyStatus, success) :=
    if decide (key = answer !!! i) then (keyStateCorrect, st.1)
    else (if decide (IndexByte answer key ≠ -1)
          then keyStatePresent else keyStateAbsent, false) in
  (success,
   if decide (keyState_int (keyStates_get st.2 key) < keyState_int keyStatus)
   then <[key := keyStatus]> st.2 else st.2).

(** [doWin] is called when the user has guessed the word correctly. *)
Definition doWin : M Cmd :=
  modify (set_gameOver true);;
  c1 ← withDb (λ d,
          m ← get;
          d ← lift (addWin d (gridRow m));
          modify (set_score (score_of d));;
          mret d);
  c2 ← setStatus "You win!" 0;
  mret (Sequentially c1 c2).

(** [doLoss] is called when the user has used up all their guesses. *)
Definition doLoss : M Cmd :=
  modify (set_gameOver true);;
  m ← get;
  let msg := "The word was " +:+ string_of_list_ascii (word m)
             +:+ ". Better luck next time!" in
  c1 ← withDb (λ d,
          d ← lift (addLoss d);
          modify (set_score (score_of d));;
          mret d);
  c2 ← setStatus msg 0;
  mret (Sequentially c1 c2).

(** [doAcceptWord] accepts the current word. *)
Definition doAcceptWord : M Cmd :=
  m ← get;
  if gameOver m then mret CmdNil
  else if decide (gridCol m ≠ numChars) then
    setStatus "Your guess must be a 5-letter word." (1 * Second)
  else
    guess ← lift (index (grid m) (gridRow m));
    if negb (isWord (string_of_list_ascii guess)) then
      setStatus "That's not a valid word." (1 * Second)
    else
      let st := foldl (acceptKey (word m) guess) (true, keyStates m)
                  (upto numChars) in
      modify (set_keyStates st.2);;
      modify (λ m, set_gridRow (int_incr (gridRow m)) m);;
      modify (set_gridCol 0);;
      m ← get;
      if st.1 then doWin
      else if decide (gridRow m = numGuesses) then doLoss
      else mret CmdNil.

(** [m.grid[row][col] = b], with the bounds checks of both indices. *)
Definition grid_store (g : list (list byte)) (row col : Z) (b : byte)
  : result (list (list byte)) :=
  match index g row with
  | Done r =>
      match index r col with
      | Done _ => Done (<[Z.to_nat row := <[Z.to_nat col := b]> r]> g)
      | Panic reason => Panic reason
      end
  | Panic reason => Panic reason
  end.

(** [doAcceptChar] adds one input character to the current word. *)
Definition doAcceptChar (ch : Z) : M Cmd :=
  m ← get;
  if gameOver m
     || negb (bool_decide (gridRow m < numGuesses)
              && bool_decide (gridCol m < numChars))
  then mret CmdNil
  else
    let ch := toAsciiUpper ch in
    if isAsciiUpper ch then
      g ← lift (grid_store (grid m) (gridRow m) (gridCol m) (byte_of_rune ch));
      modify (set_grid g);;
      modify (λ m, set_gridCol (int_incr (gridCol m)) m);;
      mret CmdNil
    else mret CmdNil.

(** [doDeleteChar] deletes the last character in the current word. *)
Definition doDeleteChar : M Cmd :=
  m ← get;
  if negb (gameOver m) && bool_decide (gridCol m > 0)
  then modify (λ m, set_gridCol (int_decr (gridCol m)) m);; mret CmdNil
  else mret CmdNil.

(** [doExit] exits the program. *)
Definition doExit : M Cmd := mret Quit.

(** [doResize] updates the size of the window. *)
Definition doResize (w h : Z) : M Cmd :=
  modify (set_height h);;
  modify (set_width w);;
  mret CmdNil.

Definition Update (msg : Msg) : M Cmd :=
  match msg with
  | msgResetStatus =>
      modify (λ m, set_statusPending (int_decr (statusPending m)) m);;
      m ← get;
      (if decide (statusPending m = 0) then resetStatus else mret ());;
      mret CmdNil
  | KeyMsg type runes =>
      resetStatus;;
      match type with
      | KeyCtrlC => doExit
      | KeyCtrlR => reset;; mret CmdNil
      | KeyBackspace => doDeleteChar
      | KeyEnter =>
          m ← get;
          if gameOver m then reset;; mret CmdNil
          else doAcceptWord
      | KeyRunes =>
          match runes with
          | [ch] => doAcceptChar ch
          | _ => mret CmdNil
          end
      | KeyOther => mret CmdNil
      end
  | WindowSizeMsg w h => doResize w h
  | OtherMsg => mret CmdNil
  end.

(** The states of one session of the first revision: it starts from the
    zero model, handles messages, and between two of them other sessions
    and processes may rewrite db.json. *)
Inductive reachable : world → Prop :=
  | reachable_Init (w h : Z) (f : option db) (e : env) (c : Cmd) (w' : world) :
      Init e (mkWorld (set_height h (set_width w zero_model)) f) = Done (c, w') →
      reachable w'
  | reachable_Update (w w' : world) (msg : Msg) (e : env) (c : Cmd) :
      reachable w → Update msg e w = Done (c, w') → reachable w'
  | reachable_file (w : world) (f : option db) :
      reachable w → reachable (mkWorld (mdl w) f).

(** The bounds of the cursor, and the shape of the arrays. *)
Record model_ok (m : model) : Prop := {
  ok_grid_rows : length (grid m) = Z.to_nat numGuesses;
  ok_grid_cols : Forall (λ row, length row = Z.to_nat numChars) (grid m);
  ok_gridRow : 0 <= gridRow m <= numGuesses;
  ok_gridCol : 0 <= gridCol m <= numChars;
  ok_in_progress : gameOver m = false → gridRow m < numGuesses;
}.

(** The fields the bounds are about. *)
Definition same_cursor (m m' : model) : Prop :=
  grid m' = grid m ∧ gridRow m' = gridRow m ∧ gridCol m' = gridCol m.

End methods.

(** The statistics after a list of finished games, each a win with its
    number of guesses or a loss ([None]); [None] if [addWin] panics. *)
Definition played (games : list (option Z)) : option db :=
  foldl (λ d game,
           d ← d;
           match (match game with Some k => addWin d k | None => addLoss d end) with
           | Done d' => Some d'
           | Panic _ => None
           end)
    (Some zero_db) games.

End Legacy.

(** ** Concrete sessions, for the examples *)

Module Examples.
Import Session System.

Definition dict : Dictionary :=
  {| IsWord := λ s, bool_decide (s ∈ ["CRANE"; "CRATE"; "SPEED"; "ERASE"; "TRACE";
                                        "REACT"; "SPEND"; "SLATE"]) |}.

(** Every store call succeeds, and the dictionary draws CRANE. *)
Definition fine : env := mkEnv true true true "CRANE".

(** The store rejects CreateGame (and nothing else). *)
Definition no_game : env := mkEnv false true true "CRANE".

(** The world an event leaves, the same world if its handling panics. *)
Definition then_ {A} (w : world) (r : result (A * world)) : world :=
  match r with
  | Done (_, w') => w'
  | Panic _ => w
  end.

Definition press (e : env) (w : world) (msg : Msg) : world :=
  then_ w (Update dict msg e w).

(** The key presses that type a word. *)
Definition typing (s : string) : list Msg :=
  (λ b : byte, KeyMsg KeyRunes [Z.of_N (N_of_ascii b)]) <$> bytes s.

Definition enter : Msg := KeyMsg KeyEnter [].

(** A session on an empty ledger, just started. *)
Definition started : world :=
  then_ (mkWorld newModel store.empty []) (Init fine (mkWorld newModel store.empty [])).

(** ... after C, R, A, N have been typed; *)
Definition typed_CRAN : world := foldl (press fine) started (typing "cran").

(** ... after XXXXX has been typed; *)
Definition typed_XXXXX : world := foldl (press fine) started (typing "xxxxx").

(** ... after CRATE has been typed; *)
Definition typed_CRATE : world := foldl (press fine) started (typing "crate").

(** ... after CRANE has been typed; *)
Definition typed_CRANE : world := foldl (press fine) started (typing "CRANE").

(** ... after CRANE has been entered: the game is won. *)
Definition won : world := press fine typed_CRANE enter.

(** A session in which CreateGame failed for the first guess, CRATE, and
    succeeded for the second guess, SLATE. *)
Definition retried : world :=
  let w := press no_game typed_CRATE enter in
  let w := foldl (press fine) w (typing "slate") in
  press fine w enter.

(** The system that has one session, in the world [w], with no status reset
    scheduled so far. *)
Definition only (w : world) : session := mkSession (mdl w) [] 0 (trace w).

Definition alone (w : world) : system := mkSystem [only w] (db w).

(** ... after Enter on the incomplete row C, R, A, N: a status reset is
    pending. *)
Definition warned : world := press fine typed_CRAN enter.

Definition warned_session : session :=
  mkSession (mdl warned) [0%nat] 1 (trace warned).

Definition warned_system : system := mkSystem [warned_session] (db warned).

End Examples.

(** ** More invariants and views *)

(** What pass 2 of the evaluator keeps besides [pass2_inv]: no slot is left
    unmarked, and once a slot below [k] has been left [Absent], its letter
    has no unconsumed occurrence in [letters]. *)
Definition pass2_exact (word : list byte) (k : nat) (st : eval_state) : Prop :=
  (∀ i, (i < Z.to_nat numChars)%nat → st.1 !!! i ≠ keyStateUnselected) ∧
  (∀ i, (i < k)%nat → st.1 !!! i = keyStateAbsent → word !!! i ≠ byte0 →
        count (word !!! i) st.2 = 0%nat).

(** The state that the loop of [doAcceptGuess] (and of the older
    [doAcceptWord]) computes for the key at position [idx] of the guess,
    before it is merged into the key states. *)
Definition keyVerdict (answer guess : list byte) (idx : nat) : keyState :=
  if decide (guess !!! idx = answer !!! idx) then keyStateCorrect
  else if decide (IndexByte answer (guess !!! idx) ≠ -1) then keyStatePresent
       else keyStateAbsent.

(** The key states tell the truth about the answer: a key shown Absent does
    not occur in it, a key shown Present or Correct does. *)
Definition key_sound (answer : list byte) (ks : gmap byte keyState) : Prop :=
  ∀ key, match keyStates_get ks key with
         | keyStateUnselected => True
         | keyStateAbsent => key ∉ answer
         | keyStatePresent | keyStateCorrect => key ∈ answer
         end.

(** An upper-case ASCII letter. *)
Definition isLetter (b : byte) : Prop := (65 <= N_of_ascii b <= 90)%N.

(** The cell in row [i], column [j] of the grid is before the cursor: in a
    row that has been submitted, or in the current row to the left of the
    cursor. *)
Definition written (m : Session.model) (i j : nat) : Prop :=
  (j < Z.to_nat numChars)%nat ∧
  (Z.of_nat i < Session.gridRow m
   ∨ Z.of_nat i = Session.gridRow m ∧ Z.of_nat j < Session.gridCol m).

(** Every cell before the cursor holds an upper-case letter. *)
Definition letters_ok (m : Session.model) : Prop :=
  ∀ i j, written m i j →
         ∃ row b, Session.grid m !! i = Some row ∧ row !! j = Some b ∧ isLetter b.

(** *** The guesses the ledger holds for a session *)

(** The words of the guesses recorded for the game of identity [id], in the
    order of their insertion. *)
Definition recorded (t : store.Tables) (id : Z) : list (option string) :=
  store.guess_Guess
    <$> filter (λ x, store.guess_GameID x = Some id) (store.guess t).

(** The rows of the grid above the cursor, as the words [saveGuess] is
    given. *)
Definition submitted (m : Session.model) : list (option string) :=
  (λ row, Some (string_of_list_ascii row))
    <$> take (Z.to_nat (Session.gridRow m)) (Session.grid m).

(** The guesses recorded for the game of a session are rows it has
    submitted, in their order (rows are missing where CreateGame or
    CreateGuess failed). *)
Definition records_ok (t : store.Tables) (m : Session.model) : Prop :=
  Session.gameID m ≠ 0 → sublist (recorded t (Session.gameID m)) (submitted m).

(** What a reachable system keeps true of its ledger, besides
    [System.ledger_inv]. *)
Record ledger_counts (sessions : list Session.model) (t : store.Tables) : Prop := {
  counts_inv : System.ledger_inv sessions t;
  counts_ok : Forall System.model_ok sessions;
  counts_records : Forall (records_ok t) sessions;
  counts_six : Forall (λ g, (length (store.guesses_of t g) ≤ 6)%nat) (store.game t);
}.

(** *** The game as the player sees it *)

(** Two models show the same game: they agree on everything but the game
    identity, the score and the status text. *)
Definition same_play (m m' : Session.model) : Prop :=
  Session.grid m' = Session.grid m ∧ Session.gridRow m' = Session.gridRow m
  ∧ Session.gridCol m' = Session.gridCol m
  ∧ Session.keyStates m' = Session.keyStates m
  ∧ Session.gameOver m' = Session.gameOver m
  ∧ Session.answer m' = Session.answer m
  ∧ Session.statusPending m' = Session.statusPending m
  ∧ Session.windowHeight m' = Session.windowHeight m
  ∧ Session.windowWidth m' = Session.windowWidth m.

(** *** GetTotalScore on any tables *)

(** The number of guesses of the game [g] that equal its answer: the rows of
    [victory] that the first join of GetTotalScore pairs with [g]. *)
Definition victories (t : store.Tables) (g : store.Game) : nat :=
  length (filter (λ x, store.sql_eq (store.game_Answer g) (store.guess_Guess x) = true)
            (store.guesses_of t g)).

(** What the group of the game [g] adds to [SUM(score)]: the game has no
    group without a victory row; with [v] victory rows and [n] guesses the
    group has [v * n] rows. *)
Definition sql_contribution (t : store.Tables) (g : store.Game) : Z :=
  let v := victories t g in
  let n := length (store.guesses_of t g) in
  if decide (v = 0%nat) then 0 else 10 * (11 - Z.of_nat (v * n)).

(** *** The statistics file of the first revision *)

(** What [loadDb] decodes from db.json when it can be read. *)
Definition decoded (f : option Legacy.db) : Legacy.db :=
  match f with
  | None => Legacy.zero_db
  | Some d =>
      Legacy.mkDb (take (Z.to_nat (numGuesses + 1))
                     (Legacy.Guesses d ++ replicate (Z.to_nat (numGuesses + 1)) 0))
  end.

(** *** When a game is over *)

(** The game-over flag says what the grid says: while the game is in
    progress no submitted row is the answer, and once it is over the last
    submitted row is the answer or all the rows are used. *)
Definition over_ok (m : Session.model) : Prop :=
  (Session.gameOver m = false →
   ∀ i, Z.of_nat i < Session.gridRow m → Session.grid m !!! i ≠ Session.answer m) ∧
  (Session.gameOver m = true →
   1 <= Session.gridRow m ∧
   (Session.grid m !!! Z.to_nat (Session.gridRow m - 1) = Session.answer m
    ∨ Session.gridRow m = numGuesses)).

(** The session that typed CRANE while the warning for the incomplete row
    C, R, A, N was still shown: one status reset is pending. *)
Definition warned_CRANE : Session.world :=
  Examples.press Examples.fine Examples.warned (KeyMsg KeyRunes [101]).

(** *** The keyboard (viewKeyboard) *)

(** The state [viewKeyboardRow] looks up for a key: that of its byte for a
    key of one byte, and unselected for ENTER and DELETE. *)
Definition keyboardKeyState (m : Session.model) (key : string) : keyState :=
  match key with
  | String b EmptyString => keyStates_get (Session.keyStates m) b
  | _ => keyStateUnselected
  end.

(** [viewKeyboardRow] renders a single row of the keyboard: the arguments
    it gives to [lipgloss.JoinHorizontal].  [None] is the empty string:
    [make([]string, len(keys))] puts one per key into the slice before the
    rendered keys are appended. *)
Definition viewKeyboardRow (m : Session.model) (keys : list string)
  : list (option key_view) :=
  foldl (λ keysRendered key,
           keysRendered ++ [Some (viewKey key (color (keyboardKeyState m key)))])
    (replicate (length keys) None) keys.

(** [viewKeyboard]: the three rows it renders; padding and border are
    lipgloss's. *)
Definition viewKeyboard (m : Session.model) : list (list (option key_view)) :=
  [viewKeyboardRow m ["Q"; "W"; "E"; "R"; "T"; "Y"; "U"; "I"; "O"; "P"];
   viewKeyboardRow m ["A"; "S"; "D"; "F"; "G"; "H"; "J"; "K"; "L"];
   viewKeyboardRow m ["ENTER"; "Z"; "X"; "C"; "V"; "B"; "N"; "M"; "DELETE"]]%string.

(** ** The first revision at work, and its status timers *)

(** Concrete sessions of the first revision. *)
Module LegacyExamples.
Import Legacy.

Definition isWord : string → bool := Session.IsWord Examples.dict.

(** db.json can be read and written, and CRANE is the word drawn. *)
Definition fine : env := mkEnv true true "CRANE".

(** db.json cannot be read. *)
Definition unreadable : env := mkEnv false true "CRANE".

(** The world an event leaves, the same world if its handling panics. *)
Definition then_ {A} (w : world) (r : result (A * world)) : world :=
  match r with
  | Done (_, w') => w'
  | Panic _ => w
  end.

(** A session started where there is no db.json yet. *)
Definition started : world :=
  then_ (mkWorld zero_model None) (Init fine (mkWorld zero_model None)).

(** The statistics after one game, won with the first guess. *)
Definition one_win : db := mkDb [0; 1; 0; 0; 0; 0; 0].

(** ... after another process has recorded that game in db.json. *)
Definition overtaken : world := mkWorld (mdl started) (Some one_win).

End LegacyExamples.

(** The grid as the first revision shows it. *)
Module LegacyView.
Import Legacy.

(** [viewGridRowEmpty] renders an empty grid row; if the grid is locked, the
    keys are grayed out. *)
Definition viewGridRowEmpty (m : model) : list key_view :=
  let keyState := if gameOver m then keyStateAbsent else keyStateUnselected in
  replicate (Z.to_nat numChars) (viewKey " " (color keyState)).

(** [viewGrid] renders the grid; [viewGridRowFilled] and
    [viewGridRowCurrent] are those of the later revision, word for word. *)
Definition viewGrid (m : model) : list (list key_view) :=
  (λ i : nat,
     if decide (Z.of_nat i < gridRow m)
     then viewGridRowFilled (word m) (grid m !!! i)
     else if decide (Z.of_nat i = gridRow m ∧ gameOver m = false)
          then Session.viewGridRowCurrent (grid m !!! i) (gridCol m)
          else viewGridRowEmpty m) <$> upto numGuesses.

End LegacyView.

(** The status resets of the first revision, in time.  [setStatus] is called
    with one second (a guess that is rejected) and, by [reportError], with
    three seconds, so the resets of a session need not expire in the order
    they were scheduled: each has the time at which it is due. *)
Module Timed.
Import Legacy.

(** What the runtime sends back for a command: [tea.Quit] ends the program,
    [tea.Tick] sends [msgResetStatus] after its duration, and
    [tea.Sequentially] runs its commands in order and sends the first
    message one of them returns. *)
Inductive sent : Type :=
  | SentQuit
  | SentReset (delay : Z).

Fixpoint sends (c : Cmd) : option sent :=
  match c with
  | CmdNil => None
  | Quit => Some SentQuit
  | Tick duration => Some (SentReset duration)
  | Sequentially first second =>
      match sends first with
      | Some m => Some m
      | None => sends second
      end
  end.

(** What a command does to the count of pending resets, which is [before]
    when the message arrives and [after] when it has been handled: one more
    if the command sends a reset, the same otherwise. *)
Definition counted (c : Cmd) (before after : Z) : Prop :=
  after = match sends c with
          | Some (SentReset _) => int_incr before
          | _ => before
          end.

(** A status reset that is scheduled: its rank among the resets the session
    has scheduled, and the time at which it is due, in nanoseconds since the
    program started. *)
Record timer : Type := mkTimer {
  rank : nat;
  due : Z;
}.

(** A session: its model and db.json, the time of the last message it
    handled, the resets scheduled and not yet fired, in the order they were
    scheduled, and the number of resets scheduled so far. *)
Record session : Type := mkSession {
  s_world : world;
  s_now : Z;
  s_timers : list timer;
  s_scheduled : nat;
}.

(** The session after a message handled at the time [now] has left the world
    [w] and returned the command [c]. *)
Definition after (c : Cmd) (w : world) (now : Z) (timers : list timer)
    (scheduled : nat) : session :=
  match sends c with
  | Some (SentReset delay) =>
      mkSession w now (timers ++ [mkTimer scheduled (now + delay)]) (S scheduled)
  | _ => mkSession w now timers scheduled
  end.

Section steps.
Variable isWord : string → bool.

(** What can happen next: a key press, a resize or any other message arrives
    at a time at which no pending reset is overdue; a pending reset fires,
    one that is due no later than any other; another process rewrites
    db.json. *)
Inductive step : session → session → Prop :=
  | step_event (s : session) (msg : Msg) (t : Z) (e : env) (c : Cmd) (w : world) :
      msg ≠ msgResetStatus →
      s_now s <= t →
      Forall (λ tm, t <= due tm) (s_timers s) →
      Update isWord msg e (s_world s) = Done (c, w) →
      step s (after c w t (s_timers s) (s_scheduled s))
  | step_timer (s : session) (before : list timer) (tm : timer) (rest : list timer)
        (e : env) (c : Cmd) (w : world) :
      s_timers s = before ++ tm :: rest →
      Forall (λ tm', due tm <= due tm') (s_timers s) →
      Update isWord msgResetStatus e (s_world s) = Done (c, w) →
      step s (after c w (due tm) (before ++ rest) (s_scheduled s))
  | step_file (s : session) (f : option db) :
      step s (mkSession (mkWorld (mdl (s_world s)) f) (s_now s) (s_timers s)
                (s_scheduled s)).

(** The sessions that arise: the program starts at time 0 with [Init] on the
    zero model. *)
Inductive reachable : session → Prop :=
  | reachable_Init (width height : Z) (f : option db) (e : env) (c : Cmd) (w : world) :
      Init e (mkWorld (set_height height (set_width width zero_model)) f)
      = Done (c, w) →
      reachable (after c w 0 [] 0)
  | reachable_step (s s' : session) :
      reachable s → step s s' → reachable s'.

(** What a reachable session keeps true of its status resets:
    [statusPending] counts those still pending. *)
Definition pending_ok (s : session) : Prop :=
  statusPending (mdl (s_world s)) = int_wrap (Z.of_nat (length (s_timers s))).

End steps.

End Timed.

(** *** A three-second status followed by a one-second status *)

Module Mixed.
Import Legacy Timed LegacyExamples.

Definition enter : Msg := KeyMsg KeyEnter [].

(** The program starts and cannot read db.json: "Error loading database."
    for three seconds. *)
Definition failed : session :=
  let w := mkWorld zero_model None in
  match Init unreadable w with
  | Done (c, w') => after c w' 0 [] 0
  | Panic _ => mkSession w 0 [] 0
  end.

(** The session [s] after the message [msg] at the time [t]. *)
Definition press (s : session) (msg : Msg) (t : Z) : session :=
  match Update isWord msg fine (s_world s) with
  | Done (c, w') => after c w' t (s_timers s) (s_scheduled s)
  | Panic _ => s
  end.

(** The session [s] after its pending reset of rank [k] has fired. *)
Definition fire (s : session) (k : nat) : session :=
  match filter (λ tm, rank tm = k) (s_timers s),
        Update isWord msgResetStatus fine (s_world s) with
  | tm :: _, Done (c, w') =>
      after c w' (due tm) (filter (λ tm', rank tm' ≠ k) (s_timers s)) (s_scheduled s)
  | _, _ => s
  end.

(** One second later Enter is pressed on the empty row: "Your guess must be
    a 5-letter word." for one second. *)
Definition both_pending : session := press failed enter (1 * Second).

(** At two seconds the reset of the second status fires, *)
Definition first_fired : session := fire both_pending 1.

(** and at three seconds the reset of the first. *)
Definition second_fired : session := fire first_fired 0.

End Mixed.

(** *** Two one-second statuses in the later revision *)

(** The session of [Examples.warned] after Enter has been pressed on the
    incomplete row once more: two status resets are pending. *)
Definition warned_twice : Session.world :=
  Examples.press Examples.fine Examples.warned Examples.enter.

Definition warned_twice_session : System.session :=
  System.mkSession (Session.mdl warned_twice) [0%nat; 1%nat] 2 (Session.trace warned_twice).

Definition warned_twice_system : System.system :=
  System.mkSystem [warned_twice_session] (Session.db warned_twice).

(** ... after the first of the two resets has fired. *)
Definition one_left : Session.world :=
  Examples.press Examples.fine warned_twice msgResetStatus.

Definition one_left_session : System.session :=
  System.mkSession (Session.mdl one_left) [1%nat] 2 (Session.trace one_left).

Definition one_left_system : System.system :=
  System.mkSystem [one_left_session] (Session.db one_left).

(** * Proofs *)

(** ** Loops over an index range *)

Lemma foldl_seq_invariant {S : Type} (I : nat → S → Prop) (f : S → nat → S)
    (s0 : S) (n : nat) :
  I 0%nat s0 →
  (∀ k s, (k < n)%nat → I k s → I (Datatypes.S k) (f s k)) →
  I n (foldl f s0 (seq 0 n)).
Proof.
  intros H0 Hstep.
  assert (Hgen : ∀ m a s, (a + m = n)%nat → I a s → I n (foldl f s (seq a m))).
  { induction m as [|m IH]; intros a s Ha Hs; simpl.
    - replace n with a by lia. exact Hs.
    - apply IH; [lia|]. apply Hstep; [lia|exact Hs]. }
  apply Hgen; [lia|exact H0].
Qed.

Lemma foldl_related {S T X : Type} (R : S → T → Prop) (f : S → X → S)
    (g : T → X → T) (l : list X) :
  ∀ s t, R s t →
  (∀ s t x, x ∈ l → R s t → R (f s x) (g t x)) →
  R (foldl f s l) (foldl g t l).
Proof.
  induction l as [|x l IH]; intros s t Hst Hstep; simpl; [exact Hst|].
  apply IH.
  - apply Hstep; [left|exact Hst].
  - intros s' t' y Hy. apply Hstep. by right.
Qed.

(** Overwriting one cell changes a filtered count by what leaves and what
    enters. *)
Lemma filter_insert_length {A : Type} (P : A → Prop) `{!∀ x, Decision (P x)}
    (l : list A) (i : nat) (x y : A) :
  l !! i = Some y →
  (length (filter P (<[i:=x]> l)) + (if decide (P y) then 1 else 0)
   = length (filter P l) + (if decide (P x) then 1 else 0))%nat.
Proof.
  revert i. induction l as [|a l IH]; intros [|i] Hi; simplify_eq/=.
  - rewrite !filter_cons. repeat case_decide; simpl; lia.
  - specialize (IH i Hi). rewrite !filter_cons.
    destruct (decide (P a)); simpl; lia.
Qed.

Lemma zip_insert_r {A B : Type} (l : list A) (k : list B) (i : nat) (a : A) (b : B) :
  l !! i = Some a → zip l (<[i:=b]> k) = <[i:=(a, b)]> (zip l k).
Proof.
  revert k i. induction l as [|x l IH]; intros [|y k] [|i] Hi; simplify_eq/=; try done.
  f_equal. by apply IH.
Qed.

(** ** bytes.IndexByte *)

Lemma IndexByte_lower (b : list byte) (c : byte) : -1 <= IndexByte b c.
Proof.
  induction b as [|x b IH]; simpl; [lia|].
  repeat case_decide; lia.
Qed.

Lemma IndexByte_found (b : list byte) (c : byte) :
  IndexByte b c ≠ -1 →
  0 <= IndexByte b c ∧ b !! Z.to_nat (IndexByte b c) = Some c.
Proof.
  induction b as [|x b IH]; simpl; [done|].
  case_decide as Hx; [by subst|].
  case_decide as Hr; [done|]. intros _.
  destruct (IH Hr) as [Hge Hlk]. split; [lia|].
  replace (Z.to_nat (IndexByte b c + 1)) with (S (Z.to_nat (IndexByte b c))) by lia.
  exact Hlk.
Qed.

Lemma IndexByte_absent (b : list byte) (c : byte) :
  IndexByte b c = -1 → c ∉ b.
Proof.
  induction b as [|x b IH]; simpl; [intros _; apply not_elem_of_nil|].
  case_decide as Hx; [done|].
  case_decide as Hr; [|pose proof (IndexByte_lower b c); lia].
  intros _. rewrite not_elem_of_cons. split; [congruence|auto].
Qed.

(** ** Counting marked positions *)

Lemma marked_insert (P : keyState → bool) (c g : byte) (guess : list byte)
    (ks : list keyState) (i : nat) (s s' : keyState) :
  guess !! i = Some g → ks !! i = Some s →
  (marked P c guess (<[i:=s']> ks) + Nat.b2n (bool_decide (g = c) && P s)
   = marked P c guess ks + Nat.b2n (bool_decide (g = c) && P s'))%nat.
Proof.
  intros Hg Hs. unfold marked. rewrite (zip_insert_r _ _ _ g) by done.
  assert (Hz : zip guess ks !! i = Some (g, s)).
  { apply lookup_zip_with_Some. by exists g, s. }
  pose proof (filter_insert_length (λ p, p.1 = c ∧ P p.2 = true) _ _ (g, s') _ Hz) as H.
  cbn [fst snd] in H.
  destruct (P s), (P s'); repeat case_bool_decide; repeat case_decide;
    cbn [Nat.b2n andb]; first [lia | exfalso; intuition congruence].
Qed.

Lemma count_insert (c x y : byte) (l : list byte) (i : nat) :
  l !! i = Some y →
  (count c (<[i:=x]> l) + Nat.b2n (bool_decide (y = c))
   = count c l + Nat.b2n (bool_decide (x = c)))%nat.
Proof.
  intros Hi. unfold count.
  pose proof (filter_insert_length (λ z, z = c) _ _ x _ Hi) as H.
  repeat case_bool_decide; repeat case_decide;
    cbn [Nat.b2n]; first [lia | exfalso; intuition congruence].
Qed.

(** Closes a counting goal once the insertion lemmas are in the context. *)
Ltac count_cases :=
  repeat case_bool_decide; cbn [Nat.b2n andb orb] in *;
  first [lia | exfalso; intuition congruence].

Lemma marked_hit_split (c : byte) (guess : list byte) (ks : list keyState) :
  marked isHit c guess ks
  = (marked isCorrect c guess ks + marked isPresent c guess ks)%nat.
Proof.
  unfold marked. induction (zip guess ks) as [|[g s] l IH]; [done|].
  rewrite !filter_cons. simpl.
  destruct s; unfold isHit, isCorrect, isPresent in *; simpl;
    repeat case_decide; simpl; try lia; naive_solver.
Qed.

Lemma marked_all_absent (P : keyState → bool) (c : byte) (guess : list byte)
    (n : nat) :
  P keyStateAbsent = false → marked P c guess (replicate n keyStateAbsent) = 0%nat.
Proof.
  intros HP. unfold marked. revert n.
  induction guess as [|g w IH]; intros [|n]; simpl; try done.
  rewrite filter_cons. simpl. case_decide as H; [destruct H; congruence|]. apply IH.
Qed.

Lemma markAbsent_all :
  foldl markAbsent (replicate (Z.to_nat numChars) keyStateUnselected) (upto numChars)
  = replicate (Z.to_nat numChars) keyStateAbsent.
Proof. reflexivity. Qed.

(** ** The two passes of the evaluator *)

Section evaluator.
Variables answer word : list byte.
Hypothesis answer_length : length answer = Z.to_nat numChars.
Hypothesis word_length : length word = Z.to_nat numChars.

Lemma pass1_inv_init :
  pass1_inv answer word 0 (replicate (Z.to_nat numChars) keyStateAbsent, answer).
Proof.
  unfold pass1_inv; cbn [fst snd]. split_and!; try done.
  - intros i Hi; lia.
  - intros c _. by rewrite marked_all_absent.
Qed.

Lemma pass1_inv_step (k : nat) (st : eval_state) :
  (k < Z.to_nat numChars)%nat →
  pass1_inv answer word k st → pass1_inv answer word (S k) (markCorrect answer word st k).
Proof.
  intros Hk (Hl1 & Hl2 & Hrest & Hdone & Hcnt). unfold markCorrect.
  destruct (Hrest k ltac:(lia)) as [Hks Hlet].
  rewrite lookup_replicate_2 in Hks by done.
  pose proof (list_lookup_lookup_total_lt word k ltac:(lia)) as Hw.
  pose proof (list_lookup_lookup_total_lt answer k ltac:(lia)) as Ha.
  case_decide as Heq; unfold pass1_inv; cbn [fst snd].
  - split_and!.
    + by rewrite length_insert.
    + by rewrite length_insert.
    + intros i Hi. rewrite !list_lookup_insert_ne by lia. apply Hrest; lia.
    + intros i Hi. destruct (decide (i = k)) as [->|Hne].
      * rewrite list_lookup_total_insert_eq by lia. by rewrite decide_True.
      * rewrite list_lookup_total_insert_ne by done. apply Hdone; lia.
    + intros c Hc. specialize (Hcnt c Hc).
      pose proof (marked_insert isHit c _ word st.1 k _ keyStateCorrect Hw Hks) as Hm.
      rewrite Ha in Hlet.
      pose proof (count_insert c byte0 _ st.2 k Hlet) as Hn.
      change (isHit keyStateAbsent) with false in Hm.
      change (isHit keyStateCorrect) with true in Hm.
      rewrite Heq in Hm. clear -Hcnt Hc Hm Hn. count_cases.
  - split_and!; try done.
    + intros i Hi. apply Hrest; lia.
    + intros i Hi. destruct (decide (i = k)) as [->|Hne].
      * rewrite decide_False by done.
        by apply list_lookup_total_correct.
      * apply Hdone; lia.
Qed.

Lemma pass1_inv_final :
  pass1_inv answer word (Z.to_nat numChars)
    (foldl (markCorrect answer word)
       (replicate (Z.to_nat numChars) keyStateAbsent, answer) (upto numChars)).
Proof.
  apply (foldl_seq_invariant (pass1_inv answer word)); [apply pass1_inv_init|].
  intros k s Hk. by apply pass1_inv_step.
Qed.

Lemma pass2_inv_init (st : eval_state) :
  pass1_inv answer word (Z.to_nat numChars) st → pass2_inv answer word 0 st.
Proof.
  intros (Hl1 & Hl2 & _ & Hdone & Hcnt). split_and!; try done.
  - intros i _. destruct (decide (i < Z.to_nat numChars)%nat) as [Hi|Hi].
    + rewrite Hdone by done. by case_decide.
    + rewrite list_lookup_total_alt, lookup_ge_None_2 by lia. done.
  - intros i Hi. rewrite Hdone by done. by case_decide.
Qed.

Lemma pass2_inv_step (k : nat) (st : eval_state) :
  (k < Z.to_nat numChars)%nat →
  pass2_inv answer word k st → pass2_inv answer word (S k) (markPresent word st k).
Proof.
  intros Hk (Hl1 & Hl2 & Hrest & Hcor & Hcnt). unfold markPresent.
  case_decide as Hc; [|case_decide as Hf]; unfold pass2_inv; cbn [fst snd].
  - split_and!; try done. intros i Hi. apply Hrest; lia.
  - destruct (IndexByte_found _ _ Hf) as [Hge Hlk].
    pose proof (lookup_lt_Some _ _ _ Hlk) as Hj.
    pose proof (list_lookup_lookup_total_lt word k ltac:(lia)) as Hw.
    pose proof (list_lookup_lookup_total_lt st.1 k ltac:(lia)) as Hs.
    split_and!.
    + by rewrite length_insert.
    + by rewrite length_insert.
    + intros i Hi. rewrite list_lookup_total_insert_ne by lia. apply Hrest; lia.
    + intros i Hi. destruct (decide (i = k)) as [->|Hne].
      * rewrite list_lookup_total_insert_eq by lia. rewrite <- Hcor by done.
        split; [done|]. intros; congruence.
      * rewrite list_lookup_total_insert_ne by done. by apply Hcor.
    + intros c Hc0. specialize (Hcnt c Hc0).
      pose proof (marked_insert isHit c _ word st.1 k _ keyStatePresent Hw Hs) as Hm.
      pose proof (count_insert c byte0 _ st.2 _ Hlk) as Hn.
      pose proof (Hrest k ltac:(lia)) as Hnp.
      change (isHit keyStatePresent) with true in Hm.
      assert (isHit (st.1 !!! k) = false) as Hh
        by (destruct (st.1 !!! k); done).
      rewrite Hh in Hm. clear -Hcnt Hc0 Hm Hn. count_cases.
  - split_and!; try done. intros i Hi.
    destruct (decide (i = k)) as [->|Hne]; [|apply Hrest; lia].
    apply Hrest; lia.
Qed.

Lemma pass2_inv_final :
  pass2_inv answer word (Z.to_nat numChars)
    (foldl (markPresent word)
       (foldl (markCorrect answer word)
          (replicate (Z.to_nat numChars) keyStateAbsent, answer) (upto numChars))
       (upto numChars)).
Proof.
  apply (foldl_seq_invariant (pass2_inv answer word)).
  - apply pass2_inv_init, pass1_inv_final.
  - intros k s Hk. by apply pass2_inv_step.
Qed.

End evaluator.

(** ** The evaluator against the specification's two passes *)

Lemma hide_nothing (answer : list byte) :
  hide answer (replicate (length answer) false) = answer.
Proof. unfold hide. induction answer as [|a l IH]; simpl; [done|]. by rewrite IH. Qed.

Lemma hide_insert (answer : list byte) (consumed : list bool) (i : nat) :
  <[i:=byte0]> (hide answer consumed) = hide answer (<[i:=true]> consumed).
Proof.
  revert consumed i.
  induction answer as [|a l IH]; intros [|u consumed] [|i]; simpl; try done.
  f_equal. apply IH.
Qed.

Lemma IndexByte_hide (answer : list byte) (consumed : list bool) (c : byte) :
  c ≠ byte0 →
  IndexByte (hide answer consumed) c
  = match spec_first_unconsumed answer consumed c with
    | Some j => Z.of_nat j
    | None => -1
    end.
Proof.
  intros Hc. revert consumed.
  induction answer as [|a l IH]; intros [|u consumed]; simpl; try done.
  fold (hide l consumed). rewrite IH.
  destruct u; repeat case_decide; try (exfalso; intuition congruence);
    destruct (spec_first_unconsumed l consumed c); simpl in *; try done; lia.
Qed.

Section refinement.
Variables answer guess : list byte.
Hypothesis answer_length : length answer = Z.to_nat numChars.
Hypothesis guess_letters : byte0 ∉ guess.
Hypothesis guess_length : length guess = Z.to_nat numChars.

Lemma same_story_pass1 st sp i :
  same_story answer st sp →
  same_story answer (markCorrect answer guess st i) (spec_pass1 answer guess sp i).
Proof.
  intros [H1 H2]. unfold markCorrect, spec_pass1, same_story.
  case_decide; cbn [fst snd]; [|done].
  by rewrite H1, H2, hide_insert.
Qed.

Lemma same_story_pass2 st sp i :
  i ∈ upto numChars →
  same_story answer st sp →
  same_story answer (markPresent guess st i) (spec_pass2 answer guess sp i).
Proof.
  intros Hi [H1 H2]. unfold markPresent, spec_pass2, same_story.
  rewrite <- H1. case_decide; [done|].
  assert (guess !!! i ≠ byte0) as Hg.
  { intros Hz. apply guess_letters. rewrite <- Hz.
    apply list_elem_of_lookup_total_2. apply elem_of_seq in Hi. lia. }
  rewrite H2, (IndexByte_hide _ _ _ Hg).
  destruct (spec_first_unconsumed answer sp.2 (guess !!! i)) as [j|]; cbn [fst snd].
  - rewrite decide_True by lia. rewrite Nat2Z.id. by rewrite hide_insert, H1.
  - by rewrite decide_False by lia.
Qed.

Lemma gridRowKeyStates_spec :
  gridRowKeyStates answer guess = spec_Evaluate answer guess.
Proof.
  unfold gridRowKeyStates, spec_Evaluate. rewrite markAbsent_all.
  rewrite answer_length. fold (upto numChars).
  apply (foldl_related (same_story answer)).
  - apply (foldl_related (same_story answer)).
    + split; [done|]. cbn [fst snd]. by rewrite <- answer_length, hide_nothing.
    + intros ??? _. apply same_story_pass1.
  - intros. by apply same_story_pass2.
Qed.

End refinement.

(** ** The evaluator: duplicate letters and the worked example *)

(** C2.  For an answer and a guess of five bytes and every letter [c] (every
    byte but the zero byte, which is no letter), the evaluation of the guess
    marks at most [count c answer] of the positions holding [c] as Correct or
    Present; the positions marked Present are at most the occurrences of [c]
    the exact matches left unconsumed; and a position is Correct exactly when
    guess and answer agree there, so an exact match takes its answer letter
    before pass 2 can hand it to another position. *)
Theorem evaluate_never_overcounts (answer guess : list byte) (c : byte) :
  length answer = 5%nat → length guess = 5%nat → c ≠ byte0 →
  (marked isHit c guess (gridRowKeyStates answer guess) ≤ count c answer)%nat ∧
  (marked isPresent c guess (gridRowKeyStates answer guess)
   ≤ count c answer - marked isCorrect c guess (gridRowKeyStates answer guess))%nat ∧
  (∀ i, (i < 5)%nat →
        gridRowKeyStates answer guess !!! i = keyStateCorrect
        ↔ guess !!! i = answer !!! i).
Proof.
  intros Ha Hg Hc.
  destruct (pass2_inv_final answer guess Ha Hg) as (_ & _ & _ & Hcor & Hcnt).
  unfold gridRowKeyStates. rewrite markAbsent_all.
  specialize (Hcnt c Hc). rewrite marked_hit_split in *.
  split_and!; [lia|lia|exact Hcor].
Qed.

Lemma evaluate_never_overcounts_witness :
  (marked isHit "E" (bytes "ERASE") (gridRowKeyStates (bytes "SPEED") (bytes "ERASE"))
   ≤ count "E" (bytes "SPEED"))%nat.
Proof.
  refine (proj1 (evaluate_never_overcounts (bytes "SPEED") (bytes "ERASE") "E" _ _ _));
    [reflexivity | reflexivity | discriminate].
Defined.

(** The zero byte is the evaluator's "consumed" mark, so the bound of C2 is
    about letters only: a zero byte in a guess is Present whenever some answer
    letter has been consumed. *)
Example zero_byte_is_not_a_letter :
  let guess := ["A"; byte0; byte0; "D"; "E"]%char in
  marked isHit byte0 guess (gridRowKeyStates (bytes "ABCDE") guess) = 2%nat
  ∧ count byte0 (bytes "ABCDE") = 0%nat.
Proof. split; reflexivity. Qed.

(** C3.  On every answer and every guess of five letters the evaluator
    computes what the two passes of the specification compute (pass 1: exact
    positions are Correct and consume their answer letter; pass 2, left to
    right: a remaining position is Present iff its letter occurs among the
    unconsumed answer letters, and consumes the first such occurrence); and
    for the answer SPEED the guess ERASE is classified Present, Absent,
    Absent, Present, Present. *)
Theorem evaluate_two_pass :
  (∀ answer guess : list byte,
      length answer = 5%nat → length guess = 5%nat → byte0 ∉ guess →
      gridRowKeyStates answer guess = spec_Evaluate answer guess) ∧
  gridRowKeyStates (bytes "SPEED") (bytes "ERASE")
  = [keyStatePresent; keyStateAbsent; keyStateAbsent; keyStatePresent; keyStatePresent].
Proof.
  split; [|reflexivity].
  intros answer guess Ha Hg H0. by apply gridRowKeyStates_spec.
Qed.

Lemma evaluate_two_pass_witness :
  gridRowKeyStates (bytes "CRANE") (bytes "CRATE")
  = spec_Evaluate (bytes "CRANE") (bytes "CRATE").
Proof.
  refine (proj1 evaluate_two_pass (bytes "CRANE") (bytes "CRATE") _ _ _);
    [reflexivity | reflexivity | ].
  intros H. repeat (apply elem_of_cons in H as [H|H]; [discriminate H|]).
  by apply elem_of_nil in H.
Defined.

(** [Evaluate(A, A)] is all Correct. *)
Lemma evaluate_self (answer : list byte) (i : nat) :
  length answer = 5%nat → (i < 5)%nat →
  gridRowKeyStates answer answer !!! i = keyStateCorrect.
Proof.
  intros Ha Hi.
  destruct (pass2_inv_final answer answer Ha Ha) as (_ & _ & _ & Hcor & _).
  unfold gridRowKeyStates. rewrite markAbsent_all. by apply Hcor.
Qed.

(** ** The score ledger *)

Section ledger.
Import store.

Lemma SUM_app (l k : list Z) : SUM (l ++ k) = SUM l + SUM k.
Proof. unfold SUM. induction l as [|x l IH]; simpl; lia. Qed.

Lemma GetTotalScore_groups (t : Tables) :
  score_value (GetTotalScore t) = SUM_of_groups (joined_rows t).
Proof.
  unfold GetTotalScore, game_scores, SUM_of_groups.
  destruct (remove_dups (group_key <$> joined_rows t)) as [|id ids]; [done|].
  cbn [fmap list_fmap score_value default]. by rewrite <- list_fmap_compose.
Qed.

Lemma joined_rows_games (t : Tables) : joined_rows t = game t ≫= rows_of t.
Proof. reflexivity. Qed.

Lemma length_product {A B C : Type} (f : A → B → C) (l : list A) (k : list B) :
  length (l ≫= λ a, k ≫= λ b, [f a b]) = (length l * length k)%nat.
Proof.
  induction l as [|a l IH]; [done|].
  rewrite bind_cons, length_app, IH. simpl. f_equal.
  clear. induction k as [|b k IH]; [done|]. rewrite bind_cons. simpl. by rewrite IH.
Qed.

(** When nothing before the last element satisfies [P], only the last
    element can pass the filter. *)
Lemma filter_last_only {A : Type} (P : A → Prop) `{!∀ x, Decision (P x)}
    (l : list A) :
  Forall (λ x, ¬ P x) (take (length l - 1) l) →
  filter P l = match last l with
               | Some x => if decide (P x) then [x] else []
               | None => []
               end.
Proof.
  destruct l as [|y l'] using rev_ind; [done|]. clear IHl'. intros HF.
  rewrite length_app in HF. simpl in HF.
  replace (length l' + 1 - 1)%nat with (length l') in HF by lia.
  rewrite take_app_length in HF.
  rewrite filter_app, last_snoc, filter_cons, filter_nil.
  assert (filter P l' = []) as ->; [|done].
  clear -HF. induction HF as [|x l Hx _ IH]; [done|].
  by rewrite filter_cons_False.
Qed.

Lemma on_guess_spec (g : Game) (x : Guess) :
  on_guess g x ↔ guess_GameID x = Some (game_ID g).
Proof.
  unfold on_guess, sql_eq. destruct (guess_GameID x); [|done].
  rewrite bool_decide_eq_true. naive_solver.
Qed.

Lemma guesses_joined (t : Tables) (g : Game) :
  filter (on_guess g) (guess t) = guesses_of t g.
Proof. apply list_filter_iff. intros x. apply on_guess_spec. Qed.

Lemma victories_joined (t : Tables) (g : Game) :
  filter (on_victory g) (guess t)
  = filter (λ x, sql_eq (game_Answer g) (guess_Guess x) = true) (guesses_of t g).
Proof.
  unfold guesses_of. rewrite list_filter_filter. apply list_filter_iff.
  intros x. unfold on_victory. fold (on_guess g x). rewrite on_guess_spec. tauto.
Qed.

(** A well-formed game has as many joined rows as guesses when it is won,
    and none otherwise. *)
Lemma rows_of_length (t : Tables) (g : Game) :
  game_wf t g →
  length (rows_of t g)
  = if spec_is_win t g then length (guesses_of t g) else 0%nat.
Proof.
  intros Hwf. unfold rows_of. rewrite length_product, guesses_joined, victories_joined.
  rewrite filter_last_only.
  - unfold spec_is_win. destruct (last (guesses_of t g)) as [x|]; [|done].
    case_decide as Hx; [rewrite Hx; simpl; lia|].
    apply not_true_is_false in Hx. by rewrite Hx.
  - eapply Forall_impl; [exact Hwf|]. intros x Hx. simpl in Hx. by rewrite Hx.
Qed.

Lemma rows_of_key (t : Tables) (g : Game) :
  Forall (λ r, group_key r = game_ID g) (rows_of t g).
Proof.
  unfold rows_of. apply Forall_forall. intros r Hr.
  apply list_elem_of_bind in Hr as (v & Hr & _).
  apply list_elem_of_bind in Hr as (x & Hr & _).
  apply list_elem_of_singleton in Hr. by subst.
Qed.

Lemma rows_of_contribution (t : Tables) (g : Game) :
  game_wf t g →
  (if decide (rows_of t g = []) then 0
   else 10 * (11 - Z.of_nat (length (rows_of t g))))
  = spec_contribution t g.
Proof.
  intros Hwf. pose proof (rows_of_length t g Hwf) as Hlen.
  unfold spec_contribution. unfold spec_is_win in *.
  destruct (last (guesses_of t g)) as [x|] eqn:Hlast.
  - destruct (sql_eq (game_Answer g) (guess_Guess x)).
    + assert (length (guesses_of t g) ≠ 0%nat).
      { intros H0. apply nil_length_inv in H0. by rewrite H0 in Hlast. }
      rewrite decide_False; [lia|].
      intros Hnil. rewrite Hnil in Hlen. simpl in Hlen. lia.
    + rewrite decide_True; [done|]. by apply nil_length_inv.
  - rewrite decide_True; [done|]. by apply nil_length_inv.
Qed.

Lemma COUNT_app (r1 r2 : list (Game * Guess * Guess)) (id : Z) :
  COUNT (r1 ++ r2) id = COUNT r1 id + COUNT r2 id.
Proof. unfold COUNT. rewrite filter_app, length_app. lia. Qed.

Lemma COUNT_all (rows : list (Game * Guess * Guess)) (id : Z) :
  Forall (λ r, group_key r = id) rows → COUNT rows id = Z.of_nat (length rows).
Proof.
  intros H. unfold COUNT. f_equal. f_equal.
  induction H as [|r l Hr _ IH]; [done|]. by rewrite filter_cons_True, IH.
Qed.

Lemma COUNT_none (rows : list (Game * Guess * Guess)) (id : Z) :
  Forall (λ r, group_key r ≠ id) rows → COUNT rows id = 0.
Proof.
  intros H. unfold COUNT.
  induction H as [|r l Hr _ IH]; [done|]. by rewrite filter_cons_False.
Qed.

Lemma remove_dups_same_key (r1 : list (Game * Guess * Guess)) (keys : list Z) (k : Z) :
  r1 ≠ [] → Forall (λ r, group_key r = k) r1 → k ∉ keys →
  remove_dups ((group_key <$> r1) ++ keys) = k :: remove_dups keys.
Proof.
  intros Hne H Hk. induction H as [|r l Hr Hl IH]; [done|].
  cbn [fmap list_fmap app remove_dups]. rewrite Hr.
  destruct l as [|r' l].
  - simpl. by destruct (decide_rel elem_of k keys).
  - destruct (decide_rel elem_of k ((group_key <$> r' :: l) ++ keys)) as [|Hn];
      [by apply IH|].
    exfalso. apply Hn. apply Forall_cons in Hl as [Hr' _].
    rewrite fmap_cons, Hr'. left.
Qed.

(** The groups of one game's rows, put before rows of other games. *)
Lemma SUM_of_groups_app (r1 r2 : list (Game * Guess * Guess)) (k : Z) :
  Forall (λ r, group_key r = k) r1 →
  Forall (λ r, group_key r ≠ k) r2 →
  SUM_of_groups (r1 ++ r2)
  = (if decide (r1 = []) then 0 else 10 * (11 - Z.of_nat (length r1)))
    + SUM_of_groups r2.
Proof.
  intros H1 H2. case_decide as Hnil; [by subst|].
  assert (k ∉ group_key <$> r2) as Hk.
  { intros Hin. apply list_elem_of_fmap in Hin as (r & -> & Hr).
    by eapply Forall_forall in H2. }
  unfold SUM_of_groups. rewrite fmap_app, (remove_dups_same_key _ _ k) by done.
  unfold SUM. cbn [fmap list_fmap foldr].
  rewrite COUNT_app, (COUNT_all r1) by done. rewrite (COUNT_none r2) by done.
  rewrite Z.add_0_r. f_equal. f_equal.
  apply list_fmap_ext. intros i id Hid. rewrite COUNT_app.
  rewrite (COUNT_none r1); [done|].
  eapply Forall_impl; [exact H1|]. intros r Hr. simpl in Hr. rewrite Hr.
  intros ->. apply Hk. apply elem_of_remove_dups. by eapply list_elem_of_lookup_2.
Qed.

Lemma SUM_of_groups_games (t : Tables) (gl : list Game) :
  NoDup (game_ID <$> gl) → Forall (game_wf t) gl →
  SUM_of_groups (gl ≫= rows_of t) = SUM (spec_contribution t <$> gl).
Proof.
  induction gl as [|g gl IH]; intros Hnd Hwf; [done|].
  rewrite fmap_cons in Hnd. apply NoDup_cons in Hnd as [Hg Hnd].
  apply Forall_cons in Hwf as [Hwfg Hwf].
  rewrite bind_cons, (SUM_of_groups_app _ _ (game_ID g)).
  - rewrite rows_of_contribution by done. by rewrite IH.
  - apply rows_of_key.
  - apply Forall_forall. intros r Hr.
    apply list_elem_of_bind in Hr as (g' & Hr & Hg').
    pose proof (rows_of_key t g') as Hk.
    eapply Forall_forall in Hk; [|exact Hr]. rewrite Hk. intros Heq.
    apply Hg. rewrite <- Heq. apply list_elem_of_fmap. eauto.
Qed.

Lemma SUM_filter {A : Type} (b : A → bool) (f : A → Z) (l : list A) :
  SUM ((λ x, if b x then f x else 0) <$> l)
  = SUM (f <$> filter (λ x, b x = true) l).
Proof.
  unfold SUM. induction l as [|x l IH]; [done|].
  rewrite fmap_cons, filter_cons. simpl. rewrite IH.
  destruct (b x); simpl; [done|lia].
Qed.

(** On a ledger that sessions write, GetTotalScore returns the sum of the
    per-game contributions, which is the sum of 100 - 10*(k-1) over the guess
    counts k of the won games. *)
Lemma GetTotalScore_spec (t : Tables) :
  ledger_wf t →
  score_value (GetTotalScore t) = spec_TotalScore t ∧
  spec_TotalScore t = SUM ((λ k, 100 - 10 * (k - 1)) <$> won_guess_counts t).
Proof.
  intros [Hnd Hwf]. split.
  - rewrite GetTotalScore_groups, joined_rows_games.
    by apply SUM_of_groups_games.
  - unfold spec_TotalScore, spec_contribution, won_guess_counts.
    rewrite <- list_fmap_compose.
    apply (SUM_filter (spec_is_win t)
             (λ g, 100 - 10 * (Z.of_nat (length (guesses_of t g)) - 1))).
Qed.

End ledger.

(** Table contents that no session writes: with the answer of
    a game recorded twice, the join counts four rows for its two guesses. *)
Example doubled_ledger_total :
  ¬ store.ledger_wf doubled_ledger
  ∧ store.GetTotalScore doubled_ledger = Some 70
  ∧ store.spec_TotalScore doubled_ledger = 90.
Proof.
  split_and!; [|reflexivity|reflexivity].
  apply (bool_decide_eq_false_1 _). reflexivity.
Qed.

(** ** Machine integers *)

Lemma int_wrap_small (z : Z) : - 2 ^ 63 <= z < 2 ^ 63 → int_wrap z = z.
Proof.
  intros Hz. unfold int_wrap.
  rewrite Z.mod_small by lia. lia.
Qed.

Lemma int_incr_small (z : Z) : - 2 ^ 63 <= z < 2 ^ 63 - 1 → int_incr z = z + 1.
Proof. intros Hz. unfold int_incr. apply int_wrap_small. lia. Qed.

Lemma int_decr_small (z : Z) : - 2 ^ 63 < z < 2 ^ 63 → int_decr z = z - 1.
Proof. intros Hz. unfold int_decr. apply int_wrap_small. lia. Qed.

Lemma index_Done {A : Type} (a : list A) (i : Z) (x : A) :
  0 <= i → a !! Z.to_nat i = Some x → index a i = Done x.
Proof. intros Hi Hx. unfold index. rewrite decide_True by done. by rewrite Hx. Qed.

Lemma index_in_range {A : Type} (a : list A) (i : Z) :
  0 <= i < Z.of_nat (length a) → ∃ x, a !! Z.to_nat i = Some x ∧ index a i = Done x.
Proof.
  intros Hi. destruct (lookup_lt_is_Some_2 a (Z.to_nat i)) as [x Hx]; [lia|].
  exists x. split; [done|]. apply index_Done; [lia|done].
Qed.

(** ** The session's methods, one at a time *)

Section session.
Import Session System.
Variable dict : Dictionary.

(** Unfolds the plumbing of [M]. *)
Ltac run :=
  unfold mbind, M_bind, mret, M_ret, get, tables, ask, modify, write, record,
    lift in *;
  cbn beta iota zeta delta [mdl db trace] in *.

Lemma resetStatus_run (e : env) (w : world) :
  resetStatus e w
  = Done ((), mkWorld (set_status ("Score: " +:+ pretty (score (mdl w))) (mdl w))
                (db w) (trace w)).
Proof. reflexivity. Qed.

Lemma setStatus_timed (msg : string) (d : Z) (e : env) (w : world) :
  d > 0 →
  setStatus msg d e w
  = Done (Tick d,
          mkWorld (set_statusPending (int_incr (statusPending (mdl w)))
                     (set_status msg (mdl w)))
            (db w) (trace w)).
Proof. intros Hd. unfold setStatus. run. by rewrite decide_True. Qed.

Lemma setStatus_permanent (msg : string) (e : env) (w : world) :
  setStatus msg 0 e w = Done (CmdNil, mkWorld (set_status msg (mdl w)) (db w) (trace w)).
Proof. reflexivity. Qed.

Lemma updateScore_run (e : env) (w : world) :
  updateScore e w
  = Done ((), mkWorld
                (if getTotalScoreOk e
                 then set_score (store.score_value (store.GetTotalScore (db w))) (mdl w)
                 else mdl w)
                (db w) (trace w ++ [CallGetTotalScore (getTotalScoreOk e)])).
Proof. unfold updateScore. run. by destruct (getTotalScoreOk e). Qed.

(** [saveGuess], case by case. *)
Lemma saveGuess_run (guess : string) (e : env) (w : world) :
  saveGuess guess e w
  = let m := mdl w in
    let ans := Some (string_of_list_ascii (answer m)) in
    if decide (gameID m = 0) then
      if createGameOk e then
        let id := store.game_ID (store.CreateGame (db w) ans).1 in
        let t := (store.CreateGame (db w) ans).2 in
        Done (createGuessOk e,
              mkWorld (set_gameID id m)
                (if createGuessOk e
                 then (store.CreateGuess t (Some id) (Some guess)).2 else t)
                (trace w ++ [CallCreateGame ans (Some id)]
                   ++ [CallCreateGuess (Some id) (Some guess) (createGuessOk e)]))
      else
        Done (false, mkWorld m (db w) (trace w ++ [CallCreateGame ans None]))
    else
      Done (createGuessOk e,
            mkWorld m
              (if createGuessOk e
               then (store.CreateGuess (db w) (Some (gameID m)) (Some guess)).2
               else db w)
              (trace w ++ [CallCreateGuess (Some (gameID m)) (Some guess) (createGuessOk e)])).
Proof.
  unfold saveGuess. run. destruct w as [m t tr]. cbn [mdl db trace].
  case_decide; [destruct (createGameOk e)|]; cbn;
    destruct (createGuessOk e); cbn; rewrite <- ?(assoc_L (++)); try done.
  all: by destruct m.
Qed.

(** The loop of [doAcceptGuess] leaves [success] set exactly when the guess
    is the answer. *)
Lemma acceptKey_success (answer guess : list byte) (ks : gmap byte keyState) :
  length answer = Z.to_nat numChars → length guess = Z.to_nat numChars →
  (foldl (acceptKey answer guess) (true, ks) (upto numChars)).1
  = bool_decide (guess = answer).
Proof.
  intros Ha Hg.
  assert (Hinv : let st := foldl (acceptKey answer guess) (true, ks) (upto numChars) in
                 st.1 = true ↔
                 ∀ i, (i < Z.to_nat numChars)%nat → guess !!! i = answer !!! i).
  { apply (foldl_seq_invariant
             (λ k st, st.1 = true ↔ ∀ i, (i < k)%nat → guess !!! i = answer !!! i)).
    - split; [intros _ i Hi; lia|done].
    - intros k [b m] Hk IH. unfold acceptKey. cbn [fst snd] in *.
      case_decide as Heq; cbn [fst snd].
      + rewrite IH. split; intros H i Hi.
        * destruct (decide (i = k)) as [->|]; [done|]. apply H. lia.
        * apply H. lia.
      + split; [done|]. intros H. exfalso. apply Heq, H. lia. }
  cbn zeta in Hinv.
  destruct ((foldl (acceptKey answer guess) (true, ks) (upto numChars)).1).
  - symmetry. apply bool_decide_eq_true.
    apply list_eq_same_length with (Z.to_nat numChars); [done..|].
    intros i x y Hi Hx Hy.
    apply list_lookup_total_correct in Hx, Hy. subst.
    by apply Hinv.
  - symmetry. apply bool_decide_eq_false. intros ->.
    assert (false = true); [|done]. by apply Hinv.
Qed.

Lemma doWin_run (e : env) (w : world) :
  doWin e w
  = Done (CmdNil,
          mkWorld
            (set_status "You win!"
               (if getTotalScoreOk e
                then set_score (store.score_value (store.GetTotalScore (db w)))
                       (set_gameOver true (mdl w))
                else set_gameOver true (mdl w)))
            (db w) (trace w ++ [CallGetTotalScore (getTotalScoreOk e)])).
Proof. unfold doWin, updateScore. run. by destruct (getTotalScoreOk e). Qed.

Lemma doLoss_run (e : env) (w : world) :
  doLoss e w
  = Done (CmdNil,
          mkWorld
            (set_status ("The word was " +:+ string_of_list_ascii (answer (mdl w))
                         +:+ ". Better luck next time!")
               (if getTotalScoreOk e
                then set_score (store.score_value (store.GetTotalScore (db w)))
                       (set_gameOver true (mdl w))
                else set_gameOver true (mdl w)))
            (db w) (trace w ++ [CallGetTotalScore (getTotalScoreOk e)])).
Proof. unfold doLoss, updateScore. run. by destruct (getTotalScoreOk e). Qed.

Lemma doRestart_run (e : env) (w : world) :
  doRestart e w
  = let m := set_keyStates ∅ (set_gridRow 0 (set_gridCol 0
               (set_answer (copy_bytes (answer (mdl w)) (bytes (randomWord e)))
                  (set_gameOver false (set_gameID 0 (mdl w)))))) in
    let m := if getTotalScoreOk e
             then set_score (store.score_value (store.GetTotalScore (db w))) m
             else m in
    Done ((), mkWorld (set_status ("Score: " +:+ pretty (score m)) m) (db w)
                (trace w ++ [GameStarts] ++ [CallGetTotalScore (getTotalScoreOk e)])).
Proof.
  unfold doRestart, updateScore, resetStatus. run.
  rewrite <- (assoc_L (++)). by destruct (getTotalScoreOk e).
Qed.

(** A guess that is turned down: the row is incomplete, or the word is not
    in the dictionary. *)
Lemma doAcceptGuess_rejected (e : env) (w : world) :
  model_ok (mdl w) → gameOver (mdl w) = false →
  (gridCol (mdl w) ≠ numChars ∨
   ∃ guess, grid (mdl w) !! Z.to_nat (gridRow (mdl w)) = Some guess ∧
            IsWord dict (string_of_list_ascii guess) = false) →
  ∃ msg,
    (msg = "Your guess must be a 5-letter word." ∨ msg = "That's not a valid word.") ∧
    doAcceptGuess dict e w
    = Done (Tick (1 * Second),
            mkWorld (set_statusPending (int_incr (statusPending (mdl w)))
                       (set_status msg (mdl w)))
              (db w) (trace w)).
Proof.
  intros Hok Hgo Hrej. unfold doAcceptGuess.
  unfold mbind at 1, M_bind at 1, get at 1. rewrite Hgo.
  destruct (decide (gridCol (mdl w) ≠ numChars)) as [Hcol|Hcol].
  - eexists. split; [by left|]. by apply setStatus_timed.
  - destruct Hrej as [?|(guess & Hrow & Hword)]; [done|].
    eexists. split; [by right|].
    unfold mbind, M_bind, lift.
    rewrite (index_Done _ _ guess); [|apply Hok|done].
    rewrite Hword. cbn [negb]. by apply setStatus_timed.
Qed.

(** A guess that is taken: it is saved, the keys are coloured, the cursor
    moves to the next row, and the game may end. *)
Lemma doAcceptGuess_accepted (e : env) (w : world) (guess : list byte) :
  model_ok (mdl w) → gameOver (mdl w) = false → gridCol (mdl w) = numChars →
  grid (mdl w) !! Z.to_nat (gridRow (mdl w)) = Some guess →
  IsWord dict (string_of_list_ascii guess) = true →
  ∃ ok w1,
    saveGuess (string_of_list_ascii guess) e w = Done (ok, w1) ∧
    let m1 := mdl w1 in
    let st := foldl (acceptKey (answer m1) guess) (true, keyStates m1) (upto numChars) in
    let w2 := mkWorld (set_gridCol 0 (set_gridRow (int_incr (gridRow m1))
                         (set_keyStates st.2 m1))) (db w1) (trace w1) in
    doAcceptGuess dict e w
    = if st.1 then doWin e w2
      else if decide (int_incr (gridRow m1) = numGuesses) then doLoss e w2
           else Done (CmdNil, w2).
Proof.
  intros Hok Hgo Hcol Hrow Hword.
  destruct (saveGuess (string_of_list_ascii guess) e w) as [[ok w1]|] eqn:Hsave;
    [|rewrite saveGuess_run in Hsave; cbn zeta in Hsave;
      repeat case_match; discriminate].
  exists ok, w1. split; [done|]. cbn zeta.
  unfold doAcceptGuess.
  unfold mbind at 1, M_bind at 1, get at 1. rewrite Hgo.
  rewrite decide_False by (intros H; by apply H).
  unfold mbind at 1, M_bind at 1, lift at 1.
  rewrite (index_Done _ _ guess); [|apply Hok|done].
  rewrite Hword. cbn [negb].
  unfold mbind at 1, M_bind at 1. rewrite Hsave.
  run. destruct (foldl _ _ _) as [[] ks]; cbn [fst snd]; [done|].
  destruct (mdl w1); cbn. by case_decide.
Qed.

Lemma model_ok_status (msg : string) (m : model) :
  model_ok m → model_ok (set_status msg m).
Proof. intros []. by constructor. Qed.


(** What [saveGuess] leaves of the model: everything but the game
    identity. *)
Lemma saveGuess_model (guess : string) (e : env) (w : world) :
  ∃ ok w1, saveGuess guess e w = Done (ok, w1) ∧
           mdl w1 = set_gameID (gameID (mdl w1)) (mdl w).
Proof.
  rewrite saveGuess_run. cbn zeta. destruct (mdl w) eqn:Hm.
  repeat case_match; eexists _, _; (split; [reflexivity|]); by rewrite ?Hm.
Qed.


Lemma copy_bytes_full (dst src : list byte) :
  length src = length dst → copy_bytes dst src = src.
Proof.
  intros H. unfold copy_bytes. rewrite <- H, firstn_all, drop_ge by lia.
  apply app_nil_r.
Qed.

Lemma length_bytes (s : string) : length (bytes s) = String.length s.
Proof. unfold bytes. induction s as [|a s IH]; simpl; [done|]. by rewrite IH. Qed.

(** The restart events: ctrl+r in any state, Enter once the game is over. *)
Lemma Update_restarts (e : env) (w : world) (msg : Msg) :
  ((∃ runes, msg = KeyMsg KeyCtrlR runes) ∨
   (∃ runes, msg = KeyMsg KeyEnter runes) ∧ gameOver (mdl w) = true) →
  Update dict msg e w
  = (doRestart;; mret CmdNil) e
      (mkWorld (set_status ("Score: " +:+ pretty (score (mdl w))) (mdl w))
         (db w) (trace w)).
Proof.
  intros [[runes ->]|[[runes ->] Hgo]]; unfold Update;
    unfold mbind at 1, M_bind at 1; rewrite resetStatus_run; [done|].
  unfold mbind at 1, M_bind at 1, get at 1. cbn [mdl].
  change (gameOver (set_status _ (mdl w))) with (gameOver (mdl w)). by rewrite Hgo.
Qed.

Lemma restarts_spec (m : model) (msg : Msg) :
  restarts m msg = true ↔
  (∃ runes, msg = KeyMsg KeyCtrlR runes) ∨
  (∃ runes, msg = KeyMsg KeyEnter runes) ∧ gameOver m = true.
Proof.
  split.
  - destruct msg as [|[] runes| |]; cbn; try done; [left|right]; eauto.
  - by intros [[runes ->]|[[runes ->] Hgo]].
Qed.

(** The letters of the previous game stay in the [grid] array after a
    restart; they are below no cursor, and [viewGrid] does not show them. *)
Lemma restart_keeps_grid_array (e : env) (w : world) :
  ∃ w', doRestart e w = Done ((), w') ∧ grid (mdl w') = grid (mdl w).
Proof.
  rewrite doRestart_run. cbn zeta. eexists. split; [reflexivity|].
  by destruct (getTotalScoreOk e).
Qed.

(** *** [Update], message by message *)

Lemma saveGuess_saved (guess : string) (e : env) (w : world) :
  ∃ ok, saveGuess guess e w = Done (ok, saved guess e w).
Proof.
  rewrite saveGuess_run. unfold saved. cbn zeta.
  repeat case_match; by eexists.
Qed.

Lemma doAcceptGuess_accepts (e : env) (w : world) (guess : list byte) :
  model_ok (mdl w) → gameOver (mdl w) = false → gridCol (mdl w) = numChars →
  grid (mdl w) !! Z.to_nat (gridRow (mdl w)) = Some guess →
  IsWord dict (string_of_list_ascii guess) = true →
  doAcceptGuess dict e w = Done (CmdNil, accepted guess e w).
Proof.
  intros Hok Hgo Hcol Hrow Hword.
  destruct (doAcceptGuess_accepted e w guess) as (ok & w1 & Hsave & ->); [done..|].
  destruct (saveGuess_saved (string_of_list_ascii guess) e w) as [ok' Hsaved].
  rewrite Hsave in Hsaved. simplify_eq.
  destruct (saveGuess_model (string_of_list_ascii guess) e w)
    as (ok1 & w1 & Hsave1 & Hm1).
  rewrite Hsave in Hsave1. simplify_eq.
  assert (length guess = Z.to_nat numChars) as Hlen.
  { pose proof (ok_grid_cols _ Hok) as Hcols.
    eapply Forall_lookup_1 in Hcols; [|exact Hrow]. done. }
  unfold accepted. rewrite Hm1 at 1 2.
  change (answer (set_gameID _ (mdl w))) with (answer (mdl w)).
  rewrite acceptKey_success by (done || apply Hok).
  case_bool_decide; [by rewrite doWin_run|].
  change (gridRow (mdl (moved guess (saved (string_of_list_ascii guess) e w))))
    with (int_incr (gridRow (mdl (saved (string_of_list_ascii guess) e w)))).
  case_decide; [|done]. by rewrite doLoss_run.
Qed.

Lemma grid_store_Done (g : list (list byte)) (row col : Z) (b : byte) (r : list byte) :
  0 <= row → 0 <= col < Z.of_nat (length r) → g !! Z.to_nat row = Some r →
  grid_store g row col b
  = Done (<[Z.to_nat row := <[Z.to_nat col := b]> r]> g).
Proof.
  intros Hrow Hcol Hr. unfold grid_store. rewrite (index_Done _ _ r) by done.
  destruct (index_in_range r col Hcol) as (x & _ & ->). done.
Qed.

Lemma model_ok_row (m : model) :
  model_ok m → gameOver m = false →
  ∃ row, grid m !! Z.to_nat (gridRow m) = Some row ∧ length row = Z.to_nat numChars.
Proof.
  intros Hok Hgo. pose proof (ok_gridRow _ Hok). pose proof (ok_in_progress _ Hok Hgo).
  destruct (lookup_lt_is_Some_2 (grid m) (Z.to_nat (gridRow m))) as [row Hrow].
  { rewrite (ok_grid_rows _ Hok). lia. }
  exists row. split; [done|].
  pose proof (ok_grid_cols _ Hok) as Hcols.
  by eapply Forall_lookup_1 in Hcols.
Qed.

Lemma Update_timer (e : env) (w : world) :
  Update dict msgResetStatus e w = Done (CmdNil, timed_out w).
Proof. unfold Update, timed_out. run. by case_decide. Qed.

(** [Update] returns, and does what [handles] lists. *)
Lemma Update_handles (e : env) (w : world) (msg : Msg) :
  model_ok (mdl w) →
  ∃ c w', Update dict msg e w = Done (c, w') ∧ handles dict e w msg c w'.
Proof.
  intros Hok. destruct msg as [|type runes|width height|].
  - eexists _, _. split; [|constructor].
    unfold Update, timed_out. run. by case_decide.
  - assert (Hreset : ∀ A (f : M A),
               (resetStatus;; f) e w = f e (defaulted w)) by done.
    assert (Hok0 : model_ok (mdl (defaulted w))) by by apply model_ok_status.
    destruct (restarts (mdl w) (KeyMsg type runes)) eqn:Hre.
    { eexists _, _. split; [|by apply handles_restart].
      rewrite Update_restarts by (by apply restarts_spec). unfold mbind, M_bind.
      by rewrite doRestart_run. }
    unfold Update. rewrite Hreset. destruct type.
    + eexists _, _. split; [done|constructor].
    + done.
    + unfold doDeleteChar. unfold mbind at 1, M_bind at 1, get at 1.
      change (gameOver (mdl (defaulted w))) with (gameOver (mdl w)).
      change (gridCol (mdl (defaulted w))) with (gridCol (mdl w)).
      destruct (gameOver (mdl w)) eqn:Hgo; cbn [negb andb];
        [eexists _, _; split; [done|by constructor]|].
      case_bool_decide as Hcol.
      * eexists _, _. split; [reflexivity|]. cbn [mdl db trace].
        change (gridCol (mdl (defaulted w))) with (gridCol (mdl w)).
        change (db (defaulted w)) with (db w).
        change (trace (defaulted w)) with (trace w).
        pose proof (ok_gridCol _ Hok). unfold numChars in *.
        rewrite int_decr_small by lia. by apply handles_delete.
      * eexists _, _. split; [done|by constructor].
    + destruct (gameOver (mdl w)) eqn:Hgo.
      { cbn in Hre. congruence. }
      unfold mbind at 1, M_bind at 1, get at 1.
      change (gameOver (mdl (defaulted w))) with (gameOver (mdl w)). rewrite Hgo.
      destruct (decide (gridCol (mdl w) = numChars)) as [Hcol|Hcol].
      * destruct (model_ok_row _ Hok Hgo) as (guess & Hrow & Hlen).
        destruct (IsWord dict (string_of_list_ascii guess)) eqn:Hword.
        -- eexists _, _. split; [by apply (doAcceptGuess_accepts _ _ guess)|].
           by apply handles_accepted.
        -- destruct (doAcceptGuess_rejected e (defaulted w)) as (msg & _ & Hrun);
             [done|done|right; by exists guess|].
           eexists _, _. split; [exact Hrun|].
           assert (msg = "That's not a valid word.") as ->.
           { revert Hrun. unfold doAcceptGuess.
             unfold mbind at 1, M_bind at 1, get at 1.
             change (gameOver (mdl (defaulted w))) with (gameOver (mdl w)).
             rewrite Hgo.
             change (gridCol (mdl (defaulted w))) with (gridCol (mdl w)).
             rewrite decide_False by (intros H; by apply H).
             unfold mbind, M_bind, lift.
             change (grid (mdl (defaulted w))) with (grid (mdl w)).
             change (gridRow (mdl (defaulted w))) with (gridRow (mdl w)).
             rewrite (index_Done _ _ guess); [|apply Hok|done].
             rewrite Hword. cbn [negb]. rewrite setStatus_timed by done.
             by intros [= <-]. }
           apply handles_rejected; [done|]. right. split; [by exists guess|done].
      * destruct (doAcceptGuess_rejected e (defaulted w)) as (msg & _ & Hrun);
          [done|done|by left|].
        eexists _, _. split; [exact Hrun|].
        assert (msg = "Your guess must be a 5-letter word.") as ->.
        { revert Hrun. unfold doAcceptGuess.
          unfold mbind at 1, M_bind at 1, get at 1.
          change (gameOver (mdl (defaulted w))) with (gameOver (mdl w)).
          rewrite Hgo.
          change (gridCol (mdl (defaulted w))) with (gridCol (mdl w)).
          rewrite decide_True by done. rewrite setStatus_timed by done.
          by intros [= <-]. }
        apply handles_rejected; [done|]. by left.
    + destruct runes as [|ch [|]];
        [eexists _, _; split; [done|by constructor]| |
         eexists _, _; split; [done|by constructor]].
      unfold doAcceptChar. unfold mbind at 1, M_bind at 1, get at 1.
      change (gameOver (mdl (defaulted w))) with (gameOver (mdl w)).
      change (gridCol (mdl (defaulted w))) with (gridCol (mdl w)).
      change (gridRow (mdl (defaulted w))) with (gridRow (mdl w)).
      change (grid (mdl (defaulted w))) with (grid (mdl w)).
      destruct (gameOver (mdl w)) eqn:Hgo; cbn [orb];
        [eexists _, _; split; [done|by constructor]|].
      pose proof (ok_in_progress _ Hok Hgo) as Hlt.
      rewrite (bool_decide_eq_true_2 _ Hlt). cbn [andb].
      case_bool_decide as Hcol; cbn [negb];
        [|eexists _, _; split; [done|by constructor]].
      destruct (isAsciiUpper (toAsciiUpper ch)) eqn:Hup;
        [|eexists _, _; split; [done|by constructor]].
      destruct (model_ok_row _ Hok Hgo) as (row & Hrow & Hlen).
      pose proof (ok_gridRow _ Hok). pose proof (ok_gridCol _ Hok).
      unfold mbind at 1, M_bind at 1, lift at 1.
      rewrite (grid_store_Done _ _ _ _ row) by (done || lia).
      eexists _, _. split; [reflexivity|]. cbn [mdl db trace].
      change (gridCol (mdl (defaulted w))) with (gridCol (mdl w)).
      change (db (defaulted w)) with (db w).
      change (trace (defaulted w)) with (trace w).
      change (gridCol (set_grid _ (mdl (defaulted w)))) with (gridCol (mdl w)).
      unfold numChars in *. rewrite int_incr_small by lia.
      by apply handles_char.
    + eexists _, _. split; [done|by constructor].
  - eexists _, _. split; [reflexivity|]. cbn [mdl db trace]. constructor.
  - eexists _, _. split; [reflexivity|constructor].
Qed.

End session.

(** ** The cursor stays within the grid *)

Section cursor.
Import Session System.
Variable dict : Dictionary.

Lemma model_ok_fields (m m' : model) :
  grid m' = grid m → answer m' = answer m → gridRow m' = gridRow m →
  gridCol m' = gridCol m → gameOver m' = gameOver m →
  model_ok m → model_ok m'.
Proof. intros Hg Ha Hr Hc Ho []. constructor; by rewrite ?Hg, ?Ha, ?Hr, ?Hc, ?Ho. Qed.

Lemma length_copy_bytes (dst src : list byte) :
  length (copy_bytes dst src) = length dst.
Proof. unfold copy_bytes. rewrite length_app, length_take, length_drop. lia. Qed.

Lemma model_ok_restarted (e : env) (w : world) :
  model_ok (mdl w) → model_ok (mdl (restarted e w)).
Proof.
  intros []. unfold restarted, rescored. cbn zeta.
  destruct (getTotalScoreOk e); constructor; cbn; try done;
    rewrite ?length_copy_bytes; done.
Qed.

Lemma model_ok_newModel (width height : Z) :
  model_ok (set_windowHeight height (set_windowWidth width newModel)).
Proof. constructor; cbn; try done. by repeat constructor. Qed.

Lemma model_ok_saved (guess : string) (e : env) (w : world) :
  model_ok (mdl w) → model_ok (mdl (saved guess e w)).
Proof. unfold saved. cbn zeta. repeat case_match; by apply model_ok_fields. Qed.

Lemma model_ok_accepted (guess : list byte) (e : env) (w : world) :
  model_ok (mdl w) → gameOver (mdl w) = false →
  model_ok (mdl (accepted guess e w)).
Proof.
  intros Hok Hgo.
  set (w1 := saved (string_of_list_ascii guess) e w).
  assert (Hok1 : model_ok (mdl w1)) by by apply model_ok_saved.
  assert (Hgo1 : gameOver (mdl w1) = false).
  { unfold w1, saved. cbn zeta. by repeat case_match. }
  pose proof (ok_gridRow _ Hok1). pose proof (ok_in_progress _ Hok1 Hgo1) as Hlt.
  assert (Hinc : int_incr (gridRow (mdl w1)) = gridRow (mdl w1) + 1).
  { unfold numGuesses in *. apply int_incr_small. lia. }
  assert (Hended : ∀ msg, model_ok (mdl (ended msg e (moved guess w1)))).
  { intros msg. destruct Hok1. unfold ended, rescored.
    destruct (getTotalScoreOk e); constructor; cbn -[int_incr]; try done;
      rewrite Hinc; lia. }
  unfold accepted. fold w1. case_bool_decide; [done|]. case_decide as H6; [done|].
  cbn -[int_incr] in H6. rewrite Hinc in H6. destruct Hok1.
  constructor; cbn -[int_incr]; try done; rewrite ?Hinc; lia.
Qed.

Lemma handles_model_ok (e : env) (w w' : world) (msg : Msg) (c : Cmd) :
  model_ok (mdl w) → handles dict e w msg c w' → model_ok (mdl w').
Proof.
  intros Hok H. destruct H.
  - unfold timed_out. cbn zeta. case_decide; by apply (model_ok_fields (mdl w)).
  - by apply model_ok_status.
  - by apply model_ok_restarted, model_ok_status.
  - destruct Hok. pose proof ok_gridCol0. constructor; cbn; try done. lia.
  - by apply (model_ok_fields (mdl w)).
  - apply model_ok_accepted; [by apply model_ok_status|done].
  - destruct Hok. constructor; cbn; try done.
    + by rewrite length_insert.
    + apply Forall_insert; [done|]. rewrite length_insert.
      by eapply Forall_lookup_1 in ok_grid_cols0.
    + lia.
  - by apply model_ok_status.
  - by apply (model_ok_fields (mdl w)).
  - done.
Qed.

(** [Update] neither panics nor leaves the bounds. *)
Lemma Update_model_ok (e : env) (w : world) (msg : Msg) :
  model_ok (mdl w) →
  ∃ c w', Update dict msg e w = Done (c, w') ∧ model_ok (mdl w').
Proof.
  intros Hok. destruct (Update_handles dict e w msg Hok) as (c & w' & Hrun & H).
  exists c, w'. split; [done|]. by eapply handles_model_ok.
Qed.

Lemma Init_restarted (e : env) (w : world) :
  Init e w = Done (CmdNil, restarted e w).
Proof. unfold Init. unfold mbind, M_bind. by rewrite doRestart_run. Qed.

(** Every session of a reachable system is within bounds. *)
Lemma reachable_model_ok (sys : system) :
  reachable dict sys → Forall (λ s, model_ok (s_model s)) (sessions sys).
Proof.
  induction 1 as [|sys sys' Hreach IH Hstep]; [constructor|].
  destruct Hstep as [sys width height e c w Hrun|sys i s msg e c w Hs Hmsg Hrun
                    |sys i s k rest e c w Hs Hk Hrun|sys]; cbn [sessions].
  - apply Forall_app. split; [done|]. apply Forall_singleton.
    rewrite Init_restarted in Hrun. simplify_eq.
    unfold after. destruct (schedule _ _ _). cbn [s_model].
    apply model_ok_restarted, model_ok_newModel.
  - apply Forall_insert; [done|].
    eapply Forall_lookup_1 in IH; [|exact Hs].
    destruct (Update_model_ok e (world_of s (ledger sys)) msg IH) as (c' & w' & Hrun' & Hok').
    rewrite Hrun in Hrun'. simplify_eq.
    unfold after. by destruct (schedule _ _ _).
  - apply Forall_insert; [done|].
    eapply Forall_lookup_1 in IH; [|exact Hs].
    destruct (Update_model_ok e (world_of s (ledger sys)) msgResetStatus IH)
      as (c' & w' & Hrun' & Hok').
    rewrite Hrun in Hrun'. simplify_eq.
    unfold after. by destruct (schedule _ _ _).
  - constructor.
Qed.

End cursor.

(** ** The first revision *)

Section legacy.
Import Legacy.
Variable isWord : string → bool.

Ltac run :=
  unfold mbind, M_bind, mret, M_ret, get, ask, modify, read_file, write_file,
    lift in *;
  cbn beta iota zeta delta [mdl file] in *.

(** What [loadDb] decodes from the file. *)
Lemma loadDb_run (e : env) (w : world) :
  ∃ loaded, loadDb e w = Done (loaded, w) ∧
            ∀ d, loaded = Some d → length (Guesses d) = Z.to_nat (numGuesses + 1).
Proof.
  unfold loadDb. run. destruct (loadOk e); [|by eexists].
  destruct w as [m [d|]]; eexists; (split; [reflexivity|]); intros d' [= <-];
    cbn [Guesses zero_db].
  - rewrite length_take, length_app. cbn. unfold numGuesses. lia.
  - by rewrite length_replicate.
Qed.

Lemma addWin_in_range (d : db) (guesses : Z) :
  length (Guesses d) = Z.to_nat (numGuesses + 1) →
  1 <= guesses <= numGuesses →
  ∃ d', addWin d guesses = Done d'
        ∧ length (Guesses d') = Z.to_nat (numGuesses + 1).
Proof.
  intros Hlen Hg. unfold addWin.
  rewrite !bool_decide_eq_true_2 by lia. cbn [andb negb].
  destruct (index_in_range (Guesses d) guesses) as (n & _ & ->).
  { rewrite Hlen. unfold numGuesses in *. lia. }
  eexists. split; [reflexivity|]. cbn. by rewrite length_insert.
Qed.

Lemma addWin_out_of_range (d : db) (guesses : Z) :
  ¬ (1 <= guesses <= numGuesses) → ∃ reason, addWin d guesses = Panic reason.
Proof.
  intros Hg. unfold addWin.
  destruct (bool_decide (1 <= guesses)) eqn:H1;
    destruct (bool_decide (guesses <= numGuesses)) eqn:H2; cbn; eauto.
  apply bool_decide_eq_true in H1, H2. lia.
Qed.

Lemma addLoss_Done (d : db) :
  length (Guesses d) = Z.to_nat (numGuesses + 1) →
  ∃ d', addLoss d = Done d' ∧ length (Guesses d') = Z.to_nat (numGuesses + 1).
Proof.
  intros Hlen. unfold addLoss.
  destruct (index_in_range (Guesses d) 0) as (n & _ & ->).
  { rewrite Hlen. unfold numGuesses. lia. }
  eexists. split; [reflexivity|]. cbn. by rewrite length_insert.
Qed.

Lemma model_ok_same (m m' : model) :
  same_cursor m m' → gameOver m' = gameOver m → model_ok m → model_ok m'.
Proof. intros (Hg & Hr & Hc) Ho []. constructor; by rewrite ?Hg, ?Hr, ?Hc, ?Ho. Qed.

Lemma legacy_setStatus_run (msg : string) (d : Z) (e : env) (w : world) :
  ∃ c m', setStatus msg d e w = Done (c, mkWorld m' (file w))
          ∧ same_cursor (mdl w) m' ∧ gameOver m' = gameOver (mdl w).
Proof. unfold setStatus. run. case_decide; by eexists _, _. Qed.

Lemma reportError_run (err msg : string) (e : env) (w : world) :
  ∃ c m', reportError err msg e w = Done (c, mkWorld m' (file w))
          ∧ same_cursor (mdl w) m' ∧ gameOver m' = gameOver (mdl w).
Proof. unfold reportError, setStatus. run. case_decide; by eexists _, _. Qed.

Lemma reset_run (e : env) (w : world) :
  ∃ m', reset e w = Done ((), mkWorld m' (file w))
        ∧ grid m' = grid (mdl w) ∧ gridRow m' = 0 ∧ gridCol m' = 0
        ∧ gameOver m' = false.
Proof. unfold reset, resetStatus. run. by eexists. Qed.

(** [withDb] on a function that returns and keeps cursor and game-over
    flag. *)
Lemma withDb_run (f : db → M db) (e : env) (w : world) :
  (∀ d w0, length (Guesses d) = Z.to_nat (numGuesses + 1) →
           same_cursor (mdl w) (mdl w0) → gameOver (mdl w0) = gameOver (mdl w) →
           ∃ d' w1, f d e w0 = Done (d', w1)
                    ∧ same_cursor (mdl w) (mdl w1)
                    ∧ gameOver (mdl w1) = gameOver (mdl w)) →
  ∃ c w', withDb f e w = Done (c, w')
          ∧ same_cursor (mdl w) (mdl w') ∧ gameOver (mdl w') = gameOver (mdl w).
Proof.
  intros Hf. unfold withDb.
  destruct (loadDb_run e w) as ([d|] & Hload & Hlen);
    unfold mbind at 1, M_bind at 1; rewrite Hload.
  - destruct (Hf d w (Hlen d eq_refl)) as (d' & w1 & Hrun & Hsame & Hgo); [done..|].
    unfold mbind at 1, M_bind at 1. rewrite Hrun.
    unfold save. run. destruct (saveOk e).
    + eexists _, _. split; [reflexivity|]. done.
    + destruct (reportError_run "could not write to database" "Error saving database."
                  e w1) as (c & m' & Hrep & Hsame' & Hgo').
      unfold mbind, M_bind, mret, M_ret, modify in Hrep. rewrite Hrep.
      eexists _, _. split; [reflexivity|]. cbn [mdl].
      destruct Hsame as (? & ? & ?), Hsame' as (? & ? & ?).
      unfold same_cursor. split_and!; congruence.
  - destruct (reportError_run "could not read from database" "Error loading database."
                e w) as (c & m' & Hrep & Hsame' & Hgo').
    rewrite Hrep. eexists _, _. split; [reflexivity|]. done.
Qed.

Lemma legacy_doWin_run (e : env) (w : world) :
  1 <= gridRow (mdl w) <= numGuesses →
  ∃ c w', doWin e w = Done (c, w')
          ∧ same_cursor (mdl w) (mdl w') ∧ gameOver (mdl w') = true.
Proof.
  intros Hrow. unfold doWin.
  unfold mbind at 1, M_bind at 1, modify at 1.
  set (w0 := mkWorld (set_gameOver true (mdl w)) (file w)).
  destruct (withDb_run
              (λ d, m ← get; d ← lift (addWin d (gridRow m));
                    modify (set_score (score_of d));; mret d) e w0)
    as (c1 & w1 & Hrun & Hsame & Hgo).
  { intros d w' Hlen (Hg & Hr & Hc) Hgo. run.
    destruct (addWin_in_range d (gridRow (mdl w')) Hlen) as (d' & -> & _).
    { by rewrite Hr. }
    eexists _, _. split; [reflexivity|]. done. }
  unfold mbind at 1, M_bind at 1. rewrite Hrun.
  destruct (legacy_setStatus_run "You win!" 0 e w1) as (c2 & m2 & Hst & Hsame2 & Hgo2).
  unfold mbind at 1, M_bind at 1. rewrite Hst.
  eexists _, _. split; [reflexivity|]. cbn [mdl].
  destruct Hsame as (? & ? & ?), Hsame2 as (? & ? & ?).
  subst w0. cbn in *. unfold same_cursor. split_and!; congruence.
Qed.

Lemma legacy_doLoss_run (e : env) (w : world) :
  ∃ c w', doLoss e w = Done (c, w')
          ∧ same_cursor (mdl w) (mdl w') ∧ gameOver (mdl w') = true.
Proof.
  unfold doLoss.
  unfold mbind at 1, M_bind at 1, modify at 1.
  set (w0 := mkWorld (set_gameOver true (mdl w)) (file w)).
  unfold mbind at 1, M_bind at 1, get at 1.
  destruct (withDb_run
              (λ d, d ← lift (addLoss d);
                    modify (set_score (score_of d));; mret d) e w0)
    as (c1 & w1 & Hrun & Hsame & Hgo).
  { intros d w' Hlen (Hg & Hr & Hc) Hgo. run.
    destruct (addLoss_Done d Hlen) as (d' & -> & _).
    eexists _, _. split; [reflexivity|]. done. }
  unfold mbind at 1, M_bind at 1. rewrite Hrun.
  match goal with |- context [setStatus ?msg 0] =>
    destruct (legacy_setStatus_run msg 0 e w1) as (c2 & m2 & Hst & Hsame2 & Hgo2) end.
  unfold mbind at 1, M_bind at 1. rewrite Hst.
  eexists _, _. split; [reflexivity|]. cbn [mdl].
  destruct Hsame as (? & ? & ?), Hsame2 as (? & ? & ?).
  subst w0. cbn in *. unfold same_cursor. split_and!; congruence.
Qed.

Lemma legacy_row (m : model) :
  model_ok m → gameOver m = false →
  ∃ row, grid m !! Z.to_nat (gridRow m) = Some row ∧ length row = Z.to_nat numChars.
Proof.
  intros Hok Hgo. pose proof (ok_gridRow _ Hok). pose proof (ok_in_progress _ Hok Hgo).
  destruct (lookup_lt_is_Some_2 (grid m) (Z.to_nat (gridRow m))) as [row Hrow].
  { rewrite (ok_grid_rows _ Hok). lia. }
  exists row. split; [done|].
  pose proof (ok_grid_cols _ Hok) as Hcols.
  by eapply Forall_lookup_1 in Hcols.
Qed.

Lemma doAcceptWord_ok (e : env) (w : world) :
  model_ok (mdl w) →
  ∃ c w', doAcceptWord isWord e w = Done (c, w') ∧ model_ok (mdl w').
Proof.
  intros Hok. unfold doAcceptWord. unfold mbind at 1, M_bind at 1, get at 1.
  destruct (gameOver (mdl w)) eqn:Hgo; [by eexists _, _|].
  case_decide as Hcol.
  { destruct (legacy_setStatus_run "Your guess must be a 5-letter word." (1 * Second) e w)
      as (c & m' & -> & Hsame & Hgo').
    eexists _, _. split; [reflexivity|]. by apply (model_ok_same (mdl w)). }
  destruct (legacy_row _ Hok Hgo) as (guess & Hrow & Hlen).
  pose proof (ok_gridRow _ Hok) as Hr. pose proof (ok_in_progress _ Hok Hgo) as Hlt.
  unfold mbind at 1, M_bind at 1, lift at 1.
  rewrite (index_Done _ _ guess) by (done || lia).
  destruct (isWord (string_of_list_ascii guess)); cbn [negb].
  2:{ destruct (legacy_setStatus_run "That's not a valid word." (1 * Second) e w)
        as (c & m' & -> & Hsame & Hgo').
      eexists _, _. split; [reflexivity|]. by apply (model_ok_same (mdl w)). }
  run. cbn [gridRow set_gridCol set_gridRow set_keyStates].
  unfold numGuesses in *. rewrite int_incr_small by lia.
  match goal with |- context [mkWorld ?m (file w)] => set (w2 := mkWorld m (file w)) end.
  destruct (foldl _ _ _).1.
  - destruct (legacy_doWin_run e w2) as (c & w' & -> & Hsame & Hgo');
      [cbn; unfold numGuesses; lia|].
    eexists _, _. split; [reflexivity|].
    destruct Hok, Hsame as (Hg & Hrw & Hc).
    constructor; rewrite ?Hg, ?Hrw, ?Hc; cbn; unfold numGuesses, numChars in *;
        try done; try lia; intros ?; congruence.
  - case_decide as H6.
    + destruct (legacy_doLoss_run e w2) as (c & w' & -> & Hsame & Hgo').
      eexists _, _. split; [reflexivity|].
      destruct Hok, Hsame as (Hg & Hrw & Hc).
      constructor; rewrite ?Hg, ?Hrw, ?Hc; cbn; unfold numGuesses, numChars in *;
        try done; try lia; intros ?; congruence.
    + eexists _, _. split; [reflexivity|].
      destruct Hok. constructor; cbn; unfold numGuesses, numChars in *; try done; lia.
Qed.

Lemma legacy_Update_ok (e : env) (w : world) (msg : Msg) :
  model_ok (mdl w) →
  ∃ c w', Update isWord msg e w = Done (c, w') ∧ model_ok (mdl w').
Proof.
  intros Hok. destruct msg as [|type runes|width height|].
  - unfold Update, resetStatus. run.
    case_decide; (eexists _, _; split; [reflexivity|]);
      by apply (model_ok_same (mdl w)).
  - set (w0 := mkWorld (set_status ("Score: " +:+ pretty (score (mdl w))) (mdl w)) (file w)).
    assert (Hok0 : model_ok (mdl w0)) by by apply (model_ok_same (mdl w)).
    assert (Hreset : ∀ A (f : M A), (resetStatus;; f) e w = f e w0) by done.
    clearbody w0.
    assert (Hrestart : ∃ c w', (reset;; mret CmdNil) e w0 = Done (c, w') ∧ model_ok (mdl w')).
    { destruct (reset_run e w0) as (m' & Hrun & Hg & Hr & Hc & Hgo).
      unfold mbind, M_bind. rewrite Hrun. eexists _, _. split; [reflexivity|].
      destruct Hok0. cbn [mdl].
      constructor; rewrite ?Hg, ?Hr, ?Hc; unfold numGuesses, numChars; try done; lia. }
    unfold Update. rewrite Hreset. destruct type.
    + by eexists _, _.
    + done.
    + unfold doDeleteChar. unfold mbind at 1, M_bind at 1, get at 1.
      destruct (gameOver (mdl w0)) eqn:Hgo; cbn [negb andb]; [by eexists _, _|].
      case_bool_decide as Hcol; [|by eexists _, _].
      eexists _, _. split; [reflexivity|]. cbn [mdl].
      pose proof (ok_gridCol _ Hok0). unfold numChars in *.
      rewrite int_decr_small by lia.
      destruct Hok0. constructor; cbn; try done. lia.
    + unfold mbind at 1, M_bind at 1, get at 1.
      destruct (gameOver (mdl w0)) eqn:Hgo; [done|]. by apply doAcceptWord_ok.
    + destruct runes as [|ch [|]]; [by eexists _, _| |by eexists _, _].
      unfold doAcceptChar. unfold mbind at 1, M_bind at 1, get at 1.
      destruct (gameOver (mdl w0)) eqn:Hgo; cbn [orb]; [by eexists _, _|].
      pose proof (ok_in_progress _ Hok0 Hgo) as Hlt.
      rewrite (bool_decide_eq_true_2 _ Hlt). cbn [andb].
      case_bool_decide as Hcol; cbn [negb]; [|by eexists _, _].
      destruct (isAsciiUpper (toAsciiUpper ch)); [|by eexists _, _].
      destruct (legacy_row _ Hok0 Hgo) as (row & Hrow & Hlen).
      pose proof (ok_gridRow _ Hok0). pose proof (ok_gridCol _ Hok0).
      unfold mbind at 1, M_bind at 1, lift at 1. unfold grid_store.
      rewrite (index_Done _ _ row) by (done || lia).
      destruct (index_in_range row (gridCol (mdl w0))) as (x & _ & ->); [lia|].
      eexists _, _. split; [reflexivity|]. cbn [mdl].
      unfold numChars in *. rewrite int_incr_small by (cbn; lia).
      destruct Hok0. constructor; cbn; try done.
      * by rewrite length_insert.
      * apply Forall_insert; [done|]. by rewrite length_insert.
      * unfold numChars. lia.
    + by eexists _, _.
  - eexists _, _. split; [reflexivity|]. by apply (model_ok_same (mdl w)).
  - by eexists _, _.
Qed.

Lemma legacy_Init_ok (width height : Z) (f : option db) (e : env) :
  ∃ c w', Init e (mkWorld (set_height height (set_width width zero_model)) f)
          = Done (c, w') ∧ model_ok (mdl w').
Proof.
  unfold Init. unfold mbind at 1, M_bind at 1, modify at 1.
  match goal with |- context [withDb ?f e ?w] =>
    set (w0 := w); set (body := f) end.
  assert (Hok0 : model_ok (mdl w0)).
  { constructor; cbn; try done. by repeat constructor. }
  unfold withDb.
  destruct (loadDb_run e w0) as ([d|] & Hload & _);
    unfold mbind at 1, M_bind at 1; rewrite Hload.
  - unfold body. unfold mbind at 1, M_bind at 1.
    unfold mbind at 1, M_bind at 1, modify at 1.
    unfold mbind at 1, M_bind at 1.
    match goal with |- context [reset e ?w] =>
      destruct (reset_run e w) as (m' & Hrun & Hg & Hr & Hc & Hgo) end.
    rewrite Hrun. clearbody w0.
    assert (Hok1 : model_ok m').
    { destruct Hok0.
      constructor; rewrite ?Hg, ?Hr, ?Hc; unfold numGuesses, numChars; try done; lia. }
    unfold save. run. destruct (saveOk e).
    + eexists _, _. split; [reflexivity|]. done.
    + match goal with |- context [reportError ?a ?b e ?w] =>
        destruct (reportError_run a b e w) as (c & m2 & Hrep & Hsame & Hgo2) end.
      unfold mbind, M_bind, mret, M_ret, modify in Hrep. rewrite Hrep.
      eexists _, _. split; [reflexivity|]. by apply (model_ok_same m').
  - match goal with |- context [reportError ?a ?b e ?w] =>
      destruct (reportError_run a b e w) as (c & m2 & Hrep & Hsame & Hgo2) end.
    rewrite Hrep. eexists _, _. split; [reflexivity|]. by apply (model_ok_same (mdl w0)).
Qed.

Lemma legacy_reachable_ok (w : world) : reachable isWord w → model_ok (mdl w).
Proof.
  induction 1 as [width height f e c w' Hrun|w w' msg e c Hreach IH Hrun|w f Hreach IH].
  - destruct (legacy_Init_ok width height f e) as (c' & w'' & Hrun' & Hok).
    rewrite Hrun in Hrun'. by simplify_eq.
  - destruct (legacy_Update_ok e w msg IH) as (c' & w'' & Hrun' & Hok).
    rewrite Hrun in Hrun'. by simplify_eq.
  - done.
Qed.

End legacy.

(** ** The example sessions are reachable *)

Section examples.
Import Session System Examples.

Lemma reachable_connect (dict : Dictionary) (t : store.Tables) (width height : Z)
    (e : env) (c : Cmd) (w : world) :
  reachable dict (mkSystem [] t) →
  Init e (mkWorld (set_windowHeight height (set_windowWidth width newModel)) t [])
  = Done (c, w) →
  reachable dict (mkSystem [after c w (mkSession newModel [] 0 [])] (db w)).
Proof.
  intros Hreach Hrun. eapply reachable_step; [exact Hreach|].
  by apply (step_connect dict (mkSystem [] t) width height e c w).
Qed.

Lemma reachable_event (dict : Dictionary) (s : session) (t : store.Tables)
    (msg : Msg) (e : env) (c : Cmd) (w : world) :
  reachable dict (mkSystem [s] t) → msg ≠ msgResetStatus →
  Update dict msg e (world_of s t) = Done (c, w) →
  reachable dict (mkSystem [after c w s] (db w)).
Proof.
  intros Hreach Hmsg Hrun. eapply reachable_step; [exact Hreach|].
  by apply (step_event dict (mkSystem [s] t) 0 s msg e c w).
Qed.

(** Evaluates the system that the run [H] has reached. *)
Ltac evaluate_in H :=
  match type of H with
  | reachable _ ?sys =>
      let v := eval vm_compute in sys in
      replace sys with v in H by (vm_compute; reflexivity)
  end.

(** Extends the run [H] of a one-session system by the message [msg]. *)
Ltac press_in H msg e :=
  eapply (reachable_event _ _ _ msg e) in H;
  [evaluate_in H|discriminate|vm_compute; reflexivity].

(** Closes a goal on an example system with the run [H]. *)
Ltac reached_by H :=
  match goal with
  | |- reachable _ ?sys =>
      let v := eval vm_compute in sys in
      replace sys with v by (vm_compute; reflexivity); exact H
  end.

Lemma only_alone (w : world) : only w ∈ sessions (alone w).
Proof. apply list_elem_of_singleton. reflexivity. Qed.

Lemma started_reachable : reachable dict (alone started).
Proof.
  pose proof (reachable_start dict) as H.
  eapply (reachable_connect _ _ 0 0 fine) in H; [|vm_compute; reflexivity].
  evaluate_in H. reached_by H.
Qed.

Lemma typed_CRAN_reachable : reachable dict (alone typed_CRAN).
Proof.
  pose proof started_reachable as H. unfold alone in H. evaluate_in H.
  press_in H (KeyMsg KeyRunes [99]) fine.
  press_in H (KeyMsg KeyRunes [114]) fine.
  press_in H (KeyMsg KeyRunes [97]) fine.
  press_in H (KeyMsg KeyRunes [110]) fine.
  reached_by H.
Qed.

Lemma typed_CRANE_reachable : reachable dict (alone typed_CRANE).
Proof.
  pose proof started_reachable as H. unfold alone in H. evaluate_in H.
  press_in H (KeyMsg KeyRunes [67]) fine.
  press_in H (KeyMsg KeyRunes [82]) fine.
  press_in H (KeyMsg KeyRunes [65]) fine.
  press_in H (KeyMsg KeyRunes [78]) fine.
  press_in H (KeyMsg KeyRunes [69]) fine.
  reached_by H.
Qed.

Lemma retried_reachable : reachable dict (alone retried).
Proof.
  pose proof started_reachable as H. unfold alone in H. evaluate_in H.
  press_in H (KeyMsg KeyRunes [99]) fine.
  press_in H (KeyMsg KeyRunes [114]) fine.
  press_in H (KeyMsg KeyRunes [97]) fine.
  press_in H (KeyMsg KeyRunes [116]) fine.
  press_in H (KeyMsg KeyRunes [101]) fine.
  press_in H enter no_game.
  press_in H (KeyMsg KeyRunes [115]) fine.
  press_in H (KeyMsg KeyRunes [108]) fine.
  press_in H (KeyMsg KeyRunes [97]) fine.
  press_in H (KeyMsg KeyRunes [116]) fine.
  press_in H (KeyMsg KeyRunes [101]) fine.
  press_in H enter fine.
  reached_by H.
Qed.

Lemma warned_reachable : reachable dict warned_system.
Proof.
  pose proof typed_CRAN_reachable as H. unfold alone in H. evaluate_in H.
  press_in H enter fine.
  reached_by H.
Qed.

Lemma won_reachable : reachable dict (alone won).
Proof.
  pose proof typed_CRANE_reachable as H. unfold alone in H. evaluate_in H.
  press_in H enter fine.
  reached_by H.
Qed.

(** The sessions of the examples are within bounds, being reachable. *)
Lemma alone_model_ok (w : world) : reachable dict (alone w) → model_ok (mdl w).
Proof.
  intros H. apply reachable_model_ok in H.
  by eapply Forall_forall in H; [|apply only_alone].
Qed.

End examples.

(** ** C9: the cursor, the grid accesses and the recording of a win *)

Section cursor_claim.
Import Session System.

(** C9.  In every session of every system reachable from the empty one, the
    cursor satisfies 0 <= gridCol <= 5 and 0 <= gridRow <= 6, with
    gridRow < 6 while the game is not over; so the cell that a character
    input writes and the row that a submitted guess reads exist, and
    [Update] returns on every message (the embedding panics on an index out
    of range).  The same holds of every reachable session of the first
    revision, where in addition the row count passed to [db.addWin] after
    the row advance is within 1..6, the range outside which [addWin]
    panics. *)
Theorem cursor_stays_in_grid (dict : Dictionary) (isWord : string → bool) :
  (∀ sys s, reachable dict sys → s ∈ sessions sys →
     let m := s_model s in
     0 <= gridCol m <= 5 ∧ 0 <= gridRow m <= 6 ∧
     (gameOver m = false → gridRow m < 6) ∧
     (gameOver m = false → gridCol m < 5 →
      ∃ row cell, index (grid m) (gridRow m) = Done row
                  ∧ index row (gridCol m) = Done cell) ∧
     (gameOver m = false → ∃ row, index (grid m) (gridRow m) = Done row) ∧
     (∀ msg e t, ∃ c w', Update dict msg e (mkWorld m t (s_trace s)) = Done (c, w')))
  ∧
  (∀ w, Legacy.reachable isWord w →
     let m := Legacy.mdl w in
     0 <= Legacy.gridCol m <= 5 ∧ 0 <= Legacy.gridRow m <= 6 ∧
     (Legacy.gameOver m = false → Legacy.gridRow m < 6) ∧
     (Legacy.gameOver m = false → Legacy.gridCol m < 5 →
      ∃ row cell, index (Legacy.grid m) (Legacy.gridRow m) = Done row
                  ∧ index row (Legacy.gridCol m) = Done cell) ∧
     (Legacy.gameOver m = false →
      ∃ row, index (Legacy.grid m) (Legacy.gridRow m) = Done row) ∧
     (Legacy.gameOver m = false → 1 <= int_incr (Legacy.gridRow m) <= 6) ∧
     (∀ msg e, ∃ c w', Legacy.Update isWord msg e w = Done (c, w'))).
Proof.
  split.
  - intros sys s Hreach Hs. cbn zeta.
    pose proof (reachable_model_ok dict sys Hreach) as Hall.
    eapply Forall_forall in Hall; [|exact Hs].
    pose proof (ok_gridCol _ Hall) as Hc. pose proof (ok_gridRow _ Hall) as Hr.
    pose proof (ok_in_progress _ Hall) as Hp. unfold numGuesses, numChars in Hc, Hr, Hp.
    refine (conj Hc (conj Hr (conj Hp (conj _ (conj _ _))))).
    + intros Hgo Hcol. destruct (model_ok_row _ Hall Hgo) as (row & Hrow & Hlen).
      destruct (index_in_range row (gridCol (s_model s))) as (cell & _ & Hcell).
      { rewrite Hlen. unfold numChars. lia. }
      exists row, cell. split; [|done]. apply index_Done; [lia|done].
    + intros Hgo. destruct (model_ok_row _ Hall Hgo) as (row & Hrow & Hlen).
      exists row. apply index_Done; [lia|done].
    + intros msg e t.
      destruct (Update_model_ok dict e (mkWorld (s_model s) t (s_trace s)) msg Hall)
        as (c & w' & Hrun & _).
      by exists c, w'.
  - intros w Hreach. cbn zeta.
    pose proof (legacy_reachable_ok isWord w Hreach) as Hok.
    pose proof (Legacy.ok_gridCol _ Hok) as Hc.
    pose proof (Legacy.ok_gridRow _ Hok) as Hr.
    pose proof (Legacy.ok_in_progress _ Hok) as Hp.
    unfold numGuesses, numChars in Hc, Hr, Hp.
    refine (conj Hc (conj Hr (conj Hp (conj _ (conj _ (conj _ _)))))).
    + intros Hgo Hcol. destruct (legacy_row _ Hok Hgo) as (row & Hrow & Hlen).
      destruct (index_in_range row (Legacy.gridCol (Legacy.mdl w))) as (cell & _ & Hcell).
      { rewrite Hlen. unfold numChars. lia. }
      exists row, cell. split; [|done]. apply index_Done; [lia|done].
    + intros Hgo. destruct (legacy_row _ Hok Hgo) as (row & Hrow & Hlen).
      exists row. apply index_Done; [lia|done].
    + intros Hgo. specialize (Hp Hgo). rewrite int_incr_small by lia. lia.
    + intros msg e.
      destruct (legacy_Update_ok isWord e w msg Hok) as (c & w' & Hrun & _).
      by exists c, w'.
Qed.

End cursor_claim.

Lemma cursor_stays_in_grid_witness :
  0 <= Session.gridCol (System.s_model (Examples.only Examples.typed_CRAN)) <= 5.
Proof.
  exact (proj1 (proj1 (cursor_stays_in_grid Examples.dict (λ _, true))
                  (Examples.alone Examples.typed_CRAN)
                  (Examples.only Examples.typed_CRAN)
                  typed_CRAN_reachable (only_alone Examples.typed_CRAN))).
Defined.

(** ** The status line and its scheduled resets *)

Section status.
Import Session System.
Variable dict : Dictionary.

Lemma int_wrap_wrap_add (a b : Z) : int_wrap (int_wrap a + b) = int_wrap (a + b).
Proof.
  unfold int_wrap. f_equal.
  replace (((a + 2 ^ 63) mod 2 ^ 64 - 2 ^ 63) + b + 2 ^ 63)
    with ((a + 2 ^ 63) mod 2 ^ 64 + b) by lia.
  rewrite Zplus_mod_idemp_l. f_equal. lia.
Qed.

(** What handling a message does to the count of pending resets. *)
Lemma handles_statusPending (e : env) (w w' : world) (msg : Msg) (c : Cmd) :
  handles dict e w msg c w' →
  statusPending (mdl w')
  = match msg, c with
    | msgResetStatus, _ => int_decr (statusPending (mdl w))
    | _, Tick _ => int_incr (statusPending (mdl w))
    | _, _ => statusPending (mdl w)
    end
  ∧ (msg = msgResetStatus → c = CmdNil).
Proof.
  intros H. destruct H; split; try done.
  - unfold timed_out. cbn zeta. by case_decide.
  - destruct msg as [|[] runes| |]; try done; cbn;
      unfold restarted, rescored; cbn zeta; by destruct (getTotalScoreOk e).
  - unfold accepted, ended, rescored, moved, saved. cbn zeta.
    repeat case_match; reflexivity.
Qed.

Lemma seq_snoc_last (n len : nat) :
  (len ≤ n)%nat → seq (n - len) len ++ [n] = seq (S n - S len) (S len).
Proof.
  intros Hlen. replace (S n - S len)%nat with (n - len)%nat by lia.
  rewrite seq_S. do 2 f_equal. lia.
Qed.

Lemma ticks_ok_after (e : env) (s : session) (t : store.Tables) (msg : Msg)
    (c : Cmd) (w' : world) :
  msg ≠ msgResetStatus →
  handles dict e (world_of s t) msg c w' → ticks_ok s → ticks_ok (after c w' s).
Proof.
  intros Hmsg H (Hlen & Hseq & Hp).
  destruct (handles_statusPending _ _ _ _ _ H) as [Hp' _].
  unfold after, schedule, ticks_ok.
  destruct c; cbn [s_ticks s_scheduled s_model]; rewrite Hp';
    destruct msg; try done; cbn [world_of mdl]; try (by split_and!).
  all: rewrite length_app; cbn [length]; split_and!; try lia.
  all: try (rewrite Hseq at 1; rewrite Nat.add_1_r; by apply seq_snoc_last).
  all: rewrite Hp; unfold int_incr; rewrite int_wrap_wrap_add; f_equal; lia.
Qed.

Lemma ticks_ok_fired (e : env) (s : session) (t : store.Tables) (k : nat)
    (rest : list nat) (c : Cmd) (w' : world) :
  s_ticks s = k :: rest →
  handles dict e (world_of s t) msgResetStatus c w' → ticks_ok s →
  ticks_ok (after c w' (mkSession (s_model s) rest (s_scheduled s) (s_trace s))).
Proof.
  intros Hk H (Hlen & Hseq & Hp).
  destruct (handles_statusPending _ _ _ _ _ H) as [Hp' Hc].
  rewrite (Hc eq_refl). unfold after, schedule, ticks_ok.
  cbn [s_ticks s_scheduled s_model]. rewrite Hp'. cbn [world_of mdl].
  rewrite Hk in *. cbn [length] in *. split_and!; [lia| |].
  - destruct (s_scheduled s) as [|n]; [lia|].
    replace (S n - S (length rest))%nat with (n - length rest)%nat in Hseq by lia.
    cbn [seq] in Hseq. injection Hseq as _ Hrest.
    rewrite Hrest at 1. f_equal. lia.
  - rewrite Hp. unfold int_decr.
    replace (int_wrap (Z.of_nat (S (length rest))) - 1)
      with (int_wrap (Z.of_nat (S (length rest))) + -1) by lia.
    rewrite int_wrap_wrap_add. f_equal. lia.
Qed.

Lemma ticks_ok_restarted (e : env) (w : world) (c : Cmd) (w' : world) :
  Init e w = Done (c, w') → statusPending (mdl w) = 0 →
  ticks_ok (after c w' (mkSession newModel [] 0 [])).
Proof.
  rewrite Init_restarted. intros [= <- <-] Hp.
  unfold after, schedule, ticks_ok. cbn [s_ticks s_scheduled s_model length].
  split_and!; [done|done|].
  unfold restarted, rescored. cbn zeta. by destruct (getTotalScoreOk e).
Qed.

Lemma reachable_ticks_ok (sys : system) :
  reachable dict sys → Forall ticks_ok (sessions sys).
Proof.
  intros Hreach. pose proof (reachable_model_ok dict sys Hreach) as Hok.
  induction Hreach as [|sys sys' Hreach IH Hstep]; [constructor|].
  specialize (IH (reachable_model_ok dict sys Hreach)).
  pose proof (reachable_model_ok dict sys Hreach) as Hoks.
  destruct Hstep as [sys width height e c w Hrun|sys i s msg e c w Hs Hmsg Hrun
                    |sys i s k rest e c w Hs Hk Hrun|sys]; cbn [sessions].
  - apply Forall_app. split; [done|]. apply Forall_singleton.
    by eapply ticks_ok_restarted.
  - apply Forall_insert; [done|].
    eapply Forall_lookup_1 in IH; [|exact Hs].
    eapply Forall_lookup_1 in Hoks; [|exact Hs].
    destruct (Update_handles dict e (world_of s (ledger sys)) msg Hoks)
      as (c' & w' & Hrun' & Hh).
    rewrite Hrun in Hrun'. simplify_eq. by eapply ticks_ok_after.
  - apply Forall_insert; [done|].
    eapply Forall_lookup_1 in IH; [|exact Hs].
    eapply Forall_lookup_1 in Hoks; [|exact Hs].
    destruct (Update_handles dict e (world_of s (ledger sys)) msgResetStatus Hoks)
      as (c' & w' & Hrun' & Hh).
    rewrite Hrun in Hrun'. simplify_eq. by eapply ticks_ok_fired.
  - constructor.
Qed.

End status.

(** ** C8: the game record is created lazily *)

Section lazy.
Import Session System.
Variable dict : Dictionary.

Lemma identity_app (id : option Z) (tr new : list call) :
  identity id (tr ++ new) = identity (identity id tr) new.
Proof.
  revert id. induction tr as [|c tr IH]; intros id; [done|].
  destruct c as [|a [i|]|g x ok|ok]; cbn; apply IH.
Qed.

Lemma lazily_app (id : option Z) (tr new : list call) :
  lazily id tr = true → lazily id (tr ++ new) = lazily (identity id tr) new.
Proof.
  revert id. induction tr as [|c tr IH]; intros id Htr; [done|].
  destruct c as [|a [i|]|g x ok|ok]; cbn in *.
  - by apply IH.
  - destruct id; [done|]. apply andb_true_iff in Htr as [Hnext Htr].
    destruct tr as [|[] tr]; try done.
    specialize (IH (Some i) Htr). cbn in *. by rewrite Hnext in *.
  - destruct id; [done|]. by apply IH.
  - destruct id as [i|]; [|done]. apply andb_true_iff in Htr as [Hg Htr].
    rewrite Hg. cbn. by apply IH.
  - by apply IH.
Qed.

Lemma lazily_created_once (id : option Z) (tr : list call) :
  lazily id tr = true →
  created_once (match id with Some _ => 1 | None => 0 end) tr = true.
Proof.
  revert id. induction tr as [|c tr IH]; intros id Htr; [done|].
  destruct c as [|a [i|]|g x ok|ok]; cbn in *.
  - by apply (IH None).
  - destruct id; [done|]. apply andb_true_iff in Htr as [_ Htr].
    cbn. by apply (IH (Some i)).
  - destruct id; [done|]. by apply (IH None).
  - destruct id as [i|]; [|done]. apply andb_true_iff in Htr as [_ Htr].
    by apply (IH (Some i)).
  - by apply IH.
Qed.

Lemma fresh_ID_positive (ids : list Z) : 0 < store.fresh_ID ids.
Proof.
  unfold store.fresh_ID.
  assert (0 <= foldr Z.max 0 ids); [|lia].
  induction ids as [|x ids IH]; cbn; lia.
Qed.

Lemma fresh_ID_above (ids : list Z) (x : Z) : x ∈ ids → x < store.fresh_ID ids.
Proof.
  unfold store.fresh_ID. intros Hx.
  assert (x <= foldr Z.max 0 ids); [|lia].
  induction Hx as [x ids|x y ids Hx IH]; cbn; lia.
Qed.

(** The calls [saveGuess] makes. *)
Lemma saved_calls (guess : string) (e : env) (w : world) :
  ∃ new,
    trace (saved guess e w) = trace w ++ new ∧
    lazily (identity_of (mdl w)) new = true ∧
    identity (identity_of (mdl w)) new = identity_of (mdl (saved guess e w)) ∧
    (∀ a r, CallCreateGame a r ∈ new → gameID (mdl w) = 0) ∧
    (store.game (db (saved guess e w)) = store.game (db w)
     ∨ ∃ a i, CallCreateGame a (Some i) ∈ new).
Proof.
  unfold saved, identity_of. cbn zeta.
  destruct (decide (gameID (mdl w) = 0)) as [Hid|Hid].
  - destruct (createGameOk e).
    + eexists. split; [reflexivity|]. cbn [mdl gameID set_gameID].
      pose proof (fresh_ID_positive (store.game_ID <$> store.game (db w))) as Hpos.
      cbn [store.CreateGame fst store.game_ID].
      rewrite decide_False by lia. cbn. rewrite bool_decide_eq_true_2 by done.
      split_and!; try done.
      right. eexists _, _. left.
    + eexists. split; [reflexivity|]. cbn [mdl]. rewrite decide_True by done.
      split_and!; try done. by left.
  - eexists. split; [reflexivity|]. cbn [mdl]. rewrite decide_False by done.
    cbn. rewrite bool_decide_eq_true_2 by done. split_and!; try done.
    + intros a r Hin. apply list_elem_of_singleton in Hin. done.
    + left. by destruct (createGuessOk e).
Qed.

(** The calls an accepted guess makes. *)
Lemma accepted_calls (guess : list byte) (e : env) (w : world) :
  ∃ new,
    trace (accepted guess e w) = trace w ++ new ∧
    lazily (identity_of (mdl w)) new = true ∧
    identity (identity_of (mdl w)) new = identity_of (mdl (accepted guess e w)) ∧
    (∀ a r, CallCreateGame a r ∈ new → gameID (mdl w) = 0) ∧
    (store.game (db (accepted guess e w)) = store.game (db w)
     ∨ ∃ a i, CallCreateGame a (Some i) ∈ new).
Proof.
  destruct (saved_calls (string_of_list_ascii guess) e w)
    as (new & Htr & Hlazy & Hid & Hcreate & Hgame).
  assert (Hscore : ∀ ok, lazily (identity_of (mdl w)) (new ++ [CallGetTotalScore ok]) = true
                         ∧ identity (identity_of (mdl w)) (new ++ [CallGetTotalScore ok])
                           = identity (identity_of (mdl w)) new).
  { intros ok. rewrite lazily_app, identity_app by done. done. }
  assert (Hin : ∀ ok a r, CallCreateGame a r ∈ new ++ [CallGetTotalScore ok] →
                          CallCreateGame a r ∈ new).
  { intros ok a r H. apply elem_of_app in H as [H|H]; [done|].
    by apply list_elem_of_singleton in H. }
  assert (Hended : ∀ msg,
    let w' := ended msg e (moved guess (saved (string_of_list_ascii guess) e w)) in
    trace w' = trace w ++ new ++ [CallGetTotalScore (getTotalScoreOk e)] ∧
    identity_of (mdl w') = identity_of (mdl (saved (string_of_list_ascii guess) e w)) ∧
    store.game (db w') = store.game (db (saved (string_of_list_ascii guess) e w))).
  { intros msg. cbn zeta. unfold ended, rescored, moved.
    cbn [trace db mdl]. rewrite Htr, <- (assoc_L (++)).
    split; [done|]. by destruct (getTotalScoreOk e). }
  unfold accepted. case_bool_decide as Hwin; [|case_decide as Hsix].
  - destruct (Hended "You win!") as (Ht & Hi & Hg). rewrite Ht, Hi, Hg.
    eexists. split; [reflexivity|]. destruct (Hscore (getTotalScoreOk e)) as [-> ->].
    split_and!; try done.
    + intros a r H. eapply Hcreate, Hin, H.
    + destruct Hgame as [|(a & i & H)]; [by left|right].
      exists a, i. apply elem_of_app. by left.
  - match goal with |- context [ended ?msg] => destruct (Hended msg) as (Ht & Hi & Hg) end.
    rewrite Ht, Hi, Hg.
    eexists. split; [reflexivity|]. destruct (Hscore (getTotalScoreOk e)) as [-> ->].
    split_and!; try done.
    + intros a r H. eapply Hcreate, Hin, H.
    + destruct Hgame as [|(a & i & H)]; [by left|right].
      exists a, i. apply elem_of_app. by left.
  - exists new. unfold moved. cbn [trace db mdl]. split_and!; try done.
Qed.

(** The calls that handling a message makes: they keep the discipline, and
    only an accepted guess of a game without identity calls CreateGame. *)
Lemma handles_calls (e : env) (w w' : world) (msg : Msg) (c : Cmd) :
  handles dict e w msg c w' →
  ∃ new,
    trace w' = trace w ++ new ∧
    lazily (identity_of (mdl w)) new = true ∧
    identity (identity_of (mdl w)) new = identity_of (mdl w') ∧
    (∀ a r, CallCreateGame a r ∈ new →
            gameID (mdl w) = 0 ∧ gameOver (mdl w) = false ∧
            gridCol (mdl w) = numChars ∧
            (∃ runes, msg = KeyMsg KeyEnter runes) ∧
            ∃ guess, grid (mdl w) !! Z.to_nat (gridRow (mdl w)) = Some guess
                     ∧ IsWord dict (string_of_list_ascii guess) = true) ∧
    (store.game (db w') = store.game (db w) ∨ ∃ a i, CallCreateGame a (Some i) ∈ new).
Proof.
  intros H.
  assert (Hnone : ∀ a r, CallCreateGame a r ∈ @nil call → False).
  { intros a r Hin. by apply elem_of_nil in Hin. }
  destruct H.
  - exists []. rewrite app_nil_r. unfold timed_out. cbn zeta.
    split_and!; try done; [by case_decide|intros a r Hin; by destruct (Hnone a r)|by left].
  - exists []. rewrite app_nil_r.
    split_and!; try done; [intros a r Hin; by destruct (Hnone a r)|by left].
  - eexists. split; [reflexivity|]. unfold restarted, rescored, identity_of.
    cbn zeta. split_and!.
    + done.
    + by destruct (getTotalScoreOk e).
    + intros a r Hin. exfalso.
      apply elem_of_cons in Hin as [Hin|Hin]; [done|].
      by apply list_elem_of_singleton in Hin.
    + by left.
  - exists []. rewrite app_nil_r.
    split_and!; try done; [intros a r Hin; by destruct (Hnone a r)|by left].
  - exists []. rewrite app_nil_r.
    split_and!; try done; [intros a r Hin; by destruct (Hnone a r)|by left].
  - destruct (accepted_calls guess e (defaulted w)) as (new & Ht & Hl & Hi & Hc & Hg).
    exists new. split_and!; try done.
    intros a r Hin. split_and!; try done; [by eapply Hc|by eexists|by eexists].
  - exists []. rewrite app_nil_r.
    split_and!; try done; [intros a r Hin; by destruct (Hnone a r)|by left].
  - exists []. rewrite app_nil_r.
    split_and!; try done; [intros a r Hin; by destruct (Hnone a r)|by left].
  - exists []. rewrite app_nil_r.
    split_and!; try done; [intros a r Hin; by destruct (Hnone a r)|by left].
  - exists []. rewrite app_nil_r.
    split_and!; try done; [intros a r Hin; by destruct (Hnone a r)|by left].
Qed.

Lemma calls_ok_after (e : env) (s : session) (t : store.Tables) (msg : Msg)
    (c : Cmd) (w' : world) (s0 : session) :
  s_model s0 = s_model s → s_trace s0 = s_trace s →
  handles dict e (world_of s t) msg c w' → calls_ok s → calls_ok (after c w' s0).
Proof.
  intros Hm Ht H [Hlazy Hid].
  destruct (handles_calls _ _ _ _ _ H) as (new & Htr & Hl & Hi & _).
  unfold calls_ok, after. destruct (schedule _ _ _). cbn [s_trace s_model].
  cbn [world_of mdl trace] in *. rewrite Htr.
  rewrite lazily_app, identity_app by done. rewrite Hid. done.
Qed.

Lemma reachable_calls_ok (sys : system) :
  reachable dict sys → Forall calls_ok (sessions sys).
Proof.
  intros Hreach.
  induction Hreach as [|sys sys' Hreach IH Hstep]; [constructor|].
  pose proof (reachable_model_ok dict sys Hreach) as Hoks.
  destruct Hstep as [sys width height e c w Hrun|sys i s msg e c w Hs Hmsg Hrun
                    |sys i s k rest e c w Hs Hk Hrun|sys]; cbn [sessions].
  - apply Forall_app. split; [done|]. apply Forall_singleton.
    rewrite Init_restarted in Hrun. simplify_eq.
    unfold calls_ok, after, schedule, restarted, rescored, identity_of.
    cbn [s_trace s_model trace mdl]. by destruct (getTotalScoreOk e).
  - apply Forall_insert; [done|].
    eapply Forall_lookup_1 in IH; [|exact Hs].
    eapply Forall_lookup_1 in Hoks; [|exact Hs].
    destruct (Update_handles dict e (world_of s (ledger sys)) msg Hoks)
      as (c' & w' & Hrun' & Hh).
    rewrite Hrun in Hrun'. simplify_eq. by eapply calls_ok_after.
  - apply Forall_insert; [done|].
    eapply Forall_lookup_1 in IH; [|exact Hs].
    eapply Forall_lookup_1 in Hoks; [|exact Hs].
    destruct (Update_handles dict e (world_of s (ledger sys)) msgResetStatus Hoks)
      as (c' & w' & Hrun' & Hh).
    rewrite Hrun in Hrun'. simplify_eq. by eapply calls_ok_after.
  - constructor.
Qed.

(** C8, as the code has it.  In every reachable session the calls keep the
    discipline of lazy creation game by game: CreateGame succeeds at most
    once in a game, no guess is written before it has, the guess that caused
    it is written at once under the identity it returned, and from then on
    CreateGame is not called and every guess is written under that identity,
    which is the one the model holds.  And whatever the message, [Update]
    calls CreateGame only for an accepted guess (Enter in an in-progress
    game on a complete row that the dictionary accepts) of a game that has
    no identity, never at game start; and the game table changes only when
    such a call succeeds, so a game of which no guess is accepted leaves no
    game record.  A CreateGame that fails records nothing and is tried again
    for the next accepted guess. *)
Theorem game_created_lazily :
  (∀ sys s, reachable dict sys → s ∈ sessions sys →
     lazily None (s_trace s) = true ∧
     created_once 0 (s_trace s) = true ∧
     identity None (s_trace s) = identity_of (s_model s))
  ∧
  (∀ e w msg c w',
     model_ok (mdl w) → Update dict msg e w = Done (c, w') →
     ∃ new,
       trace w' = trace w ++ new ∧
       (∀ a r, CallCreateGame a r ∈ new →
               gameID (mdl w) = 0 ∧ gameOver (mdl w) = false ∧
               gridCol (mdl w) = numChars ∧
               (∃ runes, msg = KeyMsg KeyEnter runes) ∧
               ∃ guess, grid (mdl w) !! Z.to_nat (gridRow (mdl w)) = Some guess
                        ∧ IsWord dict (string_of_list_ascii guess) = true) ∧
       (store.game (db w') = store.game (db w)
        ∨ ∃ a i, CallCreateGame a (Some i) ∈ new)).
Proof.
  split.
  - intros sys s Hreach Hs.
    pose proof (reachable_calls_ok sys Hreach) as Hall.
    eapply Forall_forall in Hall; [|exact Hs]. destruct Hall as [Hlazy Hid].
    split_and!; [done| |done]. by apply (lazily_created_once None).
  - intros e w msg c w' Hok Hrun.
    destruct (Update_handles dict e w msg Hok) as (c' & w'' & Hrun' & Hh).
    rewrite Hrun in Hrun'. simplify_eq.
    destruct (handles_calls _ _ _ _ _ Hh) as (new & Htr & _ & _ & Hcreate & Hgame).
    by exists new.
Qed.

End lazy.

Lemma game_created_lazily_witness :
  System.lazily None (System.s_trace (Examples.only Examples.retried)) = true.
Proof.
  exact (proj1 (proj1 (game_created_lazily Examples.dict)
                  (Examples.alone Examples.retried) (Examples.only Examples.retried)
                  retried_reachable (only_alone Examples.retried))).
Defined.

(** C8 as the specification has it, "CreateGame is called at most once" in a
    game, fails where the store fails: in the session [Examples.retried]
    CreateGame returned an error for the first accepted guess and was called
    again for the second one. *)
Lemma CreateGame_called_twice :
  ¬ (∀ sys s, System.reachable Examples.dict sys → s ∈ System.sessions sys →
              System.called_once 0 (System.s_trace s) = true).
Proof.
  intros H.
  specialize (H (Examples.alone Examples.retried) (Examples.only Examples.retried)
                retried_reachable (only_alone Examples.retried)).
  vm_compute in H. discriminate H.
Qed.

(** ** The theorems at work on the example sessions *)

Section witnesses.
Import Session System Examples.



End witnesses.

(** ** The ledger under many sessions *)

Section ledger_invariant.
Import Session System.
Variable dict : Dictionary.

Lemma string_of_list_ascii_inj (a b : list byte) :
  string_of_list_ascii a = string_of_list_ascii b → a = b.
Proof.
  intros H. rewrite <- (list_ascii_of_string_of_list_ascii a).
  rewrite <- (list_ascii_of_string_of_list_ascii b). by rewrite H.
Qed.

Lemma guesses_of_snoc (t : store.Tables) (x : store.Guess) (g : store.Game) :
  store.guesses_of (store.mkTables (store.game t) (store.guess t ++ [x])) g
  = store.guesses_of t g
    ++ (if decide (store.guess_GameID x = Some (store.game_ID g)) then [x] else []).
Proof.
  unfold store.guesses_of. cbn [store.guess]. by rewrite filter_app.
Qed.

Lemma game_wf_guesses (t t' : store.Tables) (g : store.Game) :
  store.guesses_of t' g = store.guesses_of t g → store.game_wf t g → store.game_wf t' g.
Proof. unfold store.game_wf. cbn zeta. by intros ->. Qed.

Lemma game_wf_snoc (t t' : store.Tables) (g : store.Game) (x : store.Guess) :
  store.guesses_of t' g = store.guesses_of t g ++ [x] →
  Forall (λ y, store.sql_eq (store.game_Answer g) (store.guess_Guess y) = false)
    (store.guesses_of t g) →
  store.game_wf t' g.
Proof.
  unfold store.game_wf. cbn zeta. intros -> H.
  rewrite length_app. cbn [length].
  replace (length (store.guesses_of t g) + 1 - 1)%nat
    with (length (store.guesses_of t g)) by lia.
  by rewrite take_app_length.
Qed.

Lemma NoDup_same_ID (games : list store.Game) (g g' : store.Game) :
  NoDup (store.game_ID <$> games) → g ∈ games → g' ∈ games →
  store.game_ID g = store.game_ID g' → g = g'.
Proof.
  intros Hnd Hg Hg' Hid.
  apply list_elem_of_lookup in Hg as [i Hi], Hg' as [j Hj].
  assert (i = j) as ->; [|congruence].
  eapply NoDup_lookup; [exact Hnd| |];
    rewrite list_lookup_fmap; [by rewrite Hi|by rewrite Hj, Hid].
Qed.

Lemma owns_same_tables (t : store.Tables) (m m' : model) :
  gameID m' = 0 ∨
    gameID m' = gameID m ∧ answer m' = answer m
    ∧ (gameOver m' = false → gameOver m = false) →
  owns t m → owns t m'.
Proof.
  unfold owns. intros [H0|(Hid & Hans & Hover)] H Hne; [done|].
  rewrite Hid, Hans in *. destruct (H Hne) as [Hin Hall]. auto.
Qed.

Lemma apart_insert (ms : list model) (i : nat) (m m' : model) :
  ms !! i = Some m → gameID m' = 0 ∨ gameID m' = gameID m →
  apart ms → apart (<[i := m']> ms).
Proof.
  intros Hi Hm' Hapart j k a b Hjk Hj Hk Ha.
  apply list_lookup_insert_Some in Hj, Hk.
  destruct Hj as [(Hji & <- & _)|[Hji Hj]], Hk as [(Hki & <- & _)|[Hki Hk]].
  - congruence.
  - destruct Hm' as [?|Hid]; [done|]. rewrite Hid in *.
    by apply (Hapart i k m b).
  - destruct Hm' as [->| ->]; [done|].
    intros Heq. destruct (decide (gameID m = 0)) as [H0|H0]; [congruence|].
    apply (Hapart i j m a); [done..|congruence].
  - by apply (Hapart j k a b).
Qed.

(** A session changes its model and not the tables: it forgets its game, or
    keeps its identity and answer and does not reopen it. *)
Lemma ledger_inv_same (t : store.Tables) (ms : list model) (i : nat) (m m' : model) :
  ms !! i = Some m →
  gameID m' = 0 ∨
    gameID m' = gameID m ∧ answer m' = answer m
    ∧ (gameOver m' = false → gameOver m = false) →
  ledger_inv ms t → ledger_inv (<[i := m']> ms) t.
Proof.
  intros Hi Hm' [Hwf Href Howns Hapart]. constructor; [done|done| |].
  - apply Forall_insert; [done|]. eapply owns_same_tables; [done|].
    by eapply Forall_lookup_1.
  - eapply apart_insert; [done| |done]. destruct Hm' as [?|(? & _)]; auto.
Qed.

Lemma ledger_inv_snoc (t : store.Tables) (ms : list model) (m : model) :
  gameID m = 0 → ledger_inv ms t → ledger_inv (ms ++ [m]) t.
Proof.
  intros H0 [Hwf Href Howns Hapart]. constructor; [done|done| |].
  - apply Forall_app. split; [done|]. apply Forall_singleton. by intros ?.
  - intros j k a b Hjk Hj Hk Ha.
    apply lookup_snoc_Some in Hj, Hk.
    destruct Hj as [[_ Hj]|[_ ->]]; [|done].
    destruct Hk as [[_ Hk]|[_ ->]]; [by apply (Hapart j k a b)|congruence].
Qed.

Lemma ledger_inv_nil (t : store.Tables) (ms : list model) :
  ledger_inv ms t → ledger_inv [] t.
Proof.
  intros [Hwf Href Howns Hapart]. constructor; [done|done|constructor|].
  intros j k a b _ Hj. by rewrite lookup_nil in Hj.
Qed.

Lemma guesses_of_fresh (t : store.Tables) :
  referential t →
  filter (λ x, store.guess_GameID x
               = Some (store.fresh_ID (store.game_ID <$> store.game t)))
    (store.guess t) = [].
Proof.
  intros Href. destruct (filter _ _) as [|x l] eqn:Hfilter; [done|].
  assert (Hx : x ∈ x :: l) by left. rewrite <- Hfilter in Hx.
  apply list_elem_of_filter in Hx as [Hid Hx].
  apply (Href x _ Hx), fresh_ID_above in Hid. lia.
Qed.

Lemma owns_known (t : store.Tables) (m : model) :
  owns t m → gameID m ≠ 0 → gameID m ∈ store.game_ID <$> store.game t.
Proof.
  intros H Hne. destruct (H Hne) as [Hin _].
  by apply (list_elem_of_fmap_2 store.game_ID) in Hin.
Qed.

(** CreateGame for a session that has no game yet. *)
Lemma ledger_inv_CreateGame (t : store.Tables) (ms : list model) (i : nat) (m : model) :
  let created := store.CreateGame t (Some (string_of_list_ascii (answer m))) in
  ms !! i = Some m → gameID m = 0 → ledger_inv ms t →
  ledger_inv (<[i := set_gameID (store.game_ID created.1) m]> ms) created.2.
Proof.
  intros created Hi H0 [[Hnd Hwf] Href Howns Hapart].
  unfold created, store.CreateGame. cbn [fst snd store.game_ID].
  set (id := store.fresh_ID (store.game_ID <$> store.game t)).
  set (row := store.mkGame id _).
  assert (Hnew : ∀ b, b ∈ ms → gameID b ≠ id).
  { intros b Hb Heq. destruct (decide (gameID b = 0)) as [Hb0|Hb0].
    - pose proof (fresh_ID_positive (store.game_ID <$> store.game t)).
      unfold id in Heq. lia.
    - eapply Forall_forall in Howns; [|exact Hb].
      apply owns_known, fresh_ID_above in Howns; [|done]. unfold id in Heq. lia. }
  constructor.
  - split; cbn [store.game].
    + rewrite fmap_app. apply NoDup_app. split_and!; [done| |apply NoDup_singleton].
      intros x Hx ->%list_elem_of_singleton. apply fresh_ID_above in Hx.
      cbn in Hx. unfold id in Hx. lia.
    + apply Forall_app. split.
      * eapply Forall_impl; [exact Hwf|]. intros g. by apply game_wf_guesses.
      * apply Forall_singleton. unfold store.game_wf, store.guesses_of.
        cbn [store.guess store.game_ID row]. unfold id.
        by rewrite guesses_of_fresh.
  - intros x j Hx Hj. cbn [store.game store.guess] in *.
    rewrite fmap_app. apply elem_of_app. left. by apply (Href x).
  - apply Forall_lookup. intros k b Hk.
    apply list_lookup_insert_Some in Hk. intros Hne.
    destruct Hk as [(_ & <- & _)|[Hki Hk]]; cbn [store.game store.guess] in *.
    + cbn [gameID answer set_gameID] in *. split; [set_solver|].
      intros _. unfold id. by rewrite guesses_of_fresh.
    + eapply Forall_lookup_1 in Howns; [|exact Hk].
      destruct (Howns Hne) as [Hin Hall]. split; [set_solver|done].
  - intros j k a b Hjk Hj Hk Ha.
    apply list_lookup_insert_Some in Hj, Hk.
    destruct Hj as [(Hji & <- & _)|[Hji Hj]], Hk as [(Hki & <- & _)|[Hki Hk]];
      cbn [gameID set_gameID] in *.
    + congruence.
    + intros Heq. eapply Hnew; [|done]. by eapply list_elem_of_lookup_2.
    + eapply Hnew. by eapply list_elem_of_lookup_2.
    + by apply (Hapart j k a b).
Qed.

(** CreateGuess for a session whose game is in progress. *)
Lemma ledger_inv_CreateGuess (t : store.Tables) (ms : list model) (i : nat)
    (m m' : model) (guess : list byte) :
  let created :=
    store.CreateGuess t (Some (gameID m)) (Some (string_of_list_ascii guess)) in
  ms !! i = Some m → gameID m ≠ 0 → gameOver m = false →
  gameID m' = gameID m → answer m' = answer m →
  (gameOver m' = false → guess ≠ answer m) →
  ledger_inv ms t →
  ledger_inv (<[i := m']> ms) created.2.
Proof.
  intros created Hi Hne Hopen Hid Hans Hover [[Hnd Hwf] Href Howns Hapart].
  unfold created, store.CreateGuess. cbn [snd].
  set (row := store.mkGuess _ _ _).
  pose proof (Forall_lookup_1 _ _ _ _ Howns Hi Hne) as [Hin Hall].
  specialize (Hall Hopen).
  constructor.
  - split; [done|]. cbn [store.game].
    apply Forall_forall. intros g Hg.
    eapply Forall_forall in Hwf; [|exact Hg].
    pose proof (guesses_of_snoc t row g) as Hsnoc. destruct t as [games guesses].
    cbn [store.game store.guess] in *.
    case_decide as Hrow; cbn [store.guess_GameID row] in Hrow.
    + assert (g = store.mkGame (gameID m) (Some (string_of_list_ascii (answer m))))
        as -> by (apply (NoDup_same_ID games); [done..|cbn; congruence]).
      by eapply game_wf_snoc.
    + rewrite app_nil_r in Hsnoc. by eapply game_wf_guesses.
  - intros x j Hx Hj. cbn [store.game store.guess] in *.
    apply elem_of_app in Hx as [Hx| ->%list_elem_of_singleton]; [by apply (Href x)|].
    cbn in Hj. simplify_eq. by apply (list_elem_of_fmap_2 store.game_ID) in Hin.
  - apply Forall_lookup. intros k b Hk.
    apply list_lookup_insert_Some in Hk. intros Hb.
    cbn [store.game store.guess].
    destruct Hk as [(_ & <- & _)|[Hki Hk]].
    + rewrite Hid, Hans. split; [done|]. intros Hopen'.
      rewrite filter_app. apply Forall_app. split; [done|].
      rewrite filter_cons, filter_nil. case_decide; [|constructor].
      apply Forall_singleton. cbn. apply bool_decide_eq_false.
      intros Heq%string_of_list_ascii_inj. by apply Hover.
    + eapply Forall_lookup_1 in Howns; [|exact Hk].
      destruct (Howns Hb) as [Hin' Hall']. split; [done|]. intros Hopen'.
      rewrite filter_app, filter_cons, filter_nil.
      case_decide as Hrow; [|by rewrite app_nil_r; auto].
      cbn in Hrow. simplify_eq. by destruct (Hapart k i b m).
  - eapply apart_insert; [done| |done]. auto.
Qed.

(** [saveGuess] for a session whose game is in progress; [m'] is what the
    session makes of its model afterwards. *)
Lemma ledger_inv_saved (guess : list byte) (e : env) (w : world)
    (ms : list model) (i : nat) (m' : model) :
  let w1 := saved (string_of_list_ascii guess) e w in
  ms !! i = Some (mdl w) → gameOver (mdl w) = false →
  gameID m' = gameID (mdl w1) → answer m' = answer (mdl w) →
  (gameOver m' = false → guess ≠ answer (mdl w)) →
  ledger_inv ms (db w) →
  ledger_inv (<[i := m']> ms) (db w1).
Proof.
  intros w1 Hi Hopen Hid Hans Hover Hinv. unfold w1, saved in *. cbn zeta in *.
  assert (Hlen : (i < length ms)%nat) by by eapply lookup_lt_Some.
  destruct (decide (gameID (mdl w) = 0)) as [H0|H0];
    [destruct (createGameOk e)|]; cbn [mdl db] in *.
  - pose proof (ledger_inv_CreateGame _ _ _ _ Hi H0 Hinv) as Hinv1.
    cbn zeta in Hinv1.
    set (created := store.CreateGame _ _) in *.
    set (m1 := set_gameID _ _) in *.
    assert (Hi1 : <[i := m1]> ms !! i = Some m1) by by apply list_lookup_insert_eq.
    rewrite <- (list_insert_insert_eq ms i m' m1).
    destruct (createGuessOk e).
    + eapply (ledger_inv_CreateGuess created.2 _ i m1 m' guess); try done.
      cbn. pose proof (fresh_ID_positive (store.game_ID <$> store.game (db w))). lia.
    + eapply ledger_inv_same; [done| |done]. right. by split_and!.
  - eapply ledger_inv_same; [done| |done]. right. split_and!; auto.
  - destruct (createGuessOk e).
    + by eapply (ledger_inv_CreateGuess (db w) _ i (mdl w) m' guess).
    + eapply ledger_inv_same; [done| |done]. right. split_and!; auto.
Qed.

Lemma accepted_saved (guess : list byte) (e : env) (w : world) :
  let w1 := saved (string_of_list_ascii guess) e w in
  let w' := accepted guess e w in
  db w' = db w1 ∧ gameID (mdl w') = gameID (mdl w1)
  ∧ answer (mdl w') = answer (mdl w)
  ∧ (gameOver (mdl w) = false → gameOver (mdl w') = false → guess ≠ answer (mdl w)).
Proof.
  cbn zeta.
  assert (Hsaved : answer (mdl (saved (string_of_list_ascii guess) e w)) = answer (mdl w)
                   ∧ gameOver (mdl (saved (string_of_list_ascii guess) e w))
                     = gameOver (mdl w)).
  { unfold saved. cbn zeta. by repeat case_match. }
  destruct Hsaved as [Hans Hover].
  unfold accepted, ended, rescored, moved. cbn zeta.
  case_bool_decide as Hwin; [|case_decide];
    cbn [mdl db]; destruct (getTotalScoreOk e); cbn; split_and!; done.
Qed.

(** Handling a message keeps the ledger of the sessions in order. *)
Lemma handles_ledger_inv (e : env) (w w' : world) (msg : Msg) (c : Cmd)
    (ms : list model) (i : nat) :
  handles dict e w msg c w' → ms !! i = Some (mdl w) →
  ledger_inv ms (db w) → ledger_inv (<[i := mdl w']> ms) (db w').
Proof.
  intros H Hi Hinv.
  destruct H as [|runes|msg Hre|runes Hopen Hcol|runes msg Hopen Hmsg
                |runes guess Hopen Hcol Hrow Hword|ch row Hopen Hcol Hch Hrow
                |type runes Htype Hre|width height|].
  - unfold timed_out. cbn zeta. cbn [mdl db].
    eapply ledger_inv_same; [done| |done]. right. by case_decide.
  - eapply ledger_inv_same; [done| |done]. by right.
  - eapply ledger_inv_same; [done| |done]. left.
    unfold restarted, rescored. cbn. by destruct (getTotalScoreOk e).
  - eapply ledger_inv_same; [done| |done]. by right.
  - eapply ledger_inv_same; [done| |done]. by right.
  - destruct (accepted_saved guess e (defaulted w)) as (-> & Hid & Hans & Hover).
    apply (ledger_inv_same (db w) ms i (mdl w) (mdl (defaulted w))) in Hinv as Hinv0;
      [|done|by right].
    rewrite <- (list_insert_insert_eq ms i _ (mdl (defaulted w))).
    eapply ledger_inv_saved; try done.
    + apply list_lookup_insert_eq. by eapply lookup_lt_Some.
    + by apply Hover.
  - eapply ledger_inv_same; [done| |done]. by right.
  - eapply ledger_inv_same; [done| |done]. by right.
  - eapply ledger_inv_same; [done| |done]. by right.
  - by rewrite list_insert_id.
Qed.

(** The ledger of a reachable system is one that sessions write. *)
Lemma reachable_ledger_inv (sys : system) :
  reachable dict sys → ledger_inv (s_model <$> sessions sys) (ledger sys).
Proof.
  intros Hreach.
  induction Hreach as [|sys sys' Hreach IH Hstep].
  { constructor; [by split; constructor| |constructor|]; cbn.
    - by intros x j Hx%elem_of_nil.
    - intros j k a b _ Hj. by rewrite lookup_nil in Hj. }
  pose proof (reachable_model_ok dict sys Hreach) as Hoks.
  destruct Hstep as [sys width height e c w Hrun|sys i s msg e c w Hs Hmsg Hrun
                    |sys i s k rest e c w Hs Hk Hrun|sys]; cbn [sessions ledger].
  - rewrite Init_restarted in Hrun. simplify_eq.
    rewrite fmap_app. apply ledger_inv_snoc; [|done].
    unfold restarted, rescored. cbn. by destruct (getTotalScoreOk e).
  - eapply Forall_lookup_1 in Hoks; [|exact Hs].
    destruct (Update_handles dict e (world_of s (ledger sys)) msg Hoks)
      as (c' & w' & Hrun' & H).
    rewrite Hrun in Hrun'. simplify_eq.
    rewrite list_fmap_insert.
    replace (s_model (after c' w' s)) with (mdl w')
      by (unfold after; by destruct (schedule _ _ _)).
    eapply handles_ledger_inv; [exact H| |done].
    by rewrite list_lookup_fmap, Hs.
  - eapply Forall_lookup_1 in Hoks; [|exact Hs].
    destruct (Update_handles dict e (world_of s (ledger sys)) msgResetStatus Hoks)
      as (c' & w' & Hrun' & H).
    rewrite Hrun in Hrun'. simplify_eq.
    rewrite list_fmap_insert.
    replace (s_model (after c' w' _)) with (mdl w')
      by (unfold after; by destruct (schedule _ _ _)).
    eapply handles_ledger_inv; [exact H| |done].
    by rewrite list_lookup_fmap, Hs.
  - by eapply ledger_inv_nil.
Qed.

Lemma reachable_ledger_wf (sys : system) :
  reachable dict sys → store.ledger_wf (ledger sys).
Proof. intros Hreach. by destruct (reachable_ledger_inv sys Hreach). Qed.

End ledger_invariant.

(** ** The total score *)

(** The ledger of the session that won with its first guess: one game, worth
    100. *)
Example won_total_score :
  store.GetTotalScore (System.ledger (Examples.alone Examples.won)) = Some 100
  ∧ store.won_guess_counts (System.ledger (Examples.alone Examples.won)) = [1].
Proof. split; vm_compute; reflexivity. Qed.

(** ** The first revision: score, rejected words and reset *)

Section legacy_companions.
Import Legacy.
Variable isWord : string → bool.

Ltac to_nat_in H :=
  repeat match type of H with
         | context [Z.to_nat ?k] =>
             let n := eval vm_compute in (Z.to_nat k) in
             change (Z.to_nat k) with n in H
         end.

(** The statistics after a list of finished games count them by their number
    of guesses. *)
Lemma played_tally (games : list (option Z)) (d : db) :
  Z.of_nat (length games) < 2 ^ 63 →
  played games = Some d →
  ∃ a0 a1 a2 a3 a4 a5 a6,
    Guesses d = [a0; a1; a2; a3; a4; a5; a6]
    ∧ (0 <= a0 ∧ 0 <= a1 ∧ 0 <= a2 ∧ 0 <= a3 ∧ 0 <= a4 ∧ 0 <= a5 ∧ 0 <= a6)
    ∧ a0 + a1 + a2 + a3 + a4 + a5 + a6 = Z.of_nat (length games)
    ∧ 100 * a1 + 90 * a2 + 80 * a3 + 70 * a4 + 60 * a5 + 50 * a6
      = store.SUM ((λ k, 100 - 10 * (k - 1)) <$> omap id games).
Proof.
  revert d. induction games as [|game games IH] using rev_ind; intros d Hlen Hplayed.
  { unfold played in Hplayed. cbn in Hplayed. simplify_eq.
    exists 0, 0, 0, 0, 0, 0, 0. by cbn. }
  rewrite length_app in Hlen. cbn [length] in Hlen.
  unfold played in *. rewrite foldl_app in Hplayed. cbn [foldl] in Hplayed.
  destruct (foldl _ _ games) as [d0|]; [|done].
  destruct (IH d0) as (a0 & a1 & a2 & a3 & a4 & a5 & a6 & Hd0 & Hpos & Hsum & Hscore);
    [lia|done|].
  rewrite omap_app, fmap_app, SUM_app, length_app, <- Hscore. cbn [length].
  cbn [mbind option_bind] in Hplayed.
  destruct game as [k|]; cbn [omap id fmap list_fmap store.SUM foldr].
  - unfold addWin in Hplayed.
    destruct (bool_decide (1 <= k)) eqn:H1; [|done].
    destruct (bool_decide (k <= numGuesses)) eqn:H6; [|done].
    apply bool_decide_eq_true in H1, H6. unfold numGuesses in H6.
    rewrite Hd0 in Hplayed.
    assert (k = 1 ∨ k = 2 ∨ k = 3 ∨ k = 4 ∨ k = 5 ∨ k = 6) as Hk by lia.
    destruct Hk as [->|[->|[->|[->|[->| ->]]]]];
      unfold index in Hplayed; rewrite decide_True in Hplayed by lia;
      to_nat_in Hplayed;
      cbn -[int_incr] in Hplayed; rewrite int_incr_small in Hplayed by lia; simplify_eq;
      eexists _, _, _, _, _, _, _; (split; [reflexivity|]); cbn; lia.
  - unfold addLoss in Hplayed. rewrite Hd0 in Hplayed.
    unfold index in Hplayed. rewrite decide_True in Hplayed by lia.
    to_nat_in Hplayed.
    cbn -[int_incr] in Hplayed. rewrite int_incr_small in Hplayed by lia. simplify_eq.
    eexists _, _, _, _, _, _, _. (split; [reflexivity|]). cbn. lia.
Qed.

(** [db.score]: the score of the statistics is the sum of 100 - 10*(k-1)
    over the guess counts k of the games won; a lost game adds nothing. *)
Lemma legacy_score_is_sum (games : list (option Z)) (d : db) :
  Z.of_nat (length games) < 2 ^ 50 →
  played games = Some d →
  score_of d = store.SUM ((λ k, 100 - 10 * (k - 1)) <$> omap id games).
Proof.
  intros Hlen Hplayed.
  destruct (played_tally games d) as (a0 & a1 & a2 & a3 & a4 & a5 & a6
                                      & Hd & Hpos & Hsum & <-); [lia|done|].
  unfold score_of. rewrite Hd. cbn.
  repeat match goal with
         | |- context [int_wrap ?z] =>
             lazymatch z with
             | context [int_wrap _] => fail
             | _ => rewrite (int_wrap_small z) by lia
             end
         end.
  lia.
Qed.

(** [doAcceptWord] on a row that is incomplete or is not a word sets the
    status line for one second and changes nothing else; the file is not
    written. *)
Lemma legacy_rejected_word (e : env) (w : world) :
  gameOver (mdl w) = false →
  gridCol (mdl w) ≠ numChars
  ∨ (∃ guess, index (grid (mdl w)) (gridRow (mdl w)) = Done guess
              ∧ isWord (string_of_list_ascii guess) = false) →
  ∃ msg,
    doAcceptWord isWord e w
    = Done (Tick (1 * Second),
            mkWorld (set_statusPending (int_incr (statusPending (mdl w)))
                       (set_status msg (mdl w)))
              (file w)).
Proof.
  intros Hopen Hrejected. unfold doAcceptWord, setStatus.
  unfold mbind, M_bind, mret, M_ret, get, modify, lift.
  cbn beta iota zeta delta [mdl file]. rewrite Hopen.
  destruct (decide (gridCol (mdl w) ≠ numChars)) as [Hcol|Hcol].
  { eexists. reflexivity. }
  destruct Hrejected as [?|(guess & -> & Hword)]; [done|].
  rewrite Hword. eexists. reflexivity.
Qed.

(** [reset] starts a game on the same model: the cursor at the first cell,
    no key coloured, a new word; the grid array and the score are kept (the
    score is the one [db.score] gave when the last game ended or the program
    started), and the file is not written. *)
Lemma legacy_reset (e : env) (w : world) :
  ∃ m',
    reset e w = Done ((), mkWorld m' (file w))
    ∧ gameOver m' = false ∧ gridRow m' = 0 ∧ gridCol m' = 0
    ∧ keyStates m' = ∅
    ∧ word m' = copy_bytes (word (mdl w)) (bytes (randomWord e))
    ∧ grid m' = grid (mdl w)
    ∧ score m' = score (mdl w)
    ∧ status m' = "Score: " +:+ pretty (score (mdl w)).
Proof.
  unfold reset, resetStatus.
  unfold mbind, M_bind, mret, M_ret, ask, modify.
  cbn beta iota zeta delta [mdl file]. eexists. split; [reflexivity|]. done.
Qed.

End legacy_companions.

(** ** C1: the total score, in both revisions *)

(** [db.score] on seven counters: 100 for each game won with one guess, 90
    with two, down to 50 with six; the games lost count for nothing.  The
    bound keeps the 64-bit arithmetic of the loop from wrapping around. *)
Lemma score_of_tally (a0 a1 a2 a3 a4 a5 a6 : Z) :
  0 <= a0 ∧ 0 <= a1 ∧ 0 <= a2 ∧ 0 <= a3 ∧ 0 <= a4 ∧ 0 <= a5 ∧ 0 <= a6 →
  a0 + a1 + a2 + a3 + a4 + a5 + a6 < 2 ^ 50 →
  Legacy.score_of (Legacy.mkDb [a0; a1; a2; a3; a4; a5; a6])
  = 100 * a1 + 90 * a2 + 80 * a3 + 70 * a4 + 60 * a5 + 50 * a6.
Proof.
  intros Hpos Hsum. unfold Legacy.score_of. cbn.
  repeat match goal with
         | |- context [int_wrap ?z] =>
             lazymatch z with
             | context [int_wrap _] => fail
             | _ => rewrite (int_wrap_small z) by lia
             end
         end.
  lia.
Qed.

(** C1.  The total score is the sum over all persisted games of the
    per-game contribution, in both revisions of the ledger.

    The SQL ledger: what GetTotalScore returns (NULL read as 0) is the sum
    over the games of 100 - 10*(count-1) when the game's last guess equals
    its answer, count being the number of its guesses, and of 0 otherwise (a
    lost or unfinished game); which is the sum of 100 - 10*(k-1) over the
    guess counts k of the won games.  This holds of the ledger of every
    system of sessions that starts from an empty ledger, and more generally
    of every ledger in which a game has one identity and no guess of a game
    but its last equals the answer.

    The statistics of db.json: after any list of finished games, each
    recorded by [db.addWin] with its number of guesses or by [db.addLoss],
    [db.score] is the sum of 100 - 10*(k-1) over the guess counts k of the
    games won (fewer than 2^50 games, so that Go's 64-bit sum does not wrap
    around). *)
Theorem total_score_is_sum_of_contributions
    (dict : Session.Dictionary) (t : store.Tables)
    (games : list (option Z)) (d : Legacy.db) :
  (store.ledger_wf t ∨ (∃ sys, System.reachable dict sys ∧ t = System.ledger sys) →
   store.score_value (store.GetTotalScore t) = store.spec_TotalScore t ∧
   store.spec_TotalScore t
   = store.SUM ((λ k, 100 - 10 * (k - 1)) <$> store.won_guess_counts t))
  ∧
  (Z.of_nat (length games) < 2 ^ 50 → Legacy.played games = Some d →
   Legacy.score_of d
   = store.SUM ((λ k, 100 - 10 * (k - 1)) <$> omap id games)).
Proof.
  split.
  - intros [Hwf|(sys & Hreach & ->)]; apply GetTotalScore_spec; [done|].
    by eapply reachable_ledger_wf.
  - intros Hlen Hplayed.
    destruct (played_tally games d)
      as (a0 & a1 & a2 & a3 & a4 & a5 & a6 & Hd & Hpos & Hsum & <-); [lia|done|].
    destruct d as [counters]. cbn [Legacy.Guesses] in Hd. subst counters.
    apply score_of_tally; [done|lia].
Qed.

Lemma total_score_is_sum_of_contributions_witness :
  (store.score_value (store.GetTotalScore example_ledger) = 190
   ∧ store.spec_TotalScore example_ledger = 190)
  ∧ Legacy.played [Some 2; None; Some 1] = Some (Legacy.mkDb [1; 1; 1; 0; 0; 0; 0])
  ∧ Legacy.score_of (Legacy.mkDb [1; 1; 1; 0; 0; 0; 0]) = 190.
Proof.
  assert (store.ledger_wf example_ledger) as Hwf.
  { apply (bool_decide_unpack _). vm_compute. exact I. }
  assert (Hplayed : Legacy.played [Some 2; None; Some 1]
                    = Some (Legacy.mkDb [1; 1; 1; 0; 0; 0; 0]))
    by (vm_compute; reflexivity).
  pose proof (total_score_is_sum_of_contributions Examples.dict example_ledger
                [Some 2; None; Some 1] (Legacy.mkDb [1; 1; 1; 0; 0; 0; 0]))
    as [Hsql Hjson].
  split; [|split].
  - split; [|reflexivity].
    etransitivity; [exact (proj1 (Hsql (or_introl Hwf)))|]. reflexivity.
  - exact Hplayed.
  - etransitivity; [apply Hjson; [vm_compute; reflexivity|exact Hplayed]|].
    reflexivity.
Defined.

(** ** C7: restart, in both revisions *)

Section restart.
Import Session System.
Variable dict : Dictionary.
Variable isWord : string → bool.

(** C7.  A restart (ctrl+r in any state, or Enter once the game is won or
    lost) puts the cursor at row 0, column 0, empties the key states, clears
    the game-over flag, takes the answer the dictionary draws, shows the
    score, and writes nothing to the ledger.

    In the later revision ([doRestart]) the grid that [viewGrid] shows has
    no letter left (an empty current row and five empty rows), the game
    identity is cleared, and the score is read again from the ledger
    (keeping the old one if the query fails) before it is shown; the total
    score of the tables is what it was.

    In the first revision ([reset]) the grid shown has no letter left
    either (the grid array itself is kept), and the score shown is the one
    the model holds, [m.score], which [Init], [doWin] and [doLoss] set:
    db.json is neither read nor written, whatever it holds by now. *)
Theorem restart_starts_afresh :
  (∀ (e : env) (w : world) (msg : Msg),
     ((∃ runes, msg = KeyMsg KeyCtrlR runes) ∨
      (∃ runes, msg = KeyMsg KeyEnter runes) ∧ gameOver (mdl w) = true) →
     length (answer (mdl w)) = 5%nat → String.length (randomWord e) = 5%nat →
     ∃ w',
       Update dict msg e w = Done (CmdNil, w') ∧
       gridRow (mdl w') = 0 ∧ gridCol (mdl w') = 0 ∧
       viewGrid (mdl w')
       = (viewKey "_" colorPrimary :: replicate 4 (viewKey " " colorPrimary))
         :: replicate 5 (replicate 5 (viewKey " " colorPrimary)) ∧
       keyStates (mdl w') = ∅ ∧ gameOver (mdl w') = false ∧ gameID (mdl w') = 0 ∧
       answer (mdl w') = bytes (randomWord e) ∧
       score (mdl w') = (if getTotalScoreOk e
                         then store.score_value (store.GetTotalScore (db w))
                         else score (mdl w)) ∧
       status (mdl w') = "Score: " +:+ pretty (score (mdl w')) ∧
       db w' = db w ∧
       store.GetTotalScore (db w') = store.GetTotalScore (db w))
  ∧
  (∀ (e : Legacy.env) (w : Legacy.world) (msg : Msg),
     ((∃ runes, msg = KeyMsg KeyCtrlR runes) ∨
      (∃ runes, msg = KeyMsg KeyEnter runes)
      ∧ Legacy.gameOver (Legacy.mdl w) = true) →
     length (Legacy.word (Legacy.mdl w)) = 5%nat →
     String.length (Legacy.randomWord e) = 5%nat →
     ∃ m',
       Legacy.Update isWord msg e w = Done (CmdNil, Legacy.mkWorld m' (Legacy.file w)) ∧
       Legacy.gridRow m' = 0 ∧ Legacy.gridCol m' = 0 ∧
       Legacy.grid m' = Legacy.grid (Legacy.mdl w) ∧
       LegacyView.viewGrid m'
       = (viewKey "_" colorPrimary :: replicate 4 (viewKey " " colorPrimary))
         :: replicate 5 (replicate 5 (viewKey " " colorPrimary)) ∧
       Legacy.keyStates m' = ∅ ∧ Legacy.gameOver m' = false ∧
       Legacy.word m' = bytes (Legacy.randomWord e) ∧
       Legacy.score m' = Legacy.score (Legacy.mdl w) ∧
       Legacy.status m' = "Score: " +:+ pretty (Legacy.score (Legacy.mdl w)) ∧
       Legacy.statusPending m' = Legacy.statusPending (Legacy.mdl w) ∧
       Legacy.errors m' = Legacy.errors (Legacy.mdl w)).
Proof.
  split.
  - intros e w msg Hmsg Hdst Hsrc. rewrite Update_restarts by done.
    unfold mbind, M_bind. rewrite doRestart_run. cbn zeta. eexists.
    split; [reflexivity|]. cbn [mdl db].
    rewrite copy_bytes_full by (by rewrite length_bytes, Hsrc).
    destruct (mdl w), (getTotalScoreOk e); cbn; split_and!; reflexivity.
  - intros e w msg Hmsg Hdst Hsrc.
    assert (Hrun : Legacy.Update isWord msg e w
                   = (Legacy.reset;; mret CmdNil) e
                       (Legacy.mkWorld
                          (Legacy.set_status
                             ("Score: " +:+ pretty (Legacy.score (Legacy.mdl w)))
                             (Legacy.mdl w))
                          (Legacy.file w))).
    { destruct Hmsg as [[runes ->]|[[runes ->] Hover]]; [reflexivity|].
      unfold Legacy.Update, Legacy.resetStatus.
      unfold mbind, Legacy.M_bind, Legacy.modify, Legacy.get.
      cbn [Legacy.mdl Legacy.file].
      change (Legacy.gameOver (Legacy.set_status _ (Legacy.mdl w)))
        with (Legacy.gameOver (Legacy.mdl w)).
      by rewrite Hover. }
    rewrite Hrun. unfold Legacy.reset, Legacy.resetStatus.
    unfold mbind, Legacy.M_bind, mret, Legacy.M_ret, Legacy.ask, Legacy.modify.
    cbn beta iota zeta delta [Legacy.mdl Legacy.file].
    eexists. split; [reflexivity|]. cbn -[copy_bytes LegacyView.viewGrid].
    rewrite copy_bytes_full by (by rewrite length_bytes, Hsrc).
    split_and!; reflexivity.
Qed.

End restart.

Lemma restart_starts_afresh_witness :
  (∃ w', Session.Update Examples.dict Examples.enter Examples.fine Examples.won
         = Done (CmdNil, w')
         ∧ Session.gridRow (Session.mdl w') = 0 ∧ Session.gridCol (Session.mdl w') = 0
         ∧ Session.db w' = Session.db Examples.won)
  ∧
  (∃ m', Legacy.Update LegacyExamples.isWord (KeyMsg KeyCtrlR [])
           LegacyExamples.fine LegacyExamples.overtaken
         = Done (CmdNil, Legacy.mkWorld m' (Some LegacyExamples.one_win))
         ∧ Legacy.gridRow m' = 0 ∧ Legacy.gridCol m' = 0
         ∧ Legacy.status m' = "Score: 0").
Proof.
  pose proof (restart_starts_afresh Examples.dict LegacyExamples.isWord)
    as [Hlater Hfirst].
  split.
  - destruct (Hlater Examples.fine Examples.won Examples.enter)
      as (w' & Hrun & Hrow & Hcol & _ & _ & _ & _ & _ & _ & _ & Hdb & _).
    + right. split; [exists []; reflexivity|]. vm_compute. reflexivity.
    + vm_compute. reflexivity.
    + vm_compute. reflexivity.
    + exact (ex_intro _ w' (conj Hrun (conj Hrow (conj Hcol Hdb)))).
  - destruct (Hfirst LegacyExamples.fine LegacyExamples.overtaken (KeyMsg KeyCtrlR []))
      as (m' & Hrun & Hrow & Hcol & _ & _ & _ & _ & _ & _ & Hstatus & _).
    + left. exists []. reflexivity.
    + vm_compute. reflexivity.
    + vm_compute. reflexivity.
    + exists m'. split; [exact Hrun|]. split; [exact Hrow|]. split; [exact Hcol|].
      rewrite Hstatus. vm_compute. reflexivity.
Defined.

(** The first revision does not read the ledger when the game restarts.  A
    session starts where there is no db.json (score 0), another process
    records a game won with the first guess (worth 100), and ctrl+r then
    shows "Score: 0" over a file whose score is 100. *)
Lemma reset_shows_cached_score :
  Legacy.reachable LegacyExamples.isWord LegacyExamples.overtaken
  ∧ Legacy.file LegacyExamples.overtaken = Some LegacyExamples.one_win
  ∧ Legacy.score_of LegacyExamples.one_win = 100
  ∧ ∃ m', Legacy.Update LegacyExamples.isWord (KeyMsg KeyCtrlR [])
            LegacyExamples.fine LegacyExamples.overtaken
          = Done (CmdNil, Legacy.mkWorld m' (Some LegacyExamples.one_win))
          ∧ Legacy.score m' = 0
          ∧ Legacy.status m' = "Score: 0".
Proof.
  split_and!.
  - apply (Legacy.reachable_file LegacyExamples.isWord LegacyExamples.started).
    eapply (Legacy.reachable_Init LegacyExamples.isWord 0 0 None LegacyExamples.fine).
    vm_compute. reflexivity.
  - reflexivity.
  - vm_compute. reflexivity.
  - eexists. split; [vm_compute; reflexivity|]. split; vm_compute; reflexivity.
Qed.

(** ** The status resets of the first revision *)

Section legacy_timers.
Import Legacy Timed.
Variable isWord : string → bool.

Ltac run :=
  unfold mbind, M_bind, mret, M_ret, get, ask, modify, read_file, write_file,
    lift in *;
  cbn beta iota zeta delta [mdl file] in *.

Lemma setStatus_counted (msg : string) (d : Z) (e : env) (w : world) :
  ∃ c m', setStatus msg d e w = Done (c, mkWorld m' (file w))
          ∧ counted c (statusPending (mdl w)) (statusPending m')
          ∧ (d <= 0 → c = CmdNil).
Proof.
  unfold setStatus, counted. run. case_decide; eexists _, _;
    (split; [reflexivity|]); split; try done; intros; lia.
Qed.

Lemma reportError_counted (err msg : string) (e : env) (w : world) :
  ∃ c m', reportError err msg e w = Done (c, mkWorld m' (file w))
          ∧ counted c (statusPending (mdl w)) (statusPending m').
Proof.
  unfold reportError.
  destruct (setStatus_counted msg (3 * Second) e
              (mkWorld (set_errors (errors (mdl w) ++ [err]) (mdl w)) (file w)))
    as (c & m' & Hrun & Hc & _).
  run. rewrite Hrun. by eexists _, _.
Qed.

(** [withDb] on a function that leaves the count alone. *)
Lemma withDb_counted (f : db → M db) (e : env) (w : world) (c : Cmd) (w' : world) :
  (∀ d w0 d' w1, f d e w0 = Done (d', w1) →
                 statusPending (mdl w1) = statusPending (mdl w0)) →
  withDb f e w = Done (c, w') →
  counted c (statusPending (mdl w)) (statusPending (mdl w')).
Proof.
  intros Hf. unfold withDb, loadDb, save. run.
  destruct (loadOk e).
  - destruct (file w) as [d0|];
      match goal with |- context [f ?d e w] =>
        destruct (f d e w) as [[d' w1]|] eqn:Hrun; [|done];
        apply Hf in Hrun end;
      (destruct (saveOk e);
       [intros [= <- <-]; unfold counted; cbn; done|]);
      match goal with |- context [reportError ?a ?b e ?w] =>
        destruct (reportError_counted a b e w) as (c' & m' & Hrep & Hc) end;
      rewrite Hrep; intros [= <- <-]; cbn [mdl]; by rewrite <- Hrun.
  - match goal with |- context [reportError ?a ?b e ?w] =>
      destruct (reportError_counted a b e w) as (c' & m' & Hrep & Hc) end.
    rewrite Hrep. by intros [= <- <-].
Qed.

Lemma counted_Sequentially_nil (c : Cmd) (before after : Z) :
  counted c before after → counted (Sequentially c CmdNil) before after.
Proof. unfold counted. cbn. by destruct (sends c). Qed.

(** [doWin] and [doLoss]: the only command that can send a reset is the one
    [withDb] returns; the status they set is permanent. *)
Lemma ending_counted (f : db → M db) (msg : string) (e : env) (w : world)
    (c : Cmd) (w' : world) :
  (∀ d w0 d' w1, f d e w0 = Done (d', w1) →
                 statusPending (mdl w1) = statusPending (mdl w0)) →
  (c1 ← withDb f; c2 ← setStatus msg 0; mret (Sequentially c1 c2)) e w
  = Done (c, w') →
  counted c (statusPending (mdl w)) (statusPending (mdl w')).
Proof.
  intros Hf. unfold mbind at 1, M_bind at 1.
  destruct (withDb f e w) as [[c1 w1]|] eqn:Hdb; [|done].
  apply withDb_counted in Hdb; [|done].
  destruct (setStatus_counted msg 0 e w1) as (c2 & m2 & Hst & Hc2 & Hnil).
  unfold mbind at 1, M_bind at 1. rewrite Hst. rewrite (Hnil ltac:(lia)) in *.
  intros [= <- <-]. apply counted_Sequentially_nil. cbn [mdl].
  unfold counted in Hc2. cbn in Hc2. by rewrite Hc2.
Qed.

Lemma doWin_counted (e : env) (w : world) (c : Cmd) (w' : world) :
  doWin e w = Done (c, w') →
  counted c (statusPending (mdl w)) (statusPending (mdl w')).
Proof.
  unfold doWin. unfold mbind at 1, M_bind at 1, modify at 1.
  intros Hrun. apply ending_counted in Hrun; [done|].
  intros d w0 d' w1. run. destruct (addWin d (gridRow (mdl w0))); [|done].
  by intros [= <- <-].
Qed.

Lemma doLoss_counted (e : env) (w : world) (c : Cmd) (w' : world) :
  doLoss e w = Done (c, w') →
  counted c (statusPending (mdl w)) (statusPending (mdl w')).
Proof.
  unfold doLoss. unfold mbind at 1, M_bind at 1, modify at 1.
  unfold mbind at 1, M_bind at 1, get at 1.
  intros Hrun. apply ending_counted in Hrun; [done|].
  intros d w0 d' w1. run. destruct (addLoss d); [|done].
  by intros [= <- <-].
Qed.

Lemma doAcceptWord_counted (e : env) (w : world) (c : Cmd) (w' : world) :
  doAcceptWord isWord e w = Done (c, w') →
  counted c (statusPending (mdl w)) (statusPending (mdl w')).
Proof.
  unfold doAcceptWord. unfold mbind at 1, M_bind at 1, get at 1.
  destruct (gameOver (mdl w)); [by intros [= <- <-]|].
  case_decide as Hcol.
  { destruct (setStatus_counted "Your guess must be a 5-letter word." (1 * Second) e w)
      as (c1 & m1 & -> & Hc & _). by intros [= <- <-]. }
  unfold mbind at 1, M_bind at 1, lift at 1.
  destruct (index (grid (mdl w)) (gridRow (mdl w))) as [guess|]; [|done].
  destruct (isWord (string_of_list_ascii guess)); cbn [negb].
  2:{ destruct (setStatus_counted "That's not a valid word." (1 * Second) e w)
        as (c1 & m1 & -> & Hc & _). by intros [= <- <-]. }
  run. destruct (foldl _ _ _).1.
  - intros Hrun. by apply doWin_counted in Hrun.
  - case_decide.
    + intros Hrun. by apply doLoss_counted in Hrun.
    + by intros [= <- <-].
Qed.

(** What handling a message does to the count of pending resets. *)
Lemma legacy_Update_counted (e : env) (w : world) (msg : Msg) (c : Cmd) (w' : world) :
  Update isWord msg e w = Done (c, w') →
  match msg with
  | msgResetStatus =>
      c = CmdNil ∧ statusPending (mdl w') = int_decr (statusPending (mdl w))
  | _ => counted c (statusPending (mdl w)) (statusPending (mdl w'))
  end.
Proof.
  destruct msg as [|type runes|width height|].
  - unfold Update, resetStatus. run. by case_decide; intros [= <- <-].
  - unfold Update. unfold mbind at 1, M_bind at 1, resetStatus at 1, modify at 1.
    set (w0 := mkWorld _ (file w)).
    change (statusPending (mdl w)) with (statusPending (mdl w0)). clearbody w0.
    destruct type.
    + by intros [= <- <-].
    + unfold reset, resetStatus. run. by intros [= <- <-].
    + unfold doDeleteChar. run. by case_match; intros [= <- <-].
    + unfold mbind at 1, M_bind at 1, get at 1.
      destruct (gameOver (mdl w0)).
      * unfold reset, resetStatus. run. by intros [= <- <-].
      * apply doAcceptWord_counted.
    + destruct runes as [|ch [|]]; [by intros [= <- <-]| |by intros [= <- <-]].
      unfold doAcceptChar. run. case_match; [by intros [= <- <-]|].
      case_match; [|by intros [= <- <-]].
      destruct (grid_store _ _ _ _); [|done]. by intros [= <- <-].
    + by intros [= <- <-].
  - unfold Update, doResize. run. by intros [= <- <-].
  - by intros [= <- <-].
Qed.

Lemma legacy_Init_counted (e : env) (w : world) (c : Cmd) (w' : world) :
  Init e w = Done (c, w') →
  counted c (statusPending (mdl w)) (statusPending (mdl w')).
Proof.
  unfold Init. unfold mbind at 1, M_bind at 1, modify at 1.
  intros Hrun. apply withDb_counted in Hrun; [done|].
  intros d w0 d' w1. unfold reset, resetStatus. run. by intros [= <- <-].
Qed.

(** [statusPending] counts the resets that are pending. *)
Lemma after_pending_ok (c : Cmd) (w : world) (now : Z) (timers : list timer)
    (scheduled : nat) (before : Z) :
  before = int_wrap (Z.of_nat (length timers)) →
  counted c before (statusPending (mdl w)) →
  pending_ok (after c w now timers scheduled).
Proof.
  intros -> Hc. unfold pending_ok, after, counted in *.
  destruct (sends c) as [[|delay]|]; cbn [s_world s_timers]; rewrite Hc; try done.
  rewrite length_app. cbn [length]. unfold int_incr.
  rewrite int_wrap_wrap_add. f_equal. lia.
Qed.

Lemma reachable_pending_ok (s : session) : reachable isWord s → pending_ok s.
Proof.
  induction 1 as [width height f e c w Hrun|s s' Hreach IH Hstep].
  - apply legacy_Init_counted in Hrun. by eapply after_pending_ok.
  - destruct Hstep as [s msg t e c w Hmsg Hnow Hdue Hrun
                      |s before tm rest e c w Htimers Hdue Hrun|s f].
    + apply legacy_Update_counted in Hrun.
      eapply after_pending_ok; [exact IH|]. by destruct msg.
    + apply legacy_Update_counted in Hrun. destruct Hrun as [-> Hp].
      unfold pending_ok, after in *. cbn [sends s_world s_timers].
      rewrite Hp, IH, Htimers, !length_app. cbn [length]. unfold int_decr.
      replace (int_wrap (Z.of_nat (length before + S (length rest))) - 1)
        with (int_wrap (Z.of_nat (length before + S (length rest))) + -1) by lia.
      rewrite int_wrap_wrap_add. f_equal. lia.
    + exact IH.
Qed.

End legacy_timers.

(** ** C6: the status line and its scheduled resets, in both revisions *)

Section status_claim.
Import Session System.
Variable dict : Dictionary.
Variable isWord : string → bool.

(** C6.  Whatever the state, in both revisions, a status timer message takes
    one off the count of pending resets, and the status line goes back to
    "Score: N" if the count is then zero and is left as it is otherwise.  In
    a reachable session (with fewer than 2^63 resets pending) the count is
    the number of resets scheduled and not yet fired; so a reset that fires
    clears the status line if no other reset is pending, and otherwise
    leaves the status line, and all of the model but the count, untouched:
    the reset that clears the line is the last one to fire.

    In the later revision every status that is reset lasts one second, so
    the resets fire in the order they were scheduled: when the oldest
    pending reset fires, it clears the status line if it is the last reset
    the session has scheduled, and otherwise (a status was set, and its
    reset scheduled, after it) it leaves the status line untouched.

    In the first revision a status lasts one second or, for an error of
    db.json, three; whichever pending reset fires, it clears the status line
    exactly when it is the only one pending, whatever its rank among the
    resets scheduled. *)
Theorem status_reset_debounced :
  (∀ e w, ∃ w',
      Update dict msgResetStatus e w = Done (CmdNil, w') ∧
      statusPending (mdl w') = int_decr (statusPending (mdl w)) ∧
      (statusPending (mdl w') = 0 →
       status (mdl w') = "Score: " +:+ pretty (score (mdl w))) ∧
      (statusPending (mdl w') ≠ 0 → status (mdl w') = status (mdl w)))
  ∧
  (∀ sys i s k rest e,
      reachable dict sys → sessions sys !! i = Some s → s_ticks s = k :: rest →
      Z.of_nat (length (s_ticks s)) < 2 ^ 63 →
      ∃ w',
        Update dict msgResetStatus e (world_of s (ledger sys)) = Done (CmdNil, w') ∧
        statusPending (s_model s) = Z.of_nat (length (s_ticks s)) ∧
        statusPending (mdl w') = statusPending (s_model s) - 1 ∧
        (S k = s_scheduled s ↔ rest = []) ∧
        (S k = s_scheduled s →
         status (mdl w') = "Score: " +:+ pretty (score (s_model s))) ∧
        (S k ≠ s_scheduled s →
         mdl w' = set_statusPending (statusPending (s_model s) - 1) (s_model s)))
  ∧
  (∀ e w, ∃ m',
      Legacy.Update isWord msgResetStatus e w
      = Done (CmdNil, Legacy.mkWorld m' (Legacy.file w)) ∧
      Legacy.statusPending m' = int_decr (Legacy.statusPending (Legacy.mdl w)) ∧
      (Legacy.statusPending m' = 0 →
       Legacy.status m' = "Score: " +:+ pretty (Legacy.score (Legacy.mdl w))) ∧
      (Legacy.statusPending m' ≠ 0 →
       Legacy.status m' = Legacy.status (Legacy.mdl w)))
  ∧
  (∀ s before tm rest e,
      Timed.reachable isWord s →
      Timed.s_timers s = before ++ tm :: rest →
      Z.of_nat (length (Timed.s_timers s)) < 2 ^ 63 →
      ∃ m',
        Legacy.Update isWord msgResetStatus e (Timed.s_world s)
        = Done (CmdNil, Legacy.mkWorld m' (Legacy.file (Timed.s_world s))) ∧
        Legacy.statusPending (Legacy.mdl (Timed.s_world s))
        = Z.of_nat (length (Timed.s_timers s)) ∧
        Legacy.statusPending m'
        = Legacy.statusPending (Legacy.mdl (Timed.s_world s)) - 1 ∧
        (before ++ rest = [] →
         Legacy.status m'
         = "Score: " +:+ pretty (Legacy.score (Legacy.mdl (Timed.s_world s)))) ∧
        (before ++ rest ≠ [] →
         m' = Legacy.set_statusPending
                (Legacy.statusPending (Legacy.mdl (Timed.s_world s)) - 1)
                (Legacy.mdl (Timed.s_world s)))).
Proof.
  pose proof (Update_timer dict) as Hstep.
  assert (Hlegacy : ∀ e w,
    Legacy.Update isWord msgResetStatus e w
    = Done (CmdNil,
            Legacy.mkWorld
              (let m := Legacy.set_statusPending
                          (int_decr (Legacy.statusPending (Legacy.mdl w)))
                          (Legacy.mdl w) in
               if decide (Legacy.statusPending m = 0)
               then Legacy.set_status ("Score: " +:+ pretty (Legacy.score m)) m
               else m)
              (Legacy.file w))).
  { intros e w. unfold Legacy.Update, Legacy.resetStatus.
    unfold mbind, Legacy.M_bind, mret, Legacy.M_ret, Legacy.get, Legacy.modify.
    cbn beta iota zeta delta [Legacy.mdl Legacy.file]. by case_decide. }
  split_and!.
  - intros e w. exists (timed_out w). split; [apply Hstep|].
    unfold timed_out. cbn zeta. case_decide as Hz; cbn; split_and!; done.
  - intros sys i s k rest e Hreach Hs Hk Hbound.
    pose proof (reachable_ticks_ok dict sys Hreach) as Hall.
    eapply Forall_lookup_1 in Hall; [|exact Hs].
    destruct Hall as (Hlen & Hseq & Hp).
    rewrite int_wrap_small in Hp by lia.
    exists (timed_out (world_of s (ledger sys))). split; [apply Hstep|].
    assert (Hlast : S k = s_scheduled s ↔ rest = []).
    { rewrite Hk in Hseq, Hlen. cbn [length] in *.
      cbn [seq] in Hseq. injection Hseq as Hkk Hrest.
      split.
      - intros HS. apply nil_length_inv. lia.
      - intros ->. cbn in *. lia. }
    assert (Hdecr : int_decr (statusPending (s_model s)) = Z.of_nat (length rest)).
    { rewrite Hp. rewrite Hk in *. cbn [length] in *. rewrite int_decr_small by lia. lia. }
    unfold timed_out. cbn zeta. cbn [world_of mdl statusPending set_statusPending].
    rewrite Hdecr. split_and!; try done.
    + rewrite Hp, Hk. cbn [length]. by case_decide; cbn; lia.
    + intros HS. apply Hlast in HS as ->. by rewrite decide_True.
    + intros HS. rewrite decide_False.
      * f_equal. rewrite Hp, Hk. cbn [length]. lia.
      * intros Hz. apply HS, Hlast. apply nil_length_inv. lia.
  - intros e w. eexists. split; [apply Hlegacy|].
    cbn zeta. case_decide as Hz; cbn; split_and!; done.
  - intros s before tm rest e Hreach Htimers Hbound.
    pose proof (reachable_pending_ok isWord s Hreach) as Hp.
    unfold Timed.pending_ok in Hp. rewrite int_wrap_small in Hp by lia.
    eexists. split; [apply Hlegacy|].
    assert (Hlen : length (Timed.s_timers s) = S (length (before ++ rest))).
    { rewrite Htimers, !length_app. cbn [length]. lia. }
    assert (Hdecr : int_decr (Legacy.statusPending (Legacy.mdl (Timed.s_world s)))
                    = Z.of_nat (length (before ++ rest))).
    { rewrite Hp, Hlen. rewrite int_decr_small by lia. lia. }
    cbn zeta. cbn [Legacy.statusPending Legacy.set_statusPending].
    rewrite Hdecr. split_and!; try done.
    + rewrite Hp, Hlen. by case_decide; cbn; lia.
    + intros ->. by rewrite decide_True.
    + intros Hmore. rewrite decide_False.
      * f_equal. rewrite Hp, Hlen. lia.
      * intros Hz. apply Hmore. apply nil_length_inv. lia.
Qed.

End status_claim.

(** *** Two statuses pending at once *)

Section two_pending.
Import Session System Examples.

(** Enter once more on the incomplete row C, R, A, N, while the reset of the
    first warning is pending. *)
Lemma warned_twice_reachable : reachable dict warned_twice_system.
Proof.
  pose proof (step_event dict warned_system 0 warned_session enter fine
                (Tick (1 * Second)) warned_twice eq_refl ltac:(discriminate)
                ltac:(vm_compute; reflexivity)) as H.
  match type of H with
  | step _ _ ?sys' =>
      replace sys' with warned_twice_system in H by (vm_compute; reflexivity)
  end.
  exact (reachable_step dict _ _ warned_reachable H).
Qed.

(** The reset of the first warning fires. *)
Lemma one_left_reachable : reachable dict one_left_system.
Proof.
  pose proof (step_timer dict warned_twice_system 0 warned_twice_session 0 [1%nat]
                fine CmdNil one_left eq_refl eq_refl
                ltac:(vm_compute; reflexivity)) as H.
  match type of H with
  | step _ _ ?sys' =>
      replace sys' with one_left_system in H by (vm_compute; reflexivity)
  end.
  exact (reachable_step dict _ _ warned_twice_reachable H).
Qed.

End two_pending.

Section mixed_durations.
Import Legacy Timed LegacyExamples Mixed.

Lemma failed_reachable : reachable isWord failed.
Proof.
  pose proof (reachable_Init isWord 0 0 None unreadable
                (Tick (3 * Second)) (s_world failed)
                ltac:(vm_compute; reflexivity)) as H.
  match type of H with
  | reachable _ ?s => replace s with failed in H by (vm_compute; reflexivity)
  end.
  exact H.
Qed.

(** Enter at one second: no reset is overdue. *)
Lemma both_pending_step : step isWord failed both_pending.
Proof.
  pose proof (step_event isWord failed enter (1 * Second) fine
                (Tick (1 * Second)) (s_world both_pending)
                ltac:(discriminate)) as H.
  match type of H with
  | _ → _ → _ → step _ _ ?s =>
      replace s with both_pending in H by (vm_compute; reflexivity)
  end.
  apply H.
  - vm_compute. discriminate.
  - apply (bool_decide_unpack _). vm_compute. exact I.
  - vm_compute. reflexivity.
Qed.

(** Of the two resets pending, the one scheduled last is due first, at two
    seconds; the one scheduled first is due at three. *)
Lemma first_fired_step : step isWord both_pending first_fired.
Proof.
  pose proof (step_timer isWord both_pending [mkTimer 0 (3 * Second)]
                (mkTimer 1 (2 * Second)) [] fine CmdNil (s_world first_fired)) as H.
  match type of H with
  | _ → _ → _ → step _ _ ?s =>
      replace s with first_fired in H by (vm_compute; reflexivity)
  end.
  apply H.
  - vm_compute. reflexivity.
  - apply (bool_decide_unpack _). vm_compute. exact I.
  - vm_compute. reflexivity.
Qed.

Lemma second_fired_step : step isWord first_fired second_fired.
Proof.
  pose proof (step_timer isWord first_fired [] (mkTimer 0 (3 * Second)) []
                fine CmdNil (s_world second_fired)) as H.
  match type of H with
  | _ → _ → _ → step _ _ ?s =>
      replace s with second_fired in H by (vm_compute; reflexivity)
  end.
  apply H.
  - vm_compute. reflexivity.
  - apply (bool_decide_unpack _). vm_compute. exact I.
  - vm_compute. reflexivity.
Qed.

Lemma both_pending_reachable : reachable isWord both_pending.
Proof. exact (reachable_step isWord _ _ failed_reachable both_pending_step). Qed.

End mixed_durations.

Lemma status_reset_debounced_witness :
  (∃ w' w'',
      Session.Update Examples.dict msgResetStatus Examples.fine
        (System.world_of warned_twice_session (System.ledger warned_twice_system))
      = Done (CmdNil, w')
      ∧ Session.status (Session.mdl w') = "Your guess must be a 5-letter word."
      ∧ Session.Update Examples.dict msgResetStatus Examples.fine
          (System.world_of one_left_session (System.ledger one_left_system))
        = Done (CmdNil, w'')
      ∧ Session.status (Session.mdl w'') = "Score: 0")
  ∧
  (∃ m',
      Legacy.Update LegacyExamples.isWord msgResetStatus LegacyExamples.fine
        (Timed.s_world Mixed.both_pending)
      = Done (CmdNil, Legacy.mkWorld m' None)
      ∧ Legacy.statusPending m' = 1
      ∧ Legacy.status m' = "Your guess must be a 5-letter word.").
Proof.
  pose proof (status_reset_debounced Examples.dict LegacyExamples.isWord)
    as (_ & Hlater & _ & Hfirst).
  split.
  - destruct (Hlater warned_twice_system 0%nat warned_twice_session 0%nat [1%nat]
                Examples.fine warned_twice_reachable eq_refl eq_refl)
      as (w' & Hrun & _ & _ & _ & _ & Hkept); [vm_compute; reflexivity|].
    destruct (Hlater one_left_system 0%nat one_left_session 1%nat []
                Examples.fine one_left_reachable eq_refl eq_refl)
      as (w'' & Hrun' & _ & _ & _ & Hcleared & _); [vm_compute; reflexivity|].
    exists w', w''. split; [exact Hrun|]. split.
    + rewrite (Hkept ltac:(vm_compute; discriminate)). vm_compute. reflexivity.
    + split; [exact Hrun'|].
      rewrite (Hcleared ltac:(vm_compute; reflexivity)). vm_compute. reflexivity.
  - destruct (Hfirst Mixed.both_pending
                [Timed.mkTimer 0 (3 * Second)] (Timed.mkTimer 1 (2 * Second)) []
                LegacyExamples.fine both_pending_reachable)
      as (m' & Hrun & _ & Hcount & _ & Hkept).
    + vm_compute. reflexivity.
    + vm_compute. reflexivity.
    + exists m'. split; [exact Hrun|]. split.
      * rewrite Hcount. vm_compute. reflexivity.
      * rewrite (Hkept ltac:(discriminate)). vm_compute. reflexivity.
Defined.

(** In the first revision the reset that clears the status line need not be
    the last one scheduled.  The program starts and cannot read db.json:
    "Error loading database.", with a reset after three seconds.  At one
    second Enter is pressed on the empty row: "Your guess must be a 5-letter
    word.", with a reset after one second.  That reset, the last one
    scheduled, fires at two seconds and leaves the status line as it is; the
    reset scheduled first fires at three seconds and clears the status that
    was set after it. *)
Lemma earlier_reset_clears_later_status :
  Timed.reachable LegacyExamples.isWord Mixed.both_pending
  ∧ Timed.s_timers Mixed.both_pending
    = [Timed.mkTimer 0 (3 * Second); Timed.mkTimer 1 (2 * Second)]
  ∧ Legacy.status (Legacy.mdl (Timed.s_world Mixed.both_pending))
    = "Your guess must be a 5-letter word."
  ∧ Timed.step LegacyExamples.isWord Mixed.both_pending Mixed.first_fired
  ∧ Timed.s_timers Mixed.first_fired = [Timed.mkTimer 0 (3 * Second)]
  ∧ Legacy.status (Legacy.mdl (Timed.s_world Mixed.first_fired))
    = "Your guess must be a 5-letter word."
  ∧ Timed.step LegacyExamples.isWord Mixed.first_fired Mixed.second_fired
  ∧ Timed.s_timers Mixed.second_fired = []
  ∧ Legacy.status (Legacy.mdl (Timed.s_world Mixed.second_fired)) = "Score: 0".
Proof.
  split_and!.
  - exact both_pending_reachable.
  - vm_compute. reflexivity.
  - vm_compute. reflexivity.
  - exact first_fired_step.
  - vm_compute. reflexivity.
  - vm_compute. reflexivity.
  - exact second_fired_step.
  - vm_compute. reflexivity.
  - vm_compute. reflexivity.
Qed.

(** ** The evaluator marks as many letters as it can *)

Lemma count_0_not_elem (c : byte) (l : list byte) : c ∉ l → count c l = 0%nat.
Proof.
  intros Hc. unfold count. induction l as [|x l IH]; [done|].
  rewrite filter_cons. apply not_elem_of_cons in Hc as [Hne Hc].
  rewrite decide_False by done. by apply IH.
Qed.

Lemma marked_le_count (P : keyState → bool) (c : byte) (guess : list byte)
    (ks : list keyState) :
  (marked P c guess ks ≤ count c guess)%nat.
Proof.
  unfold marked, count. revert ks.
  induction guess as [|g guess IH]; intros [|s ks]; cbn [zip zip_with]; try done.
  - rewrite filter_nil. cbn. lia.
  - rewrite !filter_cons. cbn [fst snd]. specialize (IH ks).
    repeat case_decide; cbn [length]; try lia. exfalso; intuition congruence.
Qed.

(** If every position of the guess that holds [c] satisfies [P], all the
    occurrences of [c] are marked. *)
Lemma marked_all (P : keyState → bool) (c : byte) (guess : list byte)
    (ks : list keyState) :
  length ks = length guess →
  (∀ i, (i < length guess)%nat → guess !!! i = c → P (ks !!! i) = true) →
  marked P c guess ks = count c guess.
Proof.
  unfold marked, count. revert ks.
  induction guess as [|g guess IH]; intros [|s ks] Hlen Hall; try done.
  cbn [zip zip_with]. rewrite !filter_cons. cbn [fst snd length] in *.
  assert (IH' : length (filter (λ p, p.1 = c ∧ P p.2 = true) (zip guess ks))
                = length (filter (λ x, x = c) guess)).
  { apply IH; [lia|]. intros i Hi. apply (Hall (S i)). lia. }
  pose proof (Hall 0%nat ltac:(lia)) as H0. cbn in H0.
  repeat case_decide; cbn [length]; try lia; exfalso; intuition congruence.
Qed.

Section exactness.
Variables answer word : list byte.
Hypothesis answer_length : length answer = Z.to_nat numChars.
Hypothesis word_length : length word = Z.to_nat numChars.

Lemma pass2_exact_init (st : eval_state) :
  pass1_inv answer word (Z.to_nat numChars) st → pass2_exact word 0 st.
Proof.
  intros (_ & _ & _ & Hdone & _). split; [|intros i Hi; lia].
  intros i Hi. rewrite (Hdone i Hi). by case_decide.
Qed.

Lemma pass2_exact_step (k : nat) (st : eval_state) :
  (k < Z.to_nat numChars)%nat →
  pass2_inv answer word k st → pass2_exact word k st →
  pass2_exact word (S k) (markPresent word st k).
Proof.
  intros Hk (Hl1 & Hl2 & Hrest & Hcor & Hcnt) [Hsel Hgone]. unfold markPresent.
  case_decide as Hc; [|case_decide as Hf]; unfold pass2_exact; cbn [fst snd].
  - split; [done|]. intros i Hi Habs Hne.
    destruct (decide (i = k)) as [->|Hik]; [congruence|]. apply Hgone; [lia|done..].
  - destruct (IndexByte_found _ _ Hf) as [Hge Hlk]. split.
    + intros i Hi. destruct (decide (i = k)) as [->|Hik].
      * by rewrite list_lookup_total_insert_eq by lia.
      * rewrite list_lookup_total_insert_ne by done. by apply Hsel.
    + intros i Hi Habs Hne. destruct (decide (i = k)) as [->|Hik].
      { by rewrite list_lookup_total_insert_eq in Habs by lia. }
      rewrite list_lookup_total_insert_ne in Habs by done.
      pose proof (Hgone i ltac:(lia) Habs Hne) as H0.
      pose proof (count_insert (word !!! i) byte0 _ st.2 _ Hlk) as Hn.
      clear -H0 Hn Hne. count_cases.
  - split; [done|]. intros i Hi Habs Hne.
    destruct (decide (i = k)) as [->|Hik]; [|apply Hgone; [lia|done..]].
    apply count_0_not_elem, IndexByte_absent.
    destruct (decide (IndexByte st.2 (word !!! k) = -1)) as [?|Hx]; [done|by destruct Hf].
Qed.

Lemma pass2_exact_final :
  let st := foldl (markPresent word)
              (foldl (markCorrect answer word)
                 (replicate (Z.to_nat numChars) keyStateAbsent, answer) (upto numChars))
              (upto numChars) in
  pass2_inv answer word (Z.to_nat numChars) st
  ∧ pass2_exact word (Z.to_nat numChars) st.
Proof.
  cbn zeta. unfold upto at 1.
  apply (foldl_seq_invariant
           (λ k st, pass2_inv answer word k st ∧ pass2_exact word k st)).
  - pose proof (pass1_inv_final answer word answer_length word_length) as H1.
    split; [by apply pass2_inv_init|by apply pass2_exact_init].
  - intros k st Hk [Hinv Hex].
    split; [by apply pass2_inv_step|by apply pass2_exact_step].
Qed.

End exactness.

(** For an answer and a guess of five bytes, the evaluation gives every
    position one of Absent, Present and Correct, and for every letter [c]
    (every byte but the zero byte) the positions holding [c] that it marks
    Correct or Present are as many as the answer allows: the smaller of the
    occurrences of [c] in the guess and in the answer. *)
Theorem evaluate_marks_all_it_can (answer guess : list byte) (c : byte) :
  length answer = 5%nat → length guess = 5%nat → c ≠ byte0 →
  length (gridRowKeyStates answer guess) = 5%nat ∧
  (∀ i, (i < 5)%nat → gridRowKeyStates answer guess !!! i ≠ keyStateUnselected) ∧
  marked isHit c guess (gridRowKeyStates answer guess)
  = (count c guess `min` count c answer)%nat.
Proof.
  intros Ha Hg Hc.
  destruct (pass2_exact_final answer guess Ha Hg)
    as [(Hl1 & _ & _ & _ & Hcnt) [Hsel Hgone]].
  unfold gridRowKeyStates. rewrite markAbsent_all.
  set (st := foldl _ _ _) in *. specialize (Hcnt c Hc).
  split_and!; [done|done|].
  pose proof (marked_le_count isHit c guess st.1) as Hle.
  destruct (decide (Exists (λ i, guess !!! i = c ∧ st.1 !!! i = keyStateAbsent)
                      (seq 0 5))) as [Hex|Hnone].
  - apply Exists_exists in Hex as (i & Hi%elem_of_seq & Hgi & Habs).
    pose proof (Hgone i ltac:(unfold numChars; lia) Habs) as H0.
    rewrite Hgi in H0. specialize (H0 Hc). lia.
  - assert (marked isHit c guess st.1 = count c guess) as Hall; [|lia].
    apply marked_all; [by rewrite Hl1, Hg|]. rewrite Hg. intros i Hi Hgi.
    pose proof (Hsel i ltac:(unfold numChars; lia)) as Hs.
    destruct (st.1 !!! i) eqn:Hst; try done. destruct Hnone.
    apply Exists_exists. exists i. split; [apply elem_of_seq; lia|done].
Qed.

Lemma evaluate_marks_all_it_can_witness :
  marked isHit "E" (bytes "ERASE") (gridRowKeyStates (bytes "SPEED") (bytes "ERASE"))
  = (count "E" (bytes "ERASE") `min` count "E" (bytes "SPEED"))%nat.
Proof.
  apply (evaluate_marks_all_it_can (bytes "SPEED") (bytes "ERASE") "E");
    [reflexivity|reflexivity|discriminate].
Defined.

(** ** Proving invariants of sessions *)

Section session_invariants.
Import Session System.
Variable dict : Dictionary.

Lemma s_model_after (c : Cmd) (w : world) (s : session) :
  s_model (after c w s) = mdl w.
Proof. unfold after. by destruct (schedule _ _ _). Qed.

(** A property of models that a new session has and that the handling of
    every message keeps holds of every session of every reachable system. *)
Lemma reachable_sessions (P : model → Prop) :
  (∀ width height e t,
     P (mdl (restarted e
               (mkWorld (set_windowHeight height (set_windowWidth width newModel))
                  t [])))) →
  (∀ e w msg c w',
     model_ok (mdl w) → P (mdl w) → handles dict e w msg c w' → P (mdl w')) →
  ∀ sys, reachable dict sys → Forall (λ s, P (s_model s)) (sessions sys).
Proof.
  intros Hnew Hkeep sys Hreach.
  induction Hreach as [|sys sys' Hreach IH Hstep]; [constructor|].
  pose proof (reachable_model_ok dict sys Hreach) as Hoks.
  destruct Hstep as [sys width height e c w Hrun|sys i s msg e c w Hs Hmsg Hrun
                    |sys i s k rest e c w Hs Hk Hrun|sys]; cbn [sessions].
  - apply Forall_app. split; [done|]. apply Forall_singleton.
    rewrite Init_restarted in Hrun. simplify_eq. rewrite s_model_after. apply Hnew.
  - apply Forall_insert; [done|]. rewrite s_model_after.
    eapply Forall_lookup_1 in Hoks; [|exact Hs].
    eapply Forall_lookup_1 in IH; [|exact Hs].
    destruct (Update_handles dict e (world_of s (ledger sys)) msg Hoks)
      as (c' & w' & Hrun' & H).
    rewrite Hrun in Hrun'. simplify_eq. exact (Hkeep e (world_of s (ledger sys)) _ _ _ Hoks IH H).
  - apply Forall_insert; [done|]. rewrite s_model_after.
    eapply Forall_lookup_1 in Hoks; [|exact Hs].
    eapply Forall_lookup_1 in IH; [|exact Hs].
    destruct (Update_handles dict e (world_of s (ledger sys)) msgResetStatus Hoks)
      as (c' & w' & Hrun' & H).
    rewrite Hrun in Hrun'. simplify_eq. exact (Hkeep e (world_of s (ledger sys)) _ _ _ Hoks IH H).
  - constructor.
Qed.

End session_invariants.

(** ** The key states of the keyboard *)

Lemma keyState_max_int (a b : keyState) :
  keyState_int (keyState_max a b) = keyState_int a `max` keyState_int b.
Proof. unfold keyState_max. case_decide; lia. Qed.

Lemma keyStates_get_insert (ks : gmap byte keyState) (key key' : byte) (s : keyState) :
  keyStates_get (<[key := s]> ks) key'
  = if decide (key = key') then s else keyStates_get ks key'.
Proof.
  unfold keyStates_get. case_decide as Hk.
  - subst. by rewrite lookup_insert_eq.
  - by rewrite lookup_insert_ne.
Qed.

Section keyboard_keys.
Import Session.

Lemma acceptKey_snd (answer guess : list byte) (st : bool * gmap byte keyState)
    (idx : nat) :
  (acceptKey answer guess st idx).2
  = <[guess !!! idx := keyState_max (keyVerdict answer guess idx)
                         (keyStates_get st.2 (guess !!! idx))]> st.2.
Proof. unfold acceptKey, keyVerdict. by repeat case_decide. Qed.

Lemma IndexByte_elem_of (b : list byte) (c : byte) : IndexByte b c ≠ -1 ↔ c ∈ b.
Proof.
  split.
  - intros [_ H]%IndexByte_found. by eapply list_elem_of_lookup_2.
  - intros Hc Hi. by apply IndexByte_absent in Hi.
Qed.

Lemma keyVerdict_sound (answer guess : list byte) (idx : nat) :
  (idx < length answer)%nat →
  match keyVerdict answer guess idx with
  | keyStateUnselected => False
  | keyStateAbsent => guess !!! idx ∉ answer
  | keyStatePresent | keyStateCorrect => guess !!! idx ∈ answer
  end.
Proof.
  intros Hidx. unfold keyVerdict. case_decide as Heq; [|case_decide as Hin].
  - rewrite Heq. by apply list_elem_of_lookup_total_2.
  - by apply IndexByte_elem_of.
  - intros Hc. apply IndexByte_elem_of in Hc. by destruct Hin.
Qed.

End keyboard_keys.

Section keyboard_loop.
Import Session.
Variables answer guess : list byte.
Variable ks : gmap byte keyState.
Hypothesis answer_length : length answer = Z.to_nat numChars.

(** What the loop over the guess has done to the key states once it has
    visited the positions below [k]. *)
Lemma acceptKey_loop (b : bool) (k : nat) :
  (k ≤ Z.to_nat numChars)%nat →
  let st := foldl (acceptKey answer guess) (b, ks) (seq 0 k) in
  (∀ key, keyState_int (keyStates_get ks key)
          <= keyState_int (keyStates_get st.2 key)) ∧
  (∀ key, (∀ i, (i < k)%nat → guess !!! i ≠ key) →
          keyStates_get st.2 key = keyStates_get ks key) ∧
  (∀ i, (i < k)%nat →
        keyState_int (keyVerdict answer guess i)
        <= keyState_int (keyStates_get st.2 (guess !!! i))) ∧
  (key_sound answer ks → key_sound answer st.2).
Proof.
  intros Hk. cbn zeta.
  induction k as [|k IH].
  { cbn. split_and!; [lia|done|lia|done]. }
  rewrite seq_S, foldl_app. cbn [foldl Nat.add].
  destruct IH as (Hup & Hsame & Hverdict & Hsound); [lia|].
  set (st := foldl _ _ _) in *. rewrite acceptKey_snd.
  split_and!.
  - intros key. rewrite keyStates_get_insert. specialize (Hup key).
    case_decide as Hkey; [|done]. subst. rewrite keyState_max_int. lia.
  - intros key Hkey. rewrite keyStates_get_insert.
    rewrite decide_False by (apply Hkey; lia). apply Hsame. intros i Hi. apply Hkey. lia.
  - intros i Hi. rewrite keyStates_get_insert.
    destruct (decide (i = k)) as [->|Hik].
    + rewrite decide_True by done. rewrite keyState_max_int. lia.
    + specialize (Hverdict i ltac:(lia)). case_decide as Hkey; [|done].
      rewrite keyState_max_int, Hkey. lia.
  - intros Hks key. specialize (Hsound Hks key). rewrite keyStates_get_insert.
    case_decide as Hkey; [|done]. subst key.
    pose proof (keyVerdict_sound answer guess k ltac:(lia)) as Hv.
    unfold keyState_max. case_decide; [done|].
    by destruct (keyVerdict answer guess k).
Qed.

End keyboard_loop.

(** ** What [Update] does with each key, exactly *)

Section update_steps.
Import Session System.
Variable dict : Dictionary.

Lemma Update_key (type : KeyType) (runes : list Z) (e : env) (w : world) :
  Update dict (KeyMsg type runes) e w
  = match type with
    | KeyCtrlC => doExit
    | KeyCtrlR => doRestart;; mret CmdNil
    | KeyBackspace => doDeleteChar
    | KeyEnter =>
        if gameOver (mdl w) then doRestart;; mret CmdNil else doAcceptGuess dict
    | KeyRunes =>
        match runes with
        | [ch] => doAcceptChar ch
        | _ => mret CmdNil
        end
    | KeyOther => mret CmdNil
    end e (defaulted w).
Proof. by destruct type. Qed.

(** Enter on a complete row that is a word. *)
Lemma Update_enter_accepts (runes : list Z) (e : env) (w : world) (guess : list byte) :
  model_ok (mdl w) → gameOver (mdl w) = false → gridCol (mdl w) = numChars →
  grid (mdl w) !! Z.to_nat (gridRow (mdl w)) = Some guess →
  IsWord dict (string_of_list_ascii guess) = true →
  Update dict (KeyMsg KeyEnter runes) e w
  = Done (CmdNil, accepted guess e (defaulted w)).
Proof.
  intros Hok Hgo Hcol Hrow Hword. rewrite Update_key, Hgo.
  apply doAcceptGuess_accepts; try done. by apply model_ok_status.
Qed.

(** What an accepted guess leaves in the fields of the model. *)
Lemma accepted_fields (guess : list byte) (e : env) (w : world) :
  let m' := mdl (accepted guess e w) in
  grid m' = grid (mdl w) ∧ answer m' = answer (mdl w)
  ∧ keyStates m'
    = (foldl (acceptKey (answer (mdl w)) guess) (true, keyStates (mdl w))
         (upto numChars)).2
  ∧ gridRow m' = int_incr (gridRow (mdl w)) ∧ gridCol m' = 0
  ∧ statusPending m' = statusPending (mdl w)
  ∧ windowHeight m' = windowHeight (mdl w) ∧ windowWidth m' = windowWidth (mdl w).
Proof.
  cbn zeta.
  assert (Hsaved : mdl (saved (string_of_list_ascii guess) e w)
                   = set_gameID (gameID (mdl (saved (string_of_list_ascii guess) e w)))
                       (mdl w)).
  { unfold saved. cbn zeta. repeat case_match; try done; by destruct (mdl w). }
  unfold accepted, ended, rescored, moved. cbn zeta.
  set (w1 := saved _ _ _) in *.
  case_bool_decide; [|case_decide]; cbn [mdl]; try destruct (getTotalScoreOk e);
    cbn; rewrite Hsaved; done.
Qed.

(** A letter typed into an incomplete row. *)
Lemma Update_char_accepts (ch : Z) (e : env) (w : world) :
  model_ok (mdl w) → gameOver (mdl w) = false → gridCol (mdl w) < numChars →
  isAsciiUpper (toAsciiUpper ch) = true →
  ∃ row,
    grid (mdl w) !! Z.to_nat (gridRow (mdl w)) = Some row ∧
    Update dict (KeyMsg KeyRunes [ch]) e w
    = Done (CmdNil,
            mkWorld
              (set_gridCol (gridCol (mdl w) + 1)
                 (set_grid (<[Z.to_nat (gridRow (mdl w)) :=
                              <[Z.to_nat (gridCol (mdl w)) :=
                                  byte_of_rune (toAsciiUpper ch)]> row]> (grid (mdl w)))
                    (mdl (defaulted w))))
              (db w) (trace w)).
Proof.
  intros Hok Hgo Hcol Hup.
  destruct (model_ok_row _ Hok Hgo) as (row & Hrow & Hlen).
  exists row. split; [done|]. rewrite Update_key.
  unfold doAcceptChar. unfold mbind at 1, M_bind at 1, get at 1.
  change (gameOver (mdl (defaulted w))) with (gameOver (mdl w)).
  change (gridCol (mdl (defaulted w))) with (gridCol (mdl w)).
  change (gridRow (mdl (defaulted w))) with (gridRow (mdl w)).
  change (grid (mdl (defaulted w))) with (grid (mdl w)).
  rewrite Hgo. cbn [orb].
  rewrite (bool_decide_eq_true_2 _ (ok_in_progress _ Hok Hgo)).
  rewrite (bool_decide_eq_true_2 _ Hcol). cbn [andb negb]. rewrite Hup.
  pose proof (ok_gridRow _ Hok). pose proof (ok_gridCol _ Hok).
  unfold mbind at 1, M_bind at 1, lift at 1.
  rewrite (grid_store_Done _ _ _ _ row) by (done || lia).
  unfold mbind, M_bind, mret, M_ret, modify. cbn [mdl db trace].
  change (gridCol (set_grid _ (mdl (defaulted w)))) with (gridCol (mdl w)).
  unfold numChars in *. by rewrite int_incr_small by lia.
Qed.

(** A key that types nothing: the game is over, the row is complete, or the
    rune is no letter. *)
Lemma Update_char_ignored (ch : Z) (e : env) (w : world) :
  gameOver (mdl w) = true ∨ ¬ gridRow (mdl w) < numGuesses
  ∨ ¬ gridCol (mdl w) < numChars ∨ isAsciiUpper (toAsciiUpper ch) = false →
  Update dict (KeyMsg KeyRunes [ch]) e w = Done (CmdNil, defaulted w).
Proof.
  intros Hwhy. rewrite Update_key.
  unfold doAcceptChar. unfold mbind at 1, M_bind at 1, get at 1.
  change (gameOver (mdl (defaulted w))) with (gameOver (mdl w)).
  change (gridCol (mdl (defaulted w))) with (gridCol (mdl w)).
  change (gridRow (mdl (defaulted w))) with (gridRow (mdl w)).
  destruct (gameOver (mdl w)); [done|]. cbn [orb].
  case_bool_decide; [|done]. case_bool_decide; [|done]. cbn [andb negb].
  destruct (isAsciiUpper (toAsciiUpper ch)); [|done].
  destruct Hwhy as [?|[?|[?|?]]]; done.
Qed.

(** Backspace. *)
Lemma Update_backspace (runes : list Z) (e : env) (w : world) :
  model_ok (mdl w) →
  Update dict (KeyMsg KeyBackspace runes) e w
  = Done (CmdNil,
          if negb (gameOver (mdl w)) && bool_decide (gridCol (mdl w) > 0)
          then mkWorld (set_gridCol (gridCol (mdl w) - 1) (mdl (defaulted w)))
                 (db w) (trace w)
          else defaulted w).
Proof.
  intros Hok. rewrite Update_key.
  unfold doDeleteChar. unfold mbind at 1, M_bind at 1, get at 1.
  change (gameOver (mdl (defaulted w))) with (gameOver (mdl w)).
  change (gridCol (mdl (defaulted w))) with (gridCol (mdl w)).
  destruct (negb (gameOver (mdl w)) && bool_decide (gridCol (mdl w) > 0)) eqn:Hif;
    [|done].
  apply andb_prop in Hif as [_ Hpos%bool_decide_eq_true].
  pose proof (ok_gridCol _ Hok). unfold numChars in *.
  unfold mbind, M_bind, mret, M_ret, modify. cbn [mdl db trace].
  change (gridCol (mdl (defaulted w))) with (gridCol (mdl w)).
  by rewrite int_decr_small by lia.
Qed.

End update_steps.

(** ** The keyboard after a guess *)

Lemma marked_at (P : keyState → bool) (guess : list byte) (ks : list keyState)
    (i : nat) (c : byte) (s : keyState) :
  guess !! i = Some c → ks !! i = Some s → P s = true →
  (1 ≤ marked P c guess ks)%nat.
Proof.
  intros Hg Hs HP. unfold marked.
  assert ((c, s) ∈ filter (λ p : byte * keyState, p.1 = c ∧ P p.2 = true)
                     (zip guess ks)) as Hin.
  { apply list_elem_of_filter. split; [done|].
    eapply list_elem_of_lookup_2. apply lookup_zip_with_Some. eauto. }
  destruct (filter _ _); [by apply elem_of_nil in Hin|cbn; lia].
Qed.

(** A position the evaluator marks Present holds a letter of the answer. *)
Lemma evaluate_present_in_answer (answer guess : list byte) (i : nat) :
  length answer = Z.to_nat numChars → length guess = Z.to_nat numChars →
  (i < Z.to_nat numChars)%nat → guess !!! i ≠ byte0 →
  gridRowKeyStates answer guess !!! i = keyStatePresent →
  guess !!! i ∈ answer.
Proof.
  intros Ha Hg Hi Hne. unfold gridRowKeyStates. rewrite markAbsent_all.
  destruct (pass2_inv_final answer guess Ha Hg) as (Hl1 & _ & _ & _ & Hcnt).
  set (st := foldl _ _ _) in *. intros Hp.
  specialize (Hcnt _ Hne).
  assert (1 ≤ marked isHit (guess !!! i) guess st.1)%nat as Hm.
  { apply (marked_at isHit guess st.1 i (guess !!! i) keyStatePresent); [| |done].
    - apply list_lookup_lookup_total_lt. lia.
    - rewrite <- Hp. apply list_lookup_lookup_total_lt. lia. }
  destruct (decide (guess !!! i ∈ answer)) as [|Hnot]; [done|].
  apply count_0_not_elem in Hnot. lia.
Qed.

Lemma list_of_five {A : Type} `{Inhabited A} (l : list A) :
  length l = 5%nat → l = [l !!! 0; l !!! 1; l !!! 2; l !!! 3; l !!! 4]%nat.
Proof. by destruct l as [|? [|? [|? [|? [|? [|]]]]]]. Qed.

Section keyboard.
Import Session System.
Variable dict : Dictionary.

(** The row of a guess is all Correct exactly when the guess is the answer,
    which is exactly when the loop of [doAcceptGuess] leaves [success]
    set. *)
Theorem row_all_correct_iff_win (answer guess : list byte) (ks : gmap byte keyState) :
  length answer = 5%nat → length guess = 5%nat →
  (gridRowKeyStates answer guess = replicate 5 keyStateCorrect ↔ guess = answer) ∧
  ((foldl (acceptKey answer guess) (true, ks) (upto numChars)).1 = true
   ↔ gridRowKeyStates answer guess = replicate 5 keyStateCorrect).
Proof.
  intros Ha Hg.
  assert (gridRowKeyStates answer guess = replicate 5 keyStateCorrect ↔ guess = answer)
    as Hiff.
  { destruct (pass2_inv_final answer guess Ha Hg) as (Hl1 & _ & _ & Hcor & _).
    unfold gridRowKeyStates. rewrite markAbsent_all.
    set (st := foldl _ _ _) in *. split.
    - intros Hall. rewrite (list_of_five guess Hg), (list_of_five answer Ha).
      rewrite Hall in Hcor.
      by rewrite (proj1 (Hcor 0%nat ltac:(unfold numChars; lia))),
        (proj1 (Hcor 1%nat ltac:(unfold numChars; lia))),
        (proj1 (Hcor 2%nat ltac:(unfold numChars; lia))),
        (proj1 (Hcor 3%nat ltac:(unfold numChars; lia))),
        (proj1 (Hcor 4%nat ltac:(unfold numChars; lia))).
    - intros ->. rewrite (list_of_five st.1 Hl1).
      by rewrite (proj2 (Hcor 0%nat ltac:(unfold numChars; lia))),
        (proj2 (Hcor 1%nat ltac:(unfold numChars; lia))),
        (proj2 (Hcor 2%nat ltac:(unfold numChars; lia))),
        (proj2 (Hcor 3%nat ltac:(unfold numChars; lia))),
        (proj2 (Hcor 4%nat ltac:(unfold numChars; lia))). }
  split; [done|]. rewrite acceptKey_success by done.
  rewrite Hiff. apply bool_decide_eq_true.
Qed.

Lemma row_all_correct_iff_win_witness :
  gridRowKeyStates (bytes "CRANE") (bytes "CRATE") = replicate 5 keyStateCorrect
  ↔ bytes "CRATE" = bytes "CRANE".
Proof.
  exact (proj1 (row_all_correct_iff_win (bytes "CRANE") (bytes "CRATE") ∅
                  eq_refl eq_refl)).
Defined.

(** An accepted guess never weakens the colour of a key, leaves the keys it
    does not contain as they were, and colours each of its letters: Correct
    if the letter is in its place, at least Present if the answer has it,
    and at least Absent otherwise. *)
Theorem accepted_guess_colours_keys (e : env) (w : world) (runes : list Z)
    (guess : list byte) :
  model_ok (mdl w) → gameOver (mdl w) = false → gridCol (mdl w) = numChars →
  grid (mdl w) !! Z.to_nat (gridRow (mdl w)) = Some guess →
  IsWord dict (string_of_list_ascii guess) = true →
  ∃ w',
    Update dict (KeyMsg KeyEnter runes) e w = Done (CmdNil, w') ∧
    (∀ key, keyState_int (keyStates_get (keyStates (mdl w)) key)
            <= keyState_int (keyStates_get (keyStates (mdl w')) key)) ∧
    (∀ key, key ∉ guess →
            keyStates_get (keyStates (mdl w')) key
            = keyStates_get (keyStates (mdl w)) key) ∧
    (∀ i, (i < 5)%nat →
          let now := keyStates_get (keyStates (mdl w')) (guess !!! i) in
          (guess !!! i = answer (mdl w) !!! i → now = keyStateCorrect) ∧
          (guess !!! i ∈ answer (mdl w) → 2 <= keyState_int now) ∧
          1 <= keyState_int now).
Proof.
  intros Hok Hgo Hcol Hrow Hword. eexists. split; [by apply Update_enter_accepts|].
  destruct (accepted_fields guess e (defaulted w)) as (_ & _ & -> & _).
  change (keyStates (mdl (defaulted w))) with (keyStates (mdl w)).
  change (answer (mdl (defaulted w))) with (answer (mdl w)).
  assert (length guess = Z.to_nat numChars) as Hlen.
  { pose proof (ok_grid_cols _ Hok) as Hcols.
    by eapply Forall_lookup_1 in Hcols; [|exact Hrow]. }
  destruct (acceptKey_loop (answer (mdl w)) guess (keyStates (mdl w))
              (ok_answer _ Hok) true (Z.to_nat numChars) ltac:(lia))
    as (Hup & Hsame & Hverdict & _).
  fold (upto numChars) in *. split_and!.
  - exact Hup.
  - intros key Hkey. apply Hsame. intros i Hi <-. apply Hkey.
    apply list_elem_of_lookup_total_2. lia.
  - intros i Hi. specialize (Hverdict i ltac:(unfold numChars; lia)).
    cbn zeta. revert Hverdict. unfold keyVerdict.
    destruct (keyStates_get _ (guess !!! i)) eqn:Hnow;
      repeat case_decide; cbn; intros; split_and!; intros; try done; try lia.
    all: exfalso; by apply IndexByte_elem_of in H1.
Qed.


(** The key of every letter of an accepted guess is coloured at least as
    strongly as the cell of the grid that shows the letter. *)
Theorem keyboard_at_least_grid (e : env) (w : world) (runes : list Z)
    (guess : list byte) :
  model_ok (mdl w) → gameOver (mdl w) = false → gridCol (mdl w) = numChars →
  grid (mdl w) !! Z.to_nat (gridRow (mdl w)) = Some guess →
  IsWord dict (string_of_list_ascii guess) = true →
  byte0 ∉ guess →
  ∃ w',
    Update dict (KeyMsg KeyEnter runes) e w = Done (CmdNil, w') ∧
    ∀ i, (i < 5)%nat →
         keyState_int (gridRowKeyStates (answer (mdl w)) guess !!! i)
         <= keyState_int (keyStates_get (keyStates (mdl w')) (guess !!! i)).
Proof.
  intros Hok Hgo Hcol Hrow Hword Hletters.
  eexists. split; [by apply Update_enter_accepts|].
  destruct (accepted_fields guess e (defaulted w)) as (_ & _ & -> & _).
  change (keyStates (mdl (defaulted w))) with (keyStates (mdl w)).
  change (answer (mdl (defaulted w))) with (answer (mdl w)).
  assert (length guess = Z.to_nat numChars) as Hlen.
  { pose proof (ok_grid_cols _ Hok) as Hcols.
    by eapply Forall_lookup_1 in Hcols; [|exact Hrow]. }
  pose proof (ok_answer _ Hok) as Hans.
  destruct (acceptKey_loop (answer (mdl w)) guess (keyStates (mdl w))
              Hans true (Z.to_nat numChars) ltac:(lia))
    as (_ & _ & Hverdict & _).
  fold (upto numChars) in *. intros i Hi.
  specialize (Hverdict i ltac:(unfold numChars; lia)).
  etransitivity; [|exact Hverdict]. clear Hverdict.
  assert (Hne : guess !!! i ≠ byte0).
  { intros H0. apply Hletters. rewrite <- H0.
    apply list_elem_of_lookup_total_2. unfold numChars in *. lia. }
  destruct (pass2_inv_final (answer (mdl w)) guess Hans Hlen) as (_ & _ & _ & Hcor & _).
  pose proof (evaluate_present_in_answer (answer (mdl w)) guess i Hans Hlen
                ltac:(unfold numChars; lia) Hne) as Hpresent.
  revert Hcor Hpresent. unfold gridRowKeyStates. rewrite markAbsent_all.
  set (st := foldl _ _ _). intros Hcor Hpresent.
  specialize (Hcor i ltac:(unfold numChars; lia)). unfold keyVerdict.
  destruct (st.1 !!! i) eqn:Hst; cbn [keyState_int].
  - repeat case_decide; cbn; lia.
  - repeat case_decide; cbn; lia.
  - specialize (Hpresent eq_refl). apply IndexByte_elem_of in Hpresent.
    repeat case_decide; cbn; first [lia|done].
  - rewrite decide_True by by apply Hcor. done.
Qed.

(** In every session of a reachable system the keyboard tells the truth
    about the answer: a key shown Absent is not in the answer, and a key
    shown Present or Correct is. *)
Theorem keyboard_never_lies (sys : system) (s : session) (key : byte) :
  reachable dict sys → s ∈ sessions sys →
  let shown := keyStates_get (keyStates (s_model s)) key in
  (shown = keyStateAbsent → key ∉ answer (s_model s)) ∧
  (shown = keyStatePresent ∨ shown = keyStateCorrect → key ∈ answer (s_model s)).
Proof.
  intros Hreach Hs.
  assert (key_sound (answer (s_model s)) (keyStates (s_model s))) as Hsound.
  { revert s Hs. apply Forall_forall. revert sys Hreach.
    apply (reachable_sessions dict (λ m, key_sound (answer m) (keyStates m))).
    - intros width height e t k. unfold restarted, rescored.
      destruct (getTotalScoreOk e); done.
    - intros e w msg c w' Hok Hp H.
      destruct H as [|runes|msg Hre|runes Hopen Hcol|runes msg Hopen Hmsg
                    |runes guess Hopen Hcol Hrow Hword|ch row Hopen Hcol Hch Hrow
                    |type runes Htype Hre|width height|]; try exact Hp.
      + unfold timed_out. cbn zeta. by case_decide.
      + intros k. unfold restarted, rescored. destruct (getTotalScoreOk e); done.
      + destruct (accepted_fields guess e (defaulted w)) as (_ & -> & -> & _).
        by apply (acceptKey_loop (answer (mdl w)) guess (keyStates (mdl w))
                    (ok_answer _ Hok) true (Z.to_nat numChars) ltac:(lia)). }
  specialize (Hsound key). cbn zeta.
  destruct (keyStates_get _ key); split; intros; try done; intuition congruence.
Qed.

End keyboard.

Lemma accepted_guess_colours_keys_witness :
  ∃ w', Session.Update Examples.dict Examples.enter Examples.fine Examples.typed_CRANE
        = Done (CmdNil, w')
        ∧ ∀ key, key ∉ bytes "CRANE" →
                 keyStates_get (Session.keyStates (Session.mdl w')) key
                 = keyStates_get
                     (Session.keyStates (Session.mdl Examples.typed_CRANE)) key.
Proof.
  destruct (accepted_guess_colours_keys Examples.dict Examples.fine
              Examples.typed_CRANE [] (bytes "CRANE"))
    as (w' & Hrun & _ & Hsame & _).
  - exact (alone_model_ok _ typed_CRANE_reachable).
  - vm_compute. reflexivity.
  - vm_compute. reflexivity.
  - vm_compute. reflexivity.
  - vm_compute. reflexivity.
  - exact (ex_intro _ w' (conj Hrun Hsame)).
Defined.

Lemma keyboard_at_least_grid_witness :
  ∃ w', Session.Update Examples.dict Examples.enter Examples.fine Examples.typed_CRANE
        = Done (CmdNil, w').
Proof.
  destruct (keyboard_at_least_grid Examples.dict Examples.fine
              Examples.typed_CRANE [] (bytes "CRANE"))
    as (w' & Hrun & _).
  - exact (alone_model_ok _ typed_CRANE_reachable).
  - vm_compute. reflexivity.
  - vm_compute. reflexivity.
  - vm_compute. reflexivity.
  - vm_compute. reflexivity.
  - vm_compute. intros Hin. by repeat (apply elem_of_cons in Hin as [?|Hin]; [done|]);
      apply elem_of_nil in Hin.
  - exact (ex_intro _ w' Hrun).
Defined.

Lemma keyboard_never_lies_witness :
  keyStates_get (Session.keyStates (System.s_model (Examples.only Examples.won))) "C"
  = keyStateCorrect
  ∧ "C"%char ∈ Session.answer (System.s_model (Examples.only Examples.won)).
Proof.
  assert (Hkey : keyStates_get
                   (Session.keyStates (System.s_model (Examples.only Examples.won))) "C"
                 = keyStateCorrect) by (vm_compute; reflexivity).
  split; [exact Hkey|].
  apply (proj2 (keyboard_never_lies Examples.dict (Examples.alone Examples.won)
                  (Examples.only Examples.won) "C" won_reachable
                  (only_alone Examples.won))).
  right. exact Hkey.
Defined.

(** ** What the grid holds *)

Lemma isAsciiUpper_spec (r : Z) : isAsciiUpper r = true ↔ 65 <= r <= 90.
Proof. unfold isAsciiUpper. rewrite andb_true_iff, !Z.leb_le. lia. Qed.

Lemma toAsciiUpper_letter (r : Z) :
  isAsciiUpper (toAsciiUpper r) = true ↔ 65 <= r <= 90 ∨ 97 <= r <= 122.
Proof.
  rewrite isAsciiUpper_spec. unfold toAsciiUpper.
  destruct ((97 <=? r) && (r <=? 122)) eqn:Hlow.
  - apply andb_true_iff in Hlow. rewrite !Z.leb_le in Hlow. lia.
  - apply andb_false_iff in Hlow. rewrite !Z.leb_gt in Hlow. lia.
Qed.

Lemma byte_of_rune_code (r : Z) :
  0 <= r < 256 → N_of_ascii (byte_of_rune r) = Z.to_N r.
Proof.
  intros Hr. unfold byte_of_rune. rewrite Z.mod_small by lia.
  apply N_ascii_embedding. lia.
Qed.

Lemma byte_of_rune_letter (r : Z) :
  isAsciiUpper r = true → isLetter (byte_of_rune r).
Proof.
  intros Hr%isAsciiUpper_spec. unfold isLetter.
  rewrite byte_of_rune_code by lia. lia.
Qed.

Lemma isLetter_not_zero (b : byte) : isLetter b → b ≠ byte0.
Proof. intros Hb ->. unfold isLetter in Hb. cbn in Hb. lia. Qed.

Section letters.
Import Session System.
Variable dict : Dictionary.

Lemma letters_ok_start (m : model) :
  gridRow m = 0 → gridCol m = 0 → letters_ok m.
Proof. intros Hr Hc i j [_ Hw]. lia. Qed.

Lemma letters_ok_fewer (m m' : model) :
  grid m' = grid m →
  (∀ i j, written m' i j → written m i j) →
  letters_ok m → letters_ok m'.
Proof. intros Hg Hw Hok i j Hij. rewrite Hg. by apply Hok, Hw. Qed.

Lemma handles_letters_ok (e : env) (w w' : world) (msg : Msg) (c : Cmd) :
  model_ok (mdl w) → letters_ok (mdl w) → handles dict e w msg c w' →
  letters_ok (mdl w').
Proof.
  intros Hok Hp H.
  pose proof (ok_gridRow _ Hok) as Hrow_ok. pose proof (ok_gridCol _ Hok) as Hcol_ok.
  destruct H as [|runes|msg Hre|runes Hopen Hcol|runes msg Hopen Hmsg
                |runes guess Hopen Hcol Hrow Hword|ch row Hopen Hcol Hch Hrow
                |type runes Htype Hre|width height|]; try exact Hp.
  - unfold timed_out. cbn zeta. by case_decide.
  - apply letters_ok_start; unfold restarted, rescored;
      by destruct (getTotalScoreOk e).
  - eapply letters_ok_fewer; [| |exact Hp]; [done|].
    intros i j [Hj Hw]. split; [done|]. cbn in Hw. lia.
  - destruct (accepted_fields guess e (defaulted w))
      as (Hgrid & _ & _ & Hr & Hc & _).
    change (gridRow (mdl (defaulted w))) with (gridRow (mdl w)) in Hr.
    change (grid (mdl (defaulted w))) with (grid (mdl w)) in Hgrid.
    pose proof (ok_in_progress _ Hok Hopen).
    unfold numGuesses, numChars in *. rewrite int_incr_small in Hr by lia.
    intros i j [Hj Hw]. rewrite Hgrid. apply Hp. split; [done|].
    rewrite Hr, Hc in Hw. unfold numChars in *. lia.
  - intros i j [Hj Hw]. cbn [mdl grid gridRow gridCol set_grid set_gridCol] in *.
    change (gridRow (mdl (defaulted w))) with (gridRow (mdl w)) in *.
    destruct (decide (Z.of_nat i = gridRow (mdl w))) as [Hi|Hi].
    + replace (Z.to_nat (gridRow (mdl w))) with i by lia.
      rewrite list_lookup_insert_eq
        by (apply lookup_lt_Some in Hrow; lia).
      destruct (decide (Z.of_nat j = gridCol (mdl w))) as [Hjc|Hjc].
      * eexists _, _. split; [done|].
        replace (Z.to_nat (gridCol (mdl w))) with j by lia.
        pose proof (ok_grid_cols _ Hok) as Hcols.
        eapply Forall_lookup_1 in Hcols; [|exact Hrow].
        rewrite list_lookup_insert_eq by lia.
        split; [done|]. by apply byte_of_rune_letter.
      * destruct (Hp i j) as (row' & b & Hrow' & Hb & Hl).
        { split; [done|]. lia. }
        replace (Z.to_nat (gridRow (mdl w))) with i in Hrow by lia.
        simplify_eq. eexists _, b. split; [done|].
        rewrite list_lookup_insert_ne by lia. done.
    + destruct (Hp i j) as (row' & b & Hrow' & Hb & Hl).
      { split; [done|]. lia. }
      rewrite list_lookup_insert_ne by lia. by eexists _, _.
Qed.

End letters.

(** ** Typing, deleting and what the grid shows *)

Section input.
Import Session System.
Variable dict : Dictionary.

(** In every session of a reachable system the cells before the cursor hold
    upper-case letters; so no submitted row holds a zero byte, and the
    evaluator colours every submitted row as the two passes of the
    specification do. *)
Theorem grid_holds_letters (sys : system) (s : session) :
  reachable dict sys → s ∈ sessions sys →
  let m := s_model s in
  (∀ i j, written m i j →
          ∃ row b, grid m !! i = Some row ∧ row !! j = Some b
                   ∧ (65 <= N_of_ascii b <= 90)%N) ∧
  (∀ i, Z.of_nat i < gridRow m →
        (byte0 ∉ (grid m !!! i))
        ∧ gridRowKeyStates (answer m) (grid m !!! i)
          = spec_Evaluate (answer m) (grid m !!! i)).
Proof.
  intros Hreach Hs. cbn zeta.
  assert (letters_ok (s_model s)) as Hletters.
  { revert s Hs. apply Forall_forall. revert sys Hreach.
    apply (reachable_sessions dict letters_ok).
    - intros width height e t. apply letters_ok_start;
        unfold restarted, rescored; by destruct (getTotalScoreOk e).
    - intros e w msg c w' Hok Hp H. by eapply handles_letters_ok. }
  split; [exact Hletters|].
  pose proof (reachable_model_ok dict sys Hreach) as Hoks.
  eapply Forall_forall in Hoks; [|exact Hs].
  intros i Hi.
  pose proof (ok_gridRow _ Hoks) as Hrows.
  destruct (lookup_lt_is_Some_2 (grid (s_model s)) i) as [row Hrow].
  { rewrite (ok_grid_rows _ Hoks). unfold numGuesses in *. lia. }
  rewrite (list_lookup_total_correct _ _ _ Hrow).
  pose proof (ok_grid_cols _ Hoks) as Hcols.
  eapply Forall_lookup_1 in Hcols; [|exact Hrow].
  assert (byte0 ∉ row) as Hnz.
  { intros [j Hj]%list_elem_of_lookup.
    destruct (Hletters i j) as (row' & b & Hrow' & Hb & Hl).
    { split; [|by left]. apply lookup_lt_Some in Hj. lia. }
    simplify_eq. by apply isLetter_not_zero in Hl. }
  split; [done|].
  apply gridRowKeyStates_spec; [apply Hoks|done..].
Qed.

(** In an incomplete row of a game in progress, a key press types its rune
    exactly when the rune is an ASCII letter; the cell under the cursor then
    holds the upper-case letter and the cursor moves right, and nothing else
    changes but the status line, which every key press resets.  Any other
    rune only resets the status line. *)
Theorem typing_accepts_letters_only (ch : Z) (e : env) (w : world) :
  model_ok (mdl w) → gameOver (mdl w) = false → gridCol (mdl w) < numChars →
  let m0 := set_status ("Score: " +:+ pretty (score (mdl w))) (mdl w) in
  if decide (65 <= ch <= 90 ∨ 97 <= ch <= 122) then
    ∃ row b,
      grid (mdl w) !! Z.to_nat (gridRow (mdl w)) = Some row ∧
      N_of_ascii b = Z.to_N (if decide (ch <= 90) then ch else ch - 32) ∧
      Update dict (KeyMsg KeyRunes [ch]) e w
      = Done (CmdNil,
              mkWorld
                (set_gridCol (gridCol (mdl w) + 1)
                   (set_grid (<[Z.to_nat (gridRow (mdl w)) :=
                                <[Z.to_nat (gridCol (mdl w)) := b]> row]>
                                (grid (mdl w))) m0))
                (db w) (trace w))
  else
    Update dict (KeyMsg KeyRunes [ch]) e w = Done (CmdNil, mkWorld m0 (db w) (trace w)).
Proof.
  intros Hok Hgo Hcol. cbn zeta. case_decide as Hch.
  - apply toAsciiUpper_letter in Hch as Hup.
    destruct (Update_char_accepts dict ch e w Hok Hgo Hcol Hup) as (row & Hrow & Hrun).
    exists row, (byte_of_rune (toAsciiUpper ch)). split_and!; [done| |exact Hrun].
    rewrite byte_of_rune_code by (apply isAsciiUpper_spec in Hup; lia).
    f_equal. unfold toAsciiUpper.
    destruct ((97 <=? ch) && (ch <=? 122)) eqn:Hlow.
    + apply andb_true_iff in Hlow. rewrite !Z.leb_le in Hlow.
      rewrite decide_False by lia. lia.
    + apply andb_false_iff in Hlow. rewrite !Z.leb_gt in Hlow.
      rewrite decide_True by lia. done.
  - apply Update_char_ignored. right. right. right.
    destruct (isAsciiUpper (toAsciiUpper ch)) eqn:Hup; [|done].
    by apply toAsciiUpper_letter in Hup.
Qed.

(** The key presses that only reset the status line: a key [Update] has no
    binding for, runes that are not exactly one (a paste), and, once the
    game is over, letters and backspace; a letter on a complete row; and
    backspace on an empty row. *)
Theorem keys_without_effect (type : KeyType) (runes : list Z) (e : env) (w : world) :
  type = KeyOther
  ∨ type = KeyRunes ∧ length runes ≠ 1%nat
  ∨ gameOver (mdl w) = true ∧ (type = KeyRunes ∨ type = KeyBackspace)
  ∨ type = KeyRunes ∧ ¬ gridCol (mdl w) < numChars
  ∨ type = KeyBackspace ∧ ¬ gridCol (mdl w) > 0 →
  Update dict (KeyMsg type runes) e w
  = Done (CmdNil,
          mkWorld (set_status ("Score: " +:+ pretty (score (mdl w))) (mdl w))
            (db w) (trace w)).
Proof.
  assert (Hback : gameOver (mdl w) = true ∨ ¬ gridCol (mdl w) > 0 →
                  Update dict (KeyMsg KeyBackspace runes) e w = Done (CmdNil, defaulted w)).
  { intros Hwhy. rewrite Update_key.
    unfold doDeleteChar. unfold mbind at 1, M_bind at 1, get at 1.
    change (gameOver (mdl (defaulted w))) with (gameOver (mdl w)).
    change (gridCol (mdl (defaulted w))) with (gridCol (mdl w)).
    destruct (gameOver (mdl w)); [done|]. cbn [negb andb].
    case_bool_decide; [|done]. by destruct Hwhy. }
  assert (Hrunes : type = KeyRunes →
                   length runes ≠ 1%nat ∨ gameOver (mdl w) = true
                   ∨ ¬ gridCol (mdl w) < numChars →
                   Update dict (KeyMsg type runes) e w = Done (CmdNil, defaulted w)).
  { intros -> Hwhy. destruct runes as [|ch [|]]; [done| |done].
    apply Update_char_ignored. destruct Hwhy as [?|[?|?]]; [done|by left|].
    by right; right; left. }
  intros [->|[[-> Hlen]|[[Hgo [Htype| ->]]|[[-> Hcol]|[-> Hcol]]]]].
  - done.
  - apply Hrunes; auto.
  - apply Hrunes; auto.
  - apply Hback; auto.
  - apply Hrunes; auto.
  - apply Hback; auto.
Qed.

(** [viewGrid] on two models that have the same cursor, answer and game-over
    flag and the same letters before the cursor. *)
Lemma viewGrid_ext (m m' : model) :
  model_ok m → model_ok m' →
  gridRow m' = gridRow m → gridCol m' = gridCol m →
  gameOver m' = gameOver m → answer m' = answer m →
  (∀ i j, written m i j → (grid m' !!! i) !!! j = (grid m !!! i) !!! j) →
  viewGrid m' = viewGrid m.
Proof.
  intros Hok Hok' Hr Hc Hgo Ha Hcells. unfold viewGrid.
  apply list_fmap_ext. intros _ i Hi%list_elem_of_lookup_2%elem_of_seq.
  rewrite Hr, Hgo, Ha. unfold numGuesses in *.
  assert (Hlen : ∀ m0, model_ok m0 → length (grid m0 !!! i) = 5%nat).
  { intros m0 Hm0.
    destruct (lookup_lt_is_Some_2 (grid m0) i) as [row Hrow].
    { rewrite (ok_grid_rows _ Hm0). unfold numGuesses. lia. }
    rewrite (list_lookup_total_correct _ _ _ Hrow).
    pose proof (ok_grid_cols _ Hm0) as Hcols.
    by eapply Forall_lookup_1 in Hcols; [|exact Hrow]. }
  case_decide as Hfilled; [|case_decide as Hcur; [|unfold viewGridRowEmpty; by rewrite Hgo]].
  - f_equal. rewrite (list_of_five _ (Hlen m Hok)), (list_of_five _ (Hlen m' Hok')).
    by rewrite !Hcells by (split; [unfold numChars; lia|by left]).
  - unfold viewGridRowCurrent. apply list_fmap_ext.
    intros _ j Hj%list_elem_of_lookup_2%elem_of_seq. rewrite Hc.
    case_decide as Hleft; [|done]. rewrite Hcells; [done|].
    split; [lia|]. right. by destruct Hcur.
Qed.

(** The grid that is shown has six rows of five keys, and shows no byte of
    the grid array but those before the cursor: two sessions with the same
    cursor, answer and game-over flag and the same letters before the cursor
    show the same grid, whatever else their grid arrays hold. *)
Theorem view_shows_only_typed_cells (m m' : model) :
  model_ok m → model_ok m' →
  gridRow m' = gridRow m → gridCol m' = gridCol m →
  gameOver m' = gameOver m → answer m' = answer m →
  (∀ i j, written m i j → (grid m' !!! i) !!! j = (grid m !!! i) !!! j) →
  viewGrid m' = viewGrid m
  ∧ length (viewGrid m) = 6%nat
  ∧ Forall (λ row, length row = 5%nat) (viewGrid m).
Proof.
  intros Hok Hok' Hr Hc Hgo Ha Hcells. split; [by apply viewGrid_ext|].
  unfold viewGrid. split; [by rewrite length_fmap|].
  apply Forall_fmap, Forall_forall. intros i _. cbn.
  unfold viewGridRowFilled, viewGridRowCurrent, viewGridRowEmpty.
  repeat case_decide; by rewrite ?length_fmap, ?length_replicate.
Qed.

(** Typing a letter and deleting it again puts the cursor back and leaves
    what the grid shows, the key states, the tables and the store calls as
    they were. *)
Theorem type_then_backspace (ch : Z) (runes : list Z) (e1 e2 : env) (w : world) :
  model_ok (mdl w) → gameOver (mdl w) = false → gridCol (mdl w) < numChars →
  65 <= ch <= 90 ∨ 97 <= ch <= 122 →
  ∃ w1 w2,
    Update dict (KeyMsg KeyRunes [ch]) e1 w = Done (CmdNil, w1) ∧
    Update dict (KeyMsg KeyBackspace runes) e2 w1 = Done (CmdNil, w2) ∧
    gridRow (mdl w2) = gridRow (mdl w) ∧ gridCol (mdl w2) = gridCol (mdl w) ∧
    viewGrid (mdl w2) = viewGrid (mdl w) ∧
    keyStates (mdl w2) = keyStates (mdl w) ∧ gameOver (mdl w2) = false ∧
    db w2 = db w ∧ trace w2 = trace w.
Proof.
  intros Hok Hgo Hcol Hch%toAsciiUpper_letter.
  destruct (Update_char_accepts dict ch e1 w Hok Hgo Hcol Hch) as (row & Hrow & Hrun).
  eexists _, _. split; [exact Hrun|].
  set (w1 := mkWorld _ _ _) in *.
  assert (model_ok (mdl w1)) as Hok1.
  { destruct (Update_model_ok dict e1 w (KeyMsg KeyRunes [ch]) Hok)
      as (c' & w' & Hrun' & Hok'). rewrite Hrun in Hrun'. by simplify_eq. }
  rewrite (Update_backspace dict runes e2 w1 Hok1).
  pose proof (ok_gridCol _ Hok) as Hcols. pose proof (ok_gridRow _ Hok) as Hrows.
  change (gameOver (mdl w1)) with (gameOver (mdl w)). rewrite Hgo.
  change (gridCol (mdl w1)) with (gridCol (mdl w) + 1).
  rewrite bool_decide_eq_true_2 by lia. cbn [negb andb].
  split; [done|]. cbn [mdl db trace]. split_and!; try done.
  - cbn. lia.
  - apply viewGrid_ext; try done.
    + destruct Hok1 as [H1 H2 H3 H4 H5 H6].
      constructor; cbn in *; try done; unfold numChars in *; lia.
    + cbn. lia.
    + intros i j [Hj Hw].
      unfold defaulted. cbn [mdl grid set_gridCol set_grid set_status].
      destruct (decide (i = Z.to_nat (gridRow (mdl w)))) as [->|Hi].
      * rewrite list_lookup_total_insert_eq by (apply lookup_lt_Some in Hrow; lia).
        rewrite (list_lookup_total_correct _ _ _ Hrow).
        rewrite list_lookup_total_insert_ne; [done|]. lia.
      * by rewrite list_lookup_total_insert_ne.
Qed.

End input.

(** ** The input theorems at work on the example sessions *)

Section input_witnesses.
Import Session System Examples.

Lemma grid_holds_letters_witness :
  ∃ row b, grid (s_model (only typed_CRAN)) !! 0%nat = Some row
           ∧ row !! 1%nat = Some b ∧ (65 <= N_of_ascii b <= 90)%N.
Proof.
  apply (proj1 (grid_holds_letters dict (alone typed_CRAN) (only typed_CRAN)
                  typed_CRAN_reachable (only_alone typed_CRAN)) 0%nat 1%nat).
  split; [vm_compute; lia|]. right. split; vm_compute; reflexivity.
Defined.

Lemma typing_accepts_letters_only_witness :
  ∃ w', Update dict (KeyMsg KeyRunes [101]) fine typed_CRAN = Done (CmdNil, w').
Proof.
  pose proof (typing_accepts_letters_only dict 101 fine typed_CRAN
                (alone_model_ok _ typed_CRAN_reachable)) as H.
  cbn zeta in H. rewrite decide_True in H by lia.
  destruct H as (row & b & _ & _ & Hrun).
  - vm_compute. reflexivity.
  - vm_compute. reflexivity.
  - exact (ex_intro _ _ Hrun).
Defined.

Lemma keys_without_effect_witness :
  Update dict (KeyMsg KeyRunes [99]) fine won
  = Done (CmdNil,
          mkWorld (set_status ("Score: " +:+ pretty (score (mdl won))) (mdl won))
            (db won) (trace won)).
Proof.
  apply (keys_without_effect dict KeyRunes [99] fine won).
  right. right. left. split; [vm_compute; reflexivity|by left].
Defined.

Lemma view_shows_only_typed_cells_witness :
  viewGrid (set_grid (<[5%nat := bytes "ZZZZZ"]> (grid (mdl typed_CRAN))) (mdl typed_CRAN))
  = viewGrid (mdl typed_CRAN).
Proof.
  pose proof (alone_model_ok _ typed_CRAN_reachable) as Hok.
  assert (gridRow (mdl typed_CRAN) = 0) as Hrow by (vm_compute; reflexivity).
  revert Hok Hrow. generalize (mdl typed_CRAN). intros m Hok Hrow.
  apply (view_shows_only_typed_cells m
           (set_grid (<[5%nat := bytes "ZZZZZ"]> (grid m)) m)); try done.
  - destruct Hok as [H1 H2 H3 H4 H5 H6].
    constructor; cbn [grid answer gridRow gridCol gameOver set_grid]; try done.
    + by rewrite length_insert.
    + by apply Forall_insert.
  - intros i j [_ Hi]. cbn [grid set_grid].
    rewrite list_lookup_total_insert_ne; [done|]. lia.
Defined.

Lemma type_then_backspace_witness :
  ∃ w1 w2,
    Update dict (KeyMsg KeyRunes [101]) fine typed_CRAN = Done (CmdNil, w1) ∧
    Update dict (KeyMsg KeyBackspace []) fine w1 = Done (CmdNil, w2) ∧
    viewGrid (mdl w2) = viewGrid (mdl typed_CRAN).
Proof.
  destruct (type_then_backspace dict 101 [] fine fine typed_CRAN)
    as (w1 & w2 & Hrun1 & Hrun2 & _ & _ & Hview & _).
  - exact (alone_model_ok _ typed_CRAN_reachable).
  - vm_compute. reflexivity.
  - vm_compute. reflexivity.
  - lia.
  - exact (ex_intro _ w1 (ex_intro _ w2 (conj Hrun1 (conj Hrun2 Hview)))).
Defined.

End input_witnesses.

(** ** What the ledger holds for each session *)

Section ledger_counts.
Import Session System.
Variable dict : Dictionary.

Lemma saved_cases (guess : string) (e : env) (w : world) :
  let w1 := saved guess e w in
  let m := mdl w in
  let t1 := (store.CreateGame (db w) (Some (string_of_list_ascii (answer m)))).2 in
  let id := store.fresh_ID (store.game_ID <$> store.game (db w)) in
  mdl w1 = set_gameID (gameID (mdl w1)) m ∧
  (db w1 = db w ∧ gameID (mdl w1) = gameID m
   ∨ gameID m = 0 ∧ gameID (mdl w1) = id
     ∧ (db w1 = t1 ∨ db w1 = (store.CreateGuess t1 (Some id) (Some guess)).2)
   ∨ gameID m ≠ 0 ∧ gameID (mdl w1) = gameID m
     ∧ db w1 = (store.CreateGuess (db w) (Some (gameID m)) (Some guess)).2).
Proof.
  cbn zeta. unfold saved. cbn zeta.
  destruct (decide (gameID (mdl w) = 0)) as [H0|H0];
    [destruct (createGameOk e)|]; destruct (createGuessOk e); cbn [mdl db gameID set_gameID];
    (split; [by destruct (mdl w)|]); auto 10.
Qed.

Lemma recorded_same_guesses (t t' : store.Tables) (id : Z) :
  store.guess t' = store.guess t → recorded t' id = recorded t id.
Proof. unfold recorded. by intros ->. Qed.

Lemma recorded_snoc (t : store.Tables) (x : store.Guess) (id : Z) :
  recorded (store.mkTables (store.game t) (store.guess t ++ [x])) id
  = recorded t id
    ++ (if decide (store.guess_GameID x = Some id) then [store.guess_Guess x] else []).
Proof.
  unfold recorded. cbn [store.guess]. rewrite filter_app, fmap_app. f_equal.
  rewrite filter_cons, filter_nil. by case_decide.
Qed.

Lemma length_guesses_of (t : store.Tables) (g : store.Game) :
  length (store.guesses_of t g) = length (recorded t (store.game_ID g)).
Proof. unfold recorded, store.guesses_of. by rewrite length_fmap. Qed.

Lemma length_submitted (m : model) :
  model_ok m → Z.of_nat (length (submitted m)) = gridRow m.
Proof.
  intros Hok. unfold submitted. rewrite length_fmap, length_take.
  rewrite (ok_grid_rows _ Hok). pose proof (ok_gridRow _ Hok). lia.
Qed.

Lemma submitted_next (m m' : model) (guess : list byte) :
  model_ok m → gridRow m < numGuesses →
  grid m !! Z.to_nat (gridRow m) = Some guess →
  grid m' = grid m → gridRow m' = gridRow m + 1 →
  submitted m' = submitted m ++ [Some (string_of_list_ascii guess)].
Proof.
  intros Hok Hlt Hrow Hg Hr. unfold submitted. rewrite Hg, Hr.
  pose proof (ok_gridRow _ Hok).
  replace (Z.to_nat (gridRow m + 1)) with (S (Z.to_nat (gridRow m))) by lia.
  by rewrite (take_S_r _ _ _ Hrow), fmap_app.
Qed.

(** A session changes its model and not the tables: it forgets its game, or
    keeps its identity and answer, does not reopen it and keeps the rows it
    has submitted. *)
Lemma ledger_counts_same (t : store.Tables) (ms : list model) (i : nat) (m m' : model) :
  ms !! i = Some m → model_ok m' →
  gameID m' = 0 ∨
    gameID m' = gameID m ∧ answer m' = answer m
    ∧ (gameOver m' = false → gameOver m = false)
    ∧ sublist (submitted m) (submitted m') →
  ledger_counts ms t → ledger_counts (<[i := m']> ms) t.
Proof.
  intros Hi Hok' Hm' [Hinv Hoks Hrec Hsix]. constructor; [| | |done].
  - eapply ledger_inv_same; [done| |done].
    destruct Hm' as [?|(? & ? & ? & _)]; auto.
  - by apply Forall_insert.
  - apply Forall_insert; [done|]. intros Hne.
    destruct Hm' as [?|(Hid & _ & _ & Hsub)]; [done|].
    eapply Forall_lookup_1 in Hrec; [|exact Hi].
    rewrite Hid in *. etransitivity; [by apply Hrec|done].
Qed.

Lemma ledger_counts_snoc (t : store.Tables) (ms : list model) (m : model) :
  gameID m = 0 → model_ok m → ledger_counts ms t → ledger_counts (ms ++ [m]) t.
Proof.
  intros H0 Hok [Hinv Hoks Hrec Hsix]. constructor; [| | |done].
  - by apply ledger_inv_snoc.
  - apply Forall_app. split; [done|]. by apply Forall_singleton.
  - apply Forall_app. split; [done|]. apply Forall_singleton. by intros ?.
Qed.

Lemma ledger_counts_nil (t : store.Tables) (ms : list model) :
  ledger_counts ms t → ledger_counts [] t.
Proof.
  intros [Hinv Hoks Hrec Hsix]. constructor; [|constructor|constructor|done].
  by eapply ledger_inv_nil.
Qed.

(** CreateGame for a session that has no game yet. *)
Lemma ledger_counts_CreateGame (t : store.Tables) (ms : list model) (i : nat) (m : model) :
  let created := store.CreateGame t (Some (string_of_list_ascii (answer m))) in
  ms !! i = Some m → gameID m = 0 → ledger_counts ms t →
  ledger_counts (<[i := set_gameID (store.game_ID created.1) m]> ms) created.2.
Proof.
  intros created Hi H0 [Hinv Hoks Hrec Hsix].
  pose proof (ledger_inv_CreateGame t ms i m Hi H0 Hinv) as Hinv'.
  constructor; [exact Hinv'| | |].
  - apply Forall_insert; [done|].
    eapply Forall_lookup_1 in Hoks; [|exact Hi].
    by apply (model_ok_fields m).
  - apply Forall_lookup. intros k b Hk Hb.
    apply list_lookup_insert_Some in Hk.
    unfold created, store.CreateGame in *. cbn [fst snd store.game_ID] in *.
    rewrite (recorded_same_guesses t) by done.
    destruct Hk as [(_ & <- & _)|[Hki Hk]].
    + cbn [gameID set_gameID]. unfold recorded.
      rewrite guesses_of_fresh by apply Hinv. apply sublist_nil_l.
    + eapply Forall_lookup_1 in Hrec; [|exact Hk]. by apply Hrec.
  - unfold created, store.CreateGame. cbn [snd store.game].
    apply Forall_app. split.
    + eapply Forall_impl; [exact Hsix|]. by intros g.
    + apply Forall_singleton. unfold store.guesses_of. cbn [store.guess store.game_ID].
      rewrite guesses_of_fresh by apply Hinv. cbn. lia.
Qed.

(** CreateGuess of the row just submitted, for a session whose game is in
    progress. *)
Lemma ledger_counts_CreateGuess (t : store.Tables) (ms : list model) (i : nat)
    (m m' : model) (guess : list byte) :
  let created :=
    store.CreateGuess t (Some (gameID m)) (Some (string_of_list_ascii guess)) in
  ms !! i = Some m → gameID m ≠ 0 → gameOver m = false →
  gameID m' = gameID m → answer m' = answer m →
  (gameOver m' = false → guess ≠ answer m) →
  model_ok m' →
  submitted m' = submitted m ++ [Some (string_of_list_ascii guess)] →
  ledger_counts ms t →
  ledger_counts (<[i := m']> ms) created.2.
Proof.
  intros created Hi Hne Hopen Hid Hans Hover Hok' Hsub [Hinv Hoks Hrec Hsix].
  pose proof (ledger_inv_CreateGuess t ms i m m' guess Hi Hne Hopen Hid Hans Hover Hinv)
    as Hinv'.
  pose proof (Forall_lookup_1 _ _ _ _ Hoks Hi) as Hok.
  pose proof (Forall_lookup_1 _ _ _ _ Hrec Hi Hne) as Hrecm.
  constructor; [exact Hinv'| | |].
  - by apply Forall_insert.
  - apply Forall_lookup. intros k b Hk Hb.
    apply list_lookup_insert_Some in Hk.
    unfold created, store.CreateGuess. cbn [snd].
    rewrite recorded_snoc. cbn [store.guess_GameID store.guess_Guess].
    destruct Hk as [(_ & <- & _)|[Hki Hk]].
    + rewrite Hid, Hsub. rewrite decide_True by done. by apply sublist_app.
    + rewrite decide_False.
      * rewrite app_nil_r. eapply Forall_lookup_1 in Hrec; [|exact Hk]. by apply Hrec.
      * intros [= Heq]. destruct (inv_apart _ _ Hinv k i b m); done.
  - unfold created, store.CreateGuess. cbn [snd store.game].
    apply Forall_forall. intros g Hg.
    eapply Forall_forall in Hsix; [|exact Hg].
    rewrite length_guesses_of in *. rewrite recorded_snoc.
    cbn [store.guess_GameID store.guess_Guess]. case_decide as Hrow.
    + injection Hrow as Hrow. rewrite <- Hrow, length_app. cbn [length].
      apply sublist_length in Hrecm.
      assert (Z.of_nat (length (submitted m')) = gridRow m') as Hlen
        by by apply length_submitted.
      rewrite Hsub, length_app in Hlen. cbn [length] in Hlen.
      pose proof (ok_gridRow _ Hok'). unfold numGuesses in *. lia.
    + by rewrite app_nil_r.
Qed.

Lemma submitted_fields (m m' : model) :
  grid m' = grid m → gridRow m' = gridRow m → submitted m' = submitted m.
Proof. unfold submitted. by intros -> ->. Qed.

(** An accepted guess keeps the ledger of the sessions in order. *)
Lemma accepted_ledger_counts (guess : list byte) (e : env) (w : world)
    (ms : list model) (i : nat) :
  ms !! i = Some (mdl w) → gameOver (mdl w) = false →
  grid (mdl w) !! Z.to_nat (gridRow (mdl w)) = Some guess →
  ledger_counts ms (db w) →
  ledger_counts (<[i := mdl (accepted guess e w)]> ms) (db (accepted guess e w)).
Proof.
  intros Hi Hopen Hrow Hcounts.
  pose proof (Forall_lookup_1 _ _ _ _ (counts_ok _ _ Hcounts) Hi) as Hok.
  pose proof (model_ok_accepted guess e w Hok Hopen) as Hok'.
  destruct (accepted_saved guess e w) as (Hdb & Hid & Hans & Hover).
  destruct (accepted_fields guess e w) as (Hgrid & _ & _ & Hr & _).
  pose proof (ok_in_progress _ Hok Hopen) as Hlt. pose proof (ok_gridRow _ Hok).
  unfold numGuesses in *. rewrite int_incr_small in Hr by lia.
  pose proof (submitted_next (mdl w) _ guess Hok Hlt Hrow Hgrid Hr) as Hsub.
  cbn zeta in *. rewrite Hdb.
  set (m' := mdl (accepted guess e w)) in *.
  assert (Hlen : (i < length ms)%nat) by by eapply lookup_lt_Some.
  destruct (saved_cases (string_of_list_ascii guess) e w)
    as (Hm1 & [[-> Hid1]|[(H0 & Hid1 & Hdb1)|(Hne & Hid1 & ->)]]).
  - eapply ledger_counts_same; [done|done| |done]. right.
    split_and!; [congruence|done|auto|]. rewrite Hsub. by apply sublist_inserts_r.
  - pose proof (ledger_counts_CreateGame _ _ _ _ Hi H0 Hcounts) as Hcounts1.
    cbn zeta in Hcounts1. unfold store.CreateGame in Hcounts1, Hdb1.
    cbn [fst snd store.game_ID] in Hcounts1, Hdb1.
    set (id := store.fresh_ID _) in *. set (m1 := set_gameID id (mdl w)) in *.
    assert (Hi1 : <[i := m1]> ms !! i = Some m1) by by apply list_lookup_insert_eq.
    rewrite <- (list_insert_insert_eq ms i m' m1).
    assert (id ≠ 0) as Hid0.
    { pose proof (fresh_ID_positive (store.game_ID <$> store.game (db w))).
      unfold id. lia. }
    assert (gameID m' = gameID m1) as Hid' by by rewrite Hid, Hid1.
    destruct Hdb1 as [-> | ->].
    + eapply ledger_counts_same; [done|done| |done]. right.
      split_and!; [done|done|auto|]. rewrite Hsub. by apply sublist_inserts_r.
    + eapply (ledger_counts_CreateGuess _ _ i m1 m' guess); try done. auto.
  - eapply (ledger_counts_CreateGuess (db w) _ i (mdl w) m' guess); try done;
      [congruence|auto].
Qed.

(** Handling a message keeps the ledger of the sessions in order. *)
Lemma handles_ledger_counts (e : env) (w w' : world) (msg : Msg) (c : Cmd)
    (ms : list model) (i : nat) :
  handles dict e w msg c w' → ms !! i = Some (mdl w) →
  ledger_counts ms (db w) → ledger_counts (<[i := mdl w']> ms) (db w').
Proof.
  intros H Hi Hcounts.
  pose proof (Forall_lookup_1 _ _ _ _ (counts_ok _ _ Hcounts) Hi) as Hok.
  pose proof (handles_model_ok dict e w w' msg c Hok H) as Hok'.
  assert (Hsame : ∀ m', model_ok m' → gameID m' = gameID (mdl w) →
                        answer m' = answer (mdl w) → gameOver m' = gameOver (mdl w) →
                        submitted m' = submitted (mdl w) →
                        ledger_counts (<[i := m']> ms) (db w)).
  { intros m' ? ? ? Hgo Hsub. eapply ledger_counts_same; [done|done| |done].
    right. split_and!; [done|done|congruence|by rewrite Hsub]. }
  destruct H as [|runes|msg Hre|runes Hopen Hcol|runes msg Hopen Hmsg
                |runes guess Hopen Hcol Hrow Hword|ch row Hopen Hcol Hch Hrow
                |type runes Htype Hre|width height|].
  - apply Hsame; try done; unfold timed_out; cbn zeta; by case_decide.
  - by apply Hsame.
  - eapply ledger_counts_same; [done|done| |done]. left.
    unfold restarted, rescored. cbn. by destruct (getTotalScoreOk e).
  - by apply Hsame.
  - by apply Hsame.
  - rewrite <- (list_insert_insert_eq ms i _ (mdl (defaulted w))).
    apply accepted_ledger_counts; try done.
    + apply list_lookup_insert_eq. by eapply lookup_lt_Some.
    + apply Hsame; try done. by apply model_ok_status.
  - apply Hsame; try done. unfold submitted. cbn [mdl grid gridRow set_grid set_gridCol].
    change (gridRow (mdl (defaulted w))) with (gridRow (mdl w)).
    by rewrite take_insert_ge by lia.
  - by apply Hsame.
  - by apply Hsame.
  - by rewrite list_insert_id.
Qed.

(** The ledger of a reachable system, session by session. *)
Lemma reachable_ledger_counts (sys : system) :
  reachable dict sys → ledger_counts (s_model <$> sessions sys) (ledger sys).
Proof.
  intros Hreach.
  induction Hreach as [|sys sys' Hreach IH Hstep].
  { constructor; [|constructor|constructor|constructor].
    exact (reachable_ledger_inv dict _ (reachable_start dict)). }
  pose proof (reachable_model_ok dict sys Hreach) as Hoks.
  destruct Hstep as [sys width height e c w Hrun|sys i s msg e c w Hs Hmsg Hrun
                    |sys i s k rest e c w Hs Hk Hrun|sys]; cbn [sessions ledger].
  - rewrite Init_restarted in Hrun. simplify_eq.
    rewrite fmap_app. cbn [fmap list_fmap]. rewrite s_model_after.
    apply ledger_counts_snoc; [| |done].
    + unfold restarted, rescored. cbn. by destruct (getTotalScoreOk e).
    + apply model_ok_restarted, model_ok_newModel.
  - eapply Forall_lookup_1 in Hoks; [|exact Hs].
    destruct (Update_handles dict e (world_of s (ledger sys)) msg Hoks)
      as (c' & w' & Hrun' & H).
    rewrite Hrun in Hrun'. simplify_eq.
    rewrite list_fmap_insert, s_model_after.
    eapply handles_ledger_counts; [exact H| |done].
    by rewrite list_lookup_fmap, Hs.
  - eapply Forall_lookup_1 in Hoks; [|exact Hs].
    destruct (Update_handles dict e (world_of s (ledger sys)) msgResetStatus Hoks)
      as (c' & w' & Hrun' & H).
    rewrite Hrun in Hrun'. simplify_eq.
    rewrite list_fmap_insert, s_model_after.
    eapply handles_ledger_counts; [exact H| |done].
    by rewrite list_lookup_fmap, Hs.
  - by eapply ledger_counts_nil.
Qed.

End ledger_counts.

(** ** What a step does to the ledger *)

Section ledger_effects.
Import Session System.
Variable dict : Dictionary.

(** The game a session holds while it is in progress is not won in the
    ledger. *)
Lemma owned_not_won (t : store.Tables) (m : model) (g : store.Game) :
  store.ledger_wf t → owns t m → gameID m ≠ 0 → gameOver m = false →
  g ∈ store.game t → store.game_ID g = gameID m →
  store.spec_is_win t g = false.
Proof.
  intros [Hnd _] Howns Hne Hopen Hg Hid.
  destruct (Howns Hne) as [Hin Hall]. specialize (Hall Hopen).
  assert (g = store.mkGame (gameID m) (Some (string_of_list_ascii (answer m))))
    as -> by (by apply (NoDup_same_ID (store.game t))).
  unfold store.spec_is_win, store.guesses_of. cbn [store.game_ID store.game_Answer].
  destruct (last _) as [x|] eqn:Hlast; [|done].
  apply last_Some_elem_of in Hlast.
  by eapply Forall_forall in Hall.
Qed.

(** The rows an accepted guess adds to the tables: at most one game and at
    most one guess, and the guess under a game that is not won. *)
Lemma saved_effect (guess : string) (e : env) (w : world) (ms : list model) (i : nat) :
  ms !! i = Some (mdl w) → gameOver (mdl w) = false → ledger_inv ms (db w) →
  ∃ new xs,
    store.game (db (saved guess e w)) = store.game (db w) ++ new ∧
    store.guess (db (saved guess e w)) = store.guess (db w) ++ xs ∧
    (length new ≤ 1)%nat ∧ (length xs ≤ 1)%nat ∧
    (∀ x g, x ∈ xs → g ∈ store.game (db w) →
            store.guess_GameID x = Some (store.game_ID g) →
            store.spec_is_win (db w) g = false).
Proof.
  intros Hi Hopen Hinv.
  destruct (saved_cases guess e w)
    as (_ & [[-> _]|[(H0 & _ & [-> | ->])|(Hne & _ & ->)]]);
    unfold store.CreateGuess, store.CreateGame; cbn [fst snd store.game store.guess].
  - exists [], []. rewrite !app_nil_r. split_and!; try done; [cbn; lia..|].
    by intros x g ?%elem_of_nil.
  - eexists [_], []. rewrite !app_nil_r. split_and!; try done; [cbn; lia..|].
    by intros x g ?%elem_of_nil.
  - eexists [_], [_]. split_and!; try done; [cbn; lia..|].
    intros x g ->%list_elem_of_singleton Hg. cbn. intros [= Hid].
    apply (list_elem_of_fmap_2 store.game_ID), fresh_ID_above in Hg. lia.
  - eexists [], [_]. rewrite !app_nil_r. split_and!; try done; [cbn; lia..|].
    intros x g ->%list_elem_of_singleton Hg. cbn. intros [= Hid].
    pose proof (Forall_lookup_1 _ _ _ _ (inv_owns _ _ Hinv) Hi) as Howns.
    by apply (owned_not_won (db w) (mdl w)); [apply Hinv|..].
Qed.

Lemma handles_effect (e : env) (w w' : world) (msg : Msg) (c : Cmd)
    (ms : list model) (i : nat) :
  handles dict e w msg c w' → ms !! i = Some (mdl w) → ledger_inv ms (db w) →
  ∃ new xs,
    store.game (db w') = store.game (db w) ++ new ∧
    store.guess (db w') = store.guess (db w) ++ xs ∧
    (length new ≤ 1)%nat ∧ (length xs ≤ 1)%nat ∧
    (∀ x g, x ∈ xs → g ∈ store.game (db w) →
            store.guess_GameID x = Some (store.game_ID g) →
            store.spec_is_win (db w) g = false).
Proof.
  intros H Hi Hinv.
  assert (Hnone : ∃ new xs,
             store.game (db w) = store.game (db w) ++ new ∧
             store.guess (db w) = store.guess (db w) ++ xs ∧
             (length new ≤ 1)%nat ∧ (length xs ≤ 1)%nat ∧
             (∀ x g, x ∈ xs → g ∈ store.game (db w) →
                     store.guess_GameID x = Some (store.game_ID g) →
                     store.spec_is_win (db w) g = false)).
  { exists [], []. rewrite !app_nil_r. split_and!; try done; [cbn; lia..|].
    by intros x g ?%elem_of_nil. }
  destruct H as [|runes|msg Hre|runes Hopen Hcol|runes msg Hopen Hmsg
                |runes guess Hopen Hcol Hrow Hword|ch row Hopen Hcol Hch Hrow
                |type runes Htype Hre|width height|]; try exact Hnone.
  destruct (accepted_saved guess e (defaulted w)) as (-> & _).
  apply (saved_effect _ e (defaulted w) (<[i := mdl (defaulted w)]> ms) i); try done.
  - apply list_lookup_insert_eq. by eapply lookup_lt_Some.
  - eapply ledger_inv_same; [done| |done]. by right.
Qed.

End ledger_effects.

(** ** The ledger over time *)

Lemma SUM_bounds (a b : Z) (l : list Z) :
  Forall (λ x, a <= x <= b) l →
  a * Z.of_nat (length l) <= store.SUM l <= b * Z.of_nat (length l).
Proof.
  unfold store.SUM. induction 1 as [|x l Hx Hl IH]; cbn [foldr length]; lia.
Qed.

Lemma SUM_le {A : Type} (f g : A → Z) (l : list A) :
  (∀ x, x ∈ l → f x <= g x) → store.SUM (f <$> l) <= store.SUM (g <$> l).
Proof.
  unfold store.SUM. induction l as [|x l IH]; intros Hle; cbn; [lia|].
  pose proof (Hle x ltac:(left)).
  assert (foldr Z.add 0 (f <$> l) <= foldr Z.add 0 (g <$> l)); [|lia].
  apply IH. intros y Hy. apply Hle. by right.
Qed.

Lemma SUM_nonneg {A : Type} (f : A → Z) (l : list A) :
  (∀ x, x ∈ l → 0 <= f x) → 0 <= store.SUM (f <$> l).
Proof.
  intros Hf. pose proof (SUM_le (λ _, 0) f l Hf) as Hle.
  assert (store.SUM ((λ _ : A, 0) <$> l) = 0) as Hz; [|lia].
  unfold store.SUM. clear. induction l; cbn; lia.
Qed.

(** A game with at most six guesses contributes nothing or 50 to 100. *)
Lemma spec_contribution_bounds (t : store.Tables) (g : store.Game) :
  (length (store.guesses_of t g) ≤ 6)%nat →
  if store.spec_is_win t g
  then (1 ≤ length (store.guesses_of t g))%nat
       ∧ 50 <= store.spec_contribution t g <= 100
  else store.spec_contribution t g = 0.
Proof.
  intros Hsix. unfold store.spec_contribution. cbn zeta.
  destruct (store.spec_is_win t g) eqn:Hwin; [|done].
  unfold store.spec_is_win in Hwin.
  destruct (store.guesses_of t g) as [|x l]; [done|]. cbn [length] in *. lia.
Qed.

Lemma spec_contribution_guesses (t t' : store.Tables) (g : store.Game) :
  store.guesses_of t' g = store.guesses_of t g →
  store.spec_contribution t' g = store.spec_contribution t g.
Proof.
  unfold store.spec_contribution, store.spec_is_win. cbn zeta. by intros ->.
Qed.

(** The total of the contributions does not fall when games are added and
    guesses are written under games that are not won. *)
Lemma spec_TotalScore_le (t t' : store.Tables) (new : list store.Game)
    (xs : list store.Guess) :
  store.game t' = store.game t ++ new →
  store.guess t' = store.guess t ++ xs →
  Forall (λ g, (length (store.guesses_of t' g) ≤ 6)%nat) (store.game t') →
  (∀ x g, x ∈ xs → g ∈ store.game t →
          store.guess_GameID x = Some (store.game_ID g) →
          store.spec_is_win t g = false) →
  store.spec_TotalScore t <= store.spec_TotalScore t'.
Proof.
  intros Hgames Hguesses Hsix Hopen. unfold store.spec_TotalScore.
  rewrite Hgames, fmap_app, SUM_app. rewrite Hgames in Hsix.
  apply Forall_app in Hsix as [Hold Hnew].
  assert (0 <= store.SUM (store.spec_contribution t' <$> new)) as Hpos.
  { apply SUM_nonneg. intros g Hg. eapply Forall_forall in Hnew; [|exact Hg].
    pose proof (spec_contribution_bounds t' g Hnew) as Hb.
    destruct (store.spec_is_win t' g); lia. }
  assert (store.SUM (store.spec_contribution t <$> store.game t)
          <= store.SUM (store.spec_contribution t' <$> store.game t)); [|lia].
  apply SUM_le. intros g Hg. eapply Forall_forall in Hold; [|exact Hg].
  destruct (decide (Exists (λ x, store.guess_GameID x = Some (store.game_ID g)) xs))
    as [(x & Hx & Hid)%Exists_exists|Hnone].
  - pose proof (Hopen x g Hx Hg Hid) as Hwin.
    pose proof (spec_contribution_bounds t' g Hold) as Hb.
    unfold store.spec_contribution at 1. cbn zeta. rewrite Hwin.
    destruct (store.spec_is_win t' g); lia.
  - rewrite (spec_contribution_guesses t t'); [done|].
    unfold store.guesses_of. rewrite Hguesses, filter_app.
    destruct (filter _ xs) as [|x l] eqn:Hfilter; [by rewrite app_nil_r|].
    assert (Hx : x ∈ x :: l) by left. rewrite <- Hfilter in Hx.
    apply list_elem_of_filter in Hx as [Hid Hx].
    destruct Hnone. apply Exists_exists. eauto.
Qed.

Section ledger_claims.
Import Session System.
Variable dict : Dictionary.

Lemma step_effect (sys sys' : system) :
  reachable dict sys → step dict sys sys' →
  ∃ new xs,
    store.game (ledger sys') = store.game (ledger sys) ++ new ∧
    store.guess (ledger sys') = store.guess (ledger sys) ++ xs ∧
    (length new ≤ 1)%nat ∧ (length xs ≤ 1)%nat ∧
    (∀ x g, x ∈ xs → g ∈ store.game (ledger sys) →
            store.guess_GameID x = Some (store.game_ID g) →
            store.spec_is_win (ledger sys) g = false).
Proof.
  intros Hreach Hstep.
  assert (Hnone : ∃ new xs,
             store.game (ledger sys) = store.game (ledger sys) ++ new ∧
             store.guess (ledger sys) = store.guess (ledger sys) ++ xs ∧
             (length new ≤ 1)%nat ∧ (length xs ≤ 1)%nat ∧
             (∀ x g, x ∈ xs → g ∈ store.game (ledger sys) →
                     store.guess_GameID x = Some (store.game_ID g) →
                     store.spec_is_win (ledger sys) g = false)).
  { exists [], []. rewrite !app_nil_r. split_and!; try done; [cbn; lia..|].
    by intros x g ?%elem_of_nil. }
  pose proof (reachable_model_ok dict sys Hreach) as Hoks.
  pose proof (reachable_ledger_inv dict sys Hreach) as Hinv.
  destruct Hstep as [sys width height e c w Hrun|sys i s msg e c w Hs Hmsg Hrun
                    |sys i s k rest e c w Hs Hk Hrun|sys]; cbn [sessions ledger].
  - rewrite Init_restarted in Hrun. by simplify_eq.
  - eapply Forall_lookup_1 in Hoks; [|exact Hs].
    destruct (Update_handles dict e (world_of s (ledger sys)) msg Hoks)
      as (c' & w' & Hrun' & H).
    rewrite Hrun in Hrun'. simplify_eq.
    eapply (handles_effect dict e (world_of s (ledger sys))); [exact H| |exact Hinv].
    by rewrite list_lookup_fmap, Hs.
  - eapply Forall_lookup_1 in Hoks; [|exact Hs].
    destruct (Update_handles dict e (world_of s (ledger sys)) msgResetStatus Hoks)
      as (c' & w' & Hrun' & H).
    rewrite Hrun in Hrun'. simplify_eq.
    eapply (handles_effect dict e (world_of s (ledger sys))); [exact H| |exact Hinv].
    by rewrite list_lookup_fmap, Hs.
  - done.
Qed.

(** No step of the system deletes or rewrites a row of the ledger: a step
    appends at most one game and at most one guess, whatever the sessions
    do and whichever store calls fail. *)
Theorem ledger_is_append_only (sys sys' : system) :
  reachable dict sys → step dict sys sys' →
  ∃ new xs,
    store.game (ledger sys') = store.game (ledger sys) ++ new ∧
    store.guess (ledger sys') = store.guess (ledger sys) ++ xs ∧
    (length new ≤ 1)%nat ∧ (length xs ≤ 1)%nat.
Proof.
  intros Hreach Hstep.
  destruct (step_effect sys sys' Hreach Hstep) as (new & xs & ? & ? & ? & ? & _).
  by exists new, xs.
Qed.

(** The total score of the ledger never falls, whatever the sessions do. *)
Theorem total_score_never_decreases (sys sys' : system) :
  reachable dict sys → step dict sys sys' →
  store.score_value (store.GetTotalScore (ledger sys))
  <= store.score_value (store.GetTotalScore (ledger sys')).
Proof.
  intros Hreach Hstep.
  assert (reachable dict sys') as Hreach' by by eapply reachable_step.
  rewrite (proj1 (GetTotalScore_spec _ (reachable_ledger_wf dict _ Hreach))).
  rewrite (proj1 (GetTotalScore_spec _ (reachable_ledger_wf dict _ Hreach'))).
  destruct (step_effect sys sys' Hreach Hstep) as (new & xs & Hg & Hx & _ & _ & Hopen).
  eapply spec_TotalScore_le; [done|done| |done].
  apply (reachable_ledger_counts dict sys' Hreach').
Qed.

(** In the ledger of a reachable system every game has at most six guesses,
    so every won game was won with one to six guesses and is worth 50 to
    100: the total score lies between 50 and 100 times the number of games
    won. *)
Theorem games_have_at_most_six_guesses (sys : system) :
  reachable dict sys →
  let t := ledger sys in
  Forall (λ g, (length (store.guesses_of t g) ≤ 6)%nat) (store.game t) ∧
  Forall (λ k, 1 <= k <= 6) (store.won_guess_counts t) ∧
  50 * Z.of_nat (length (store.won_guess_counts t))
  <= store.score_value (store.GetTotalScore t)
  <= 100 * Z.of_nat (length (store.won_guess_counts t)).
Proof.
  intros Hreach. cbn zeta.
  pose proof (counts_six _ _ (reachable_ledger_counts dict sys Hreach)) as Hsix.
  assert (Forall (λ k, 1 <= k <= 6) (store.won_guess_counts (ledger sys))) as Hwon.
  { unfold store.won_guess_counts. apply Forall_fmap, Forall_forall.
    intros g [Hwin Hg]%list_elem_of_filter. cbn.
    eapply Forall_forall in Hsix; [|exact Hg].
    pose proof (spec_contribution_bounds _ g Hsix) as Hb. rewrite Hwin in Hb. lia. }
  split; [done|]. split; [done|].
  destruct (GetTotalScore_spec _ (reachable_ledger_wf dict _ Hreach)) as [-> ->].
  pose proof (SUM_bounds 50 100
                ((λ k, 100 - 10 * (k - 1)) <$> store.won_guess_counts (ledger sys)))
    as Hb.
  rewrite length_fmap in Hb. apply Hb, Forall_fmap.
  eapply Forall_impl; [exact Hwon|]. cbn. lia.
Qed.

(** In a reachable system the game a session holds is in the game table
    with the session's answer, and the guesses recorded for it are rows the
    session has submitted, in their order: at most as many as the rows above
    the cursor. *)
Theorem recorded_guesses_are_submitted_rows (sys : system) (s : session) :
  reachable dict sys → s ∈ sessions sys → gameID (s_model s) ≠ 0 →
  let m := s_model s in
  store.mkGame (gameID m) (Some (string_of_list_ascii (answer m)))
    ∈ store.game (ledger sys) ∧
  sublist (recorded (ledger sys) (gameID m)) (submitted m) ∧
  Z.of_nat (length (recorded (ledger sys) (gameID m))) <= gridRow m.
Proof.
  intros Hreach Hs Hne. cbn zeta.
  destruct (reachable_ledger_counts dict sys Hreach) as [Hinv Hoks Hrec _].
  assert (s_model s ∈ s_model <$> sessions sys) as Hm by by apply list_elem_of_fmap_2.
  eapply Forall_forall in Hoks, Hrec; [|exact Hm..].
  pose proof (inv_owns _ _ Hinv) as Howns.
  eapply Forall_forall in Howns; [|exact Hm].
  split_and!; [by apply Howns|by apply Hrec|].
  rewrite <- (length_submitted _ Hoks).
  apply Nat2Z.inj_le, sublist_length. by apply Hrec.
Qed.

End ledger_claims.

(** ** The ledger theorems at work on the example sessions *)

Section ledger_witnesses.
Import Session System Examples.

(** Enter on the complete row CRANE is a step of the system. *)
Lemma won_step : step dict (alone typed_CRANE) (alone won).
Proof.
  pose proof (step_event dict (alone typed_CRANE) 0 (only typed_CRANE) enter fine
                CmdNil won eq_refl ltac:(discriminate)
                ltac:(vm_compute; reflexivity)) as H.
  match type of H with
  | step _ _ ?sys' => replace sys' with (alone won) in H by (vm_compute; reflexivity)
  end.
  exact H.
Qed.

Lemma ledger_is_append_only_witness :
  ∃ new xs,
    store.game (ledger (alone won)) = store.game (ledger (alone typed_CRANE)) ++ new ∧
    store.guess (ledger (alone won)) = store.guess (ledger (alone typed_CRANE)) ++ xs ∧
    (length new ≤ 1)%nat ∧ (length xs ≤ 1)%nat.
Proof.
  exact (ledger_is_append_only dict (alone typed_CRANE) (alone won)
           typed_CRANE_reachable won_step).
Defined.

Lemma total_score_never_decreases_witness :
  store.score_value (store.GetTotalScore (ledger (alone typed_CRANE)))
  <= store.score_value (store.GetTotalScore (ledger (alone won))).
Proof.
  exact (total_score_never_decreases dict (alone typed_CRANE) (alone won)
           typed_CRANE_reachable won_step).
Defined.

Lemma games_have_at_most_six_guesses_witness :
  Forall (λ g, (length (store.guesses_of (ledger (alone won)) g) ≤ 6)%nat)
    (store.game (ledger (alone won))).
Proof.
  exact (proj1 (games_have_at_most_six_guesses dict (alone won) won_reachable)).
Defined.

Lemma recorded_guesses_are_submitted_rows_witness :
  sublist (recorded (ledger (alone won)) (gameID (s_model (only won))))
    (submitted (s_model (only won))).
Proof.
  refine (proj1 (proj2 (recorded_guesses_are_submitted_rows dict (alone won) (only won)
                          won_reachable (only_alone won) _))).
  vm_compute. discriminate.
Defined.

End ledger_witnesses.

(** ** The game does not depend on the store *)

Section store_failures.
Import Session System.
Variable dict : Dictionary.

Lemma accepted_gameOver (guess : list byte) (e : env) (w : world) :
  gameOver (mdl (accepted guess e w))
  = if bool_decide (guess = answer (mdl w)) then true
    else if decide (int_incr (gridRow (mdl w)) = numGuesses) then true
         else gameOver (mdl w).
Proof.
  assert (Hsaved : mdl (saved (string_of_list_ascii guess) e w)
                   = set_gameID (gameID (mdl (saved (string_of_list_ascii guess) e w)))
                       (mdl w)).
  { apply saved_cases. }
  unfold accepted, ended, rescored, moved. cbn zeta.
  set (w1 := saved _ _ _) in *.
  case_bool_decide; [by destruct (getTotalScoreOk e)|].
  cbn [mdl gridRow set_gridCol set_gridRow set_keyStates]. rewrite Hsaved.
  cbn [gridRow set_gameID]. case_decide; [by destruct (getTotalScoreOk e)|done].
Qed.

Lemma same_play_model_ok (m m' : model) : same_play m m' → model_ok m → model_ok m'.
Proof.
  intros (? & ? & ? & _ & ? & ? & _). by apply model_ok_fields.
Qed.

(** Whatever the store answers and whatever the tables hold, [Update]
    returns the same command and leaves the same game: two sessions that
    show the same game and draw the same word from the dictionary show the
    same game after any message, even if their store calls fail
    differently. *)
Theorem store_failures_do_not_change_play (msg : Msg) (e1 e2 : env) (w1 w2 : world) :
  model_ok (mdl w1) → same_play (mdl w1) (mdl w2) → randomWord e1 = randomWord e2 →
  ∃ c w1' w2',
    Update dict msg e1 w1 = Done (c, w1') ∧ Update dict msg e2 w2 = Done (c, w2') ∧
    same_play (mdl w1') (mdl w2').
Proof.
  intros Hok Hsame Hword.
  pose proof (same_play_model_ok _ _ Hsame Hok) as Hok2.
  destruct Hsame as (Hg & Hr & Hc & Hk & Hgo & Ha & Hp & Hh & Hwd).
  assert (Hdone : ∀ c (w1' w2' : world),
             Update dict msg e1 w1 = Done (c, w1') → Update dict msg e2 w2 = Done (c, w2') →
             same_play (mdl w1') (mdl w2') →
             ∃ c w1' w2',
               Update dict msg e1 w1 = Done (c, w1') ∧ Update dict msg e2 w2 = Done (c, w2') ∧
               same_play (mdl w1') (mdl w2')) by (intros; eauto 10).
  assert (Hrestart : same_play (mdl (restarted e1 (defaulted w1)))
                       (mdl (restarted e2 (defaulted w2)))).
  { unfold restarted, rescored, same_play.
    destruct (getTotalScoreOk e1), (getTotalScoreOk e2); cbn;
      rewrite ?Hg, ?Hp, ?Hh, ?Hwd, ?Ha, ?Hword; done. }
  destruct msg as [|type runes|width height|].
  - eapply Hdone; [apply Update_timer..|].
    unfold timed_out, same_play. cbn zeta. cbn [mdl].
    repeat case_decide; cbn; rewrite ?Hg, ?Hr, ?Hc, ?Hk, ?Hgo, ?Ha, ?Hp, ?Hh, ?Hwd; done.
  - destruct (restarts (mdl w1) (KeyMsg type runes)) eqn:Hre.
    { assert (restarts (mdl w2) (KeyMsg type runes) = true) as Hre2.
      { destruct type; cbn in *; congruence. }
      apply restarts_spec in Hre, Hre2.
      eapply Hdone; [| |exact Hrestart];
        rewrite Update_restarts by done; unfold mbind, M_bind;
        by rewrite doRestart_run. }
    destruct type; try done.
    + eapply (Hdone Quit (defaulted w1) (defaulted w2)); [done..|].
      unfold same_play. cbn. by rewrite ?Hg, ?Hr, ?Hc, ?Hk, ?Hgo, ?Ha, ?Hp, ?Hh, ?Hwd.
    + eapply Hdone; [by apply Update_backspace..|].
      rewrite Hgo, Hc. case_match; unfold same_play; cbn;
        by rewrite ?Hg, ?Hr, ?Hc, ?Hk, ?Hgo, ?Ha, ?Hp, ?Hh, ?Hwd.
    + cbn in Hre. assert (gameOver (mdl w2) = false) as Hre2 by congruence.
      destruct (decide (gridCol (mdl w1) = numChars)) as [Hcol|Hcol].
      * destruct (model_ok_row _ Hok Hre) as (guess & Hrow & Hlen).
        assert (grid (mdl w2) !! Z.to_nat (gridRow (mdl w2)) = Some guess) as Hrow2
          by by rewrite Hg, Hr.
        destruct (IsWord dict (string_of_list_ascii guess)) eqn:Hisword.
        -- eapply Hdone;
             [by apply (Update_enter_accepts dict runes e1 w1 guess)
             |apply (Update_enter_accepts dict runes e2 w2 guess); try done; congruence|].
           pose proof (accepted_gameOver guess e1 (defaulted w1)) as Hover1.
           pose proof (accepted_gameOver guess e2 (defaulted w2)) as Hover2.
           destruct (accepted_fields guess e1 (defaulted w1))
             as (Hg1 & Ha1 & Hk1 & Hr1 & Hc1 & Hp1 & Hh1 & Hw1).
           destruct (accepted_fields guess e2 (defaulted w2))
             as (Hg2 & Ha2 & Hk2 & Hr2 & Hc2 & Hp2 & Hh2 & Hw2).
           cbn zeta in *.
           change (mdl (defaulted w1)) with
             (set_status ("Score: " +:+ pretty (score (mdl w1))) (mdl w1)) in *.
           change (mdl (defaulted w2)) with
             (set_status ("Score: " +:+ pretty (score (mdl w2))) (mdl w2)) in *.
           cbn [grid answer keyStates gridRow gridCol statusPending windowHeight
                  windowWidth gameOver set_status] in *.
           unfold same_play.
           rewrite Hg1, Hg2, Ha1, Ha2, Hk1, Hk2, Hr1, Hr2, Hc1, Hc2, Hp1, Hp2,
             Hh1, Hh2, Hw1, Hw2, Hover1, Hover2.
           by rewrite Hg, Hr, Hk, Hgo, Ha, Hp, Hh, Hwd.
        -- destruct (doAcceptGuess_rejected dict e1 (defaulted w1)) as (m1 & _ & Hrun1);
             [by apply model_ok_status|done|right; by exists guess|].
           destruct (doAcceptGuess_rejected dict e2 (defaulted w2)) as (m2 & _ & Hrun2);
             [by apply model_ok_status|done|right; by exists guess|].
           eapply Hdone; [by rewrite Update_key, Hre|by rewrite Update_key, Hre2|].
           unfold same_play. cbn.
           by rewrite ?Hg, ?Hr, ?Hc, ?Hk, ?Hgo, ?Ha, ?Hp, ?Hh, ?Hwd.
      * destruct (doAcceptGuess_rejected dict e1 (defaulted w1)) as (m1 & _ & Hrun1);
          [by apply model_ok_status|done|by left|].
        destruct (doAcceptGuess_rejected dict e2 (defaulted w2)) as (m2 & _ & Hrun2);
          [by apply model_ok_status|done|left; cbn; congruence|].
        eapply Hdone; [by rewrite Update_key, Hre|by rewrite Update_key, Hre2|].
        unfold same_play. cbn.
        by rewrite ?Hg, ?Hr, ?Hc, ?Hk, ?Hgo, ?Ha, ?Hp, ?Hh, ?Hwd.
    + assert (Hplain : same_play (mdl (defaulted w1)) (mdl (defaulted w2))).
      { unfold same_play. cbn. by rewrite ?Hg, ?Hr, ?Hc, ?Hk, ?Hgo, ?Ha, ?Hp, ?Hh, ?Hwd. }
      destruct runes as [|ch [|]];
        [by eapply (Hdone CmdNil (defaulted w1) (defaulted w2))| |
         by eapply (Hdone CmdNil (defaulted w1) (defaulted w2))].
      destruct (decide (gameOver (mdl w1) = false ∧ gridCol (mdl w1) < numChars
                        ∧ isAsciiUpper (toAsciiUpper ch) = true))
        as [(Hopen & Hcol & Hup)|Hnot].
      * destruct (Update_char_accepts dict ch e1 w1) as (row & Hrow & Hrun1); [done..|].
        destruct (Update_char_accepts dict ch e2 w2) as (row2 & Hrow2 & Hrun2);
          [done|congruence|lia|done|].
        rewrite Hg, Hr, Hrow in Hrow2. simplify_eq.
        eapply Hdone; [exact Hrun1|exact Hrun2|].
        unfold same_play. cbn.
        by rewrite ?Hg, ?Hr, ?Hc, ?Hk, ?Hgo, ?Ha, ?Hp, ?Hh, ?Hwd.
      * assert (gameOver (mdl w1) = true ∨ ¬ gridRow (mdl w1) < numGuesses
                ∨ ¬ gridCol (mdl w1) < numChars
                ∨ isAsciiUpper (toAsciiUpper ch) = false) as Hwhy.
        { destruct (gameOver (mdl w1)); [by left|].
          destruct (decide (gridCol (mdl w1) < numChars)); [|by right; right; left].
          destruct (isAsciiUpper (toAsciiUpper ch)); [|by right; right; right].
          destruct Hnot. done. }
        eapply (Hdone CmdNil (defaulted w1) (defaulted w2));
          [by apply Update_char_ignored
          |apply Update_char_ignored; by rewrite Hgo, Hr, Hc|done].
    + eapply (Hdone CmdNil (defaulted w1) (defaulted w2)); [done..|].
      unfold same_play. cbn. by rewrite ?Hg, ?Hr, ?Hc, ?Hk, ?Hgo, ?Ha, ?Hp, ?Hh, ?Hwd.
  - eapply Hdone; [reflexivity..|].
    unfold same_play. cbn. by rewrite ?Hg, ?Hr, ?Hc, ?Hk, ?Hgo, ?Ha, ?Hp, ?Hh, ?Hwd.
  - eapply (Hdone CmdNil w1 w2); [done..|].
    unfold same_play. by rewrite ?Hg, ?Hr, ?Hc, ?Hk, ?Hgo, ?Ha, ?Hp, ?Hh, ?Hwd.
Qed.

End store_failures.

(** ** GetTotalScore on any tables *)

Section sql_total.
Import store.

Lemma rows_of_product (t : Tables) (g : Game) :
  length (rows_of t g) = (victories t g * length (guesses_of t g))%nat.
Proof.
  unfold rows_of, victories.
  by rewrite length_product, guesses_joined, victories_joined.
Qed.

Lemma victories_le (t : Tables) (g : Game) :
  (victories t g ≤ length (guesses_of t g))%nat.
Proof. unfold victories. apply length_filter. Qed.

Lemma rows_of_sql_contribution (t : Tables) (g : Game) :
  (if decide (rows_of t g = []) then 0
   else 10 * (11 - Z.of_nat (length (rows_of t g))))
  = sql_contribution t g.
Proof.
  unfold sql_contribution. cbn zeta. rewrite rows_of_product.
  pose proof (rows_of_product t g) as Hlen. pose proof (victories_le t g) as Hle.
  destruct (decide (rows_of t g = [])) as [Hnil|Hrows].
  - rewrite Hnil in Hlen. cbn in Hlen. rewrite decide_True; [done|]. nia.
  - rewrite decide_False; [done|]. intros Hv. rewrite Hv in Hlen.
    by apply nil_length_inv in Hlen.
Qed.

Lemma SUM_of_groups_raw (t : Tables) (gl : list Game) :
  NoDup (game_ID <$> gl) →
  SUM_of_groups (gl ≫= rows_of t) = SUM (sql_contribution t <$> gl).
Proof.
  induction gl as [|g gl IH]; intros Hnd; [done|].
  rewrite fmap_cons in Hnd. apply NoDup_cons in Hnd as [Hg Hnd].
  rewrite bind_cons, (SUM_of_groups_app _ _ (game_ID g)).
  - rewrite rows_of_sql_contribution. by rewrite IH.
  - apply rows_of_key.
  - apply Forall_forall. intros r Hr.
    apply list_elem_of_bind in Hr as (g' & Hr & Hg').
    pose proof (rows_of_key t g') as Hk.
    eapply Forall_forall in Hk; [|exact Hr]. rewrite Hk. intros Heq.
    apply Hg. rewrite <- Heq. apply list_elem_of_fmap. eauto.
Qed.

(** On any tables in which no two games share an identity, GetTotalScore
    (NULL read as 0) is the sum over the games of: nothing for a game none
    of whose guesses equals its answer, and otherwise 10 * (11 - v * n)
    for a game with n guesses of which v equal its answer.  So a game with
    exactly one such guess, wherever it is among the n, adds
    100 - 10 * (n - 1), and a guess that repeats the answer is counted
    n times over. *)
Theorem GetTotalScore_as_computed (t : Tables) :
  NoDup (game_ID <$> game t) →
  score_value (GetTotalScore t) = SUM (sql_contribution t <$> game t) ∧
  (∀ g, victories t g = 0%nat → sql_contribution t g = 0) ∧
  (∀ g, victories t g = 1%nat →
        sql_contribution t g = 100 - 10 * (Z.of_nat (length (guesses_of t g)) - 1)).
Proof.
  intros Hnd. split_and!.
  - rewrite GetTotalScore_groups, joined_rows_games. by apply SUM_of_groups_raw.
  - intros g Hv. unfold sql_contribution. cbn zeta. by rewrite Hv.
  - intros g Hv. unfold sql_contribution. cbn zeta. rewrite Hv.
    rewrite decide_False by lia. rewrite Nat.mul_1_l. lia.
Qed.

End sql_total.

Lemma GetTotalScore_as_computed_witness :
  store.score_value (store.GetTotalScore doubled_ledger)
  = store.SUM (sql_contribution doubled_ledger <$> store.game doubled_ledger).
Proof.
  apply (GetTotalScore_as_computed doubled_ledger).
  apply (bool_decide_unpack _). vm_compute. exact I.
Defined.

(** ** The statistics file of the first revision *)

Section legacy_db.
Import Legacy.

Ltac unwrap :=
  repeat match goal with
         | |- context [int_wrap ?z] =>
             lazymatch z with
             | context [int_wrap _] => fail
             | _ => rewrite (int_wrap_small z) by lia
             end
         end.

Ltac to_nat_goal :=
  repeat match goal with
         | |- context [Z.to_nat (Zpos ?p)] =>
             let n := eval vm_compute in (Z.to_nat (Zpos p)) in
             change (Z.to_nat (Zpos p)) with n
         end.

Lemma seven_counters (d : db) :
  length (Guesses d) = 7%nat →
  ∃ a0 a1 a2 a3 a4 a5 a6, d = mkDb [a0; a1; a2; a3; a4; a5; a6].
Proof.
  destruct d as [[|a0 [|a1 [|a2 [|a3 [|a4 [|a5 [|a6 [|]]]]]]]]]; try done.
  intros _. by eexists _, _, _, _, _, _, _.
Qed.

(** [db.addWin] adds one to the counter of its number of guesses and
    panics outside 1..6; [db.addLoss] adds one to the counter of losses.
    While the counters are small enough not to overflow, a win with k
    guesses raises [db.score] by 100 - 10 * (k - 1) and a loss leaves it as
    it is. *)
Theorem addWin_counts_one_game (d : db) (k : Z) :
  length (Guesses d) = 7%nat →
  (1 <= k <= 6 →
   ∃ n, Guesses d !! Z.to_nat k = Some n
        ∧ addWin d k = Done (mkDb (<[Z.to_nat k := int_incr n]> (Guesses d)))) ∧
  (¬ 1 <= k <= 6 → ∃ reason, addWin d k = Panic reason) ∧
  (∃ n, Guesses d !! 0%nat = Some n
        ∧ addLoss d = Done (mkDb (<[0%nat := int_incr n]> (Guesses d)))) ∧
  (Forall (λ n, 0 <= n < 2 ^ 50) (Guesses d) →
   (∀ d', addLoss d = Done d' → score_of d' = score_of d) ∧
   (∀ d', addWin d k = Done d' → score_of d' = score_of d + (100 - 10 * (k - 1)))).
Proof.
  intros Hlen.
  destruct (seven_counters d Hlen) as (a0 & a1 & a2 & a3 & a4 & a5 & a6 & ->).
  assert (Hwin : 1 <= k <= 6 →
                 ∃ n, [a0; a1; a2; a3; a4; a5; a6] !! Z.to_nat k = Some n
                      ∧ addWin (mkDb [a0; a1; a2; a3; a4; a5; a6]) k
                        = Done (mkDb (<[Z.to_nat k := int_incr n]>
                                        [a0; a1; a2; a3; a4; a5; a6]))).
  { intros Hk. unfold addWin. unfold numGuesses.
    rewrite !bool_decide_eq_true_2 by lia. cbn [andb negb Guesses].
    destruct (index_in_range [a0; a1; a2; a3; a4; a5; a6] k) as (n & Hn & ->);
      [cbn; lia|]. by exists n. }
  split_and!.
  - exact Hwin.
  - intros Hk. by apply addWin_out_of_range.
  - exists a0. split; [done|]. unfold addLoss, index. cbn [Guesses].
    rewrite decide_True by lia. done.
  - intros Hsmall.
    apply Forall_cons in Hsmall as [H0 Hsmall]. apply Forall_cons in Hsmall as [H1 Hsmall].
    apply Forall_cons in Hsmall as [H2 Hsmall]. apply Forall_cons in Hsmall as [H3 Hsmall].
    apply Forall_cons in Hsmall as [H4 Hsmall]. apply Forall_cons in Hsmall as [H5 Hsmall].
    apply Forall_cons in Hsmall as [H6 _].
    assert (2 ^ 50 = 1125899906842624) as Hpow by reflexivity. rewrite Hpow in *.
    split.
    + intros d'. unfold addLoss, index. cbn [Guesses]. rewrite decide_True by lia.
      intros [= <-]. unfold score_of. cbn -[int_incr]. unwrap. lia.
    + intros d' Hrun.
      destruct (decide (1 <= k <= 6)) as [Hk|Hk];
        [|destruct (addWin_out_of_range (mkDb [a0; a1; a2; a3; a4; a5; a6]) k Hk)
            as [reason Hpanic]; congruence].
      destruct (Hwin Hk) as (n & Hn & Hrun'). rewrite Hrun in Hrun'.
      injection Hrun' as ->.
      assert (k = 1 ∨ k = 2 ∨ k = 3 ∨ k = 4 ∨ k = 5 ∨ k = 6) as Hcases by lia.
      destruct Hcases as [->|[->|[->|[->|[->| ->]]]]]; cbn in Hn; injection Hn as <-;
        to_nat_goal; unfold score_of; cbn -[int_incr];
        rewrite int_incr_small by lia; unwrap; lia.
Qed.

Lemma addWin_counts_one_game_witness :
  ∃ n, Guesses zero_db !! Z.to_nat 2 = Some n
       ∧ addWin zero_db 2 = Done (mkDb (<[Z.to_nat 2 := int_incr n]> (Guesses zero_db))).
Proof.
  apply (proj1 (addWin_counts_one_game zero_db 2 eq_refl)). lia.
Defined.

Lemma length_decoded (f : option db) : length (Guesses (decoded f)) = 7%nat.
Proof.
  destruct f as [d|]; cbn [decoded Guesses zero_db].
  - rewrite length_take, length_app, length_replicate. unfold numGuesses. lia.
  - by rewrite length_replicate.
Qed.

(** [doWin] ends the game and announces the win whatever happens to the
    file.  If db.json can be read and written, it then holds the decoded
    statistics with the win added, and the score is [db.score] of it.  If
    it cannot be written, the score shown includes the win although the
    file does not.  If it cannot be read, score and file stay as they were.
    In both failures the error is kept in [m.errors] and a status reset is
    scheduled three seconds later. *)
Theorem legacy_win_recording (e : env) (w : world) :
  1 <= gridRow (mdl w) <= numGuesses →
  ∃ d',
    addWin (decoded (file w)) (gridRow (mdl w)) = Done d' ∧
    doWin e w
    = Done
        (if loadOk e then
           if saveOk e then
             (Sequentially CmdNil CmdNil,
              mkWorld (set_status "You win!"
                         (set_score (score_of d') (set_gameOver true (mdl w))))
                (Some d'))
           else
             (Sequentially (Tick (3 * Second)) CmdNil,
              mkWorld (set_status "You win!"
                         (set_statusPending (int_incr (statusPending (mdl w)))
                            (set_errors (errors (mdl w) ++ ["could not write to database"])
                               (set_score (score_of d') (set_gameOver true (mdl w))))))
                (file w))
         else
           (Sequentially (Tick (3 * Second)) CmdNil,
            mkWorld (set_status "You win!"
                       (set_statusPending (int_incr (statusPending (mdl w)))
                          (set_errors (errors (mdl w) ++ ["could not read from database"])
                             (set_gameOver true (mdl w)))))
              (file w))).
Proof.
  intros Hrow.
  destruct (addWin_in_range (decoded (file w)) (gridRow (mdl w)))
    as (d' & Hwin & _); [by rewrite length_decoded|done|].
  exists d'. split; [done|].
  unfold doWin, withDb, loadDb, save, reportError, setStatus.
  unfold mbind, M_bind, mret, M_ret, get, ask, modify, read_file, write_file, lift.
  cbn beta iota zeta delta [mdl file].
  destruct (loadOk e); [|done].
  destruct w as [m f]. cbn [mdl file] in *.
  destruct f as [d|]; cbn [decoded] in Hwin; cbn beta iota zeta delta [mdl file];
    change (gridRow (set_gameOver true m)) with (gridRow m); rewrite Hwin;
    cbn beta iota zeta delta [mdl file]; by destruct (saveOk e).
Qed.

Lemma legacy_win_recording_witness :
  ∃ d', addWin (decoded None) 1 = Done d'.
Proof.
  destruct (legacy_win_recording (mkEnv true true "CRANE")
              (mkWorld (set_gridRow 1 zero_model) None))
    as (d' & Hwin & _).
  - cbn. unfold numGuesses. lia.
  - exact (ex_intro _ d' Hwin).
Defined.

(** [doLoss] ends the game and reveals the word whatever happens to the
    file; the loss is counted in db.json if the file can be read and
    written, and the score, which a loss does not change, is read again
    from the statistics. *)
Theorem legacy_loss_recording (e : env) (w : world) :
  ∃ d',
    addLoss (decoded (file w)) = Done d' ∧
    doLoss e w
    = Done
        (let msg := "The word was " +:+ string_of_list_ascii (word (mdl w))
                    +:+ ". Better luck next time!" in
         if loadOk e then
           if saveOk e then
             (Sequentially CmdNil CmdNil,
              mkWorld (set_status msg
                         (set_score (score_of d') (set_gameOver true (mdl w))))
                (Some d'))
           else
             (Sequentially (Tick (3 * Second)) CmdNil,
              mkWorld (set_status msg
                         (set_statusPending (int_incr (statusPending (mdl w)))
                            (set_errors (errors (mdl w) ++ ["could not write to database"])
                               (set_score (score_of d') (set_gameOver true (mdl w))))))
                (file w))
         else
           (Sequentially (Tick (3 * Second)) CmdNil,
            mkWorld (set_status msg
                       (set_statusPending (int_incr (statusPending (mdl w)))
                          (set_errors (errors (mdl w) ++ ["could not read from database"])
                             (set_gameOver true (mdl w)))))
              (file w))).
Proof.
  destruct (addLoss_Done (decoded (file w))) as (d' & Hloss & _);
    [by rewrite length_decoded|].
  exists d'. split; [done|].
  unfold doLoss, withDb, loadDb, save, reportError, setStatus.
  unfold mbind, M_bind, mret, M_ret, get, ask, modify, read_file, write_file, lift.
  cbn beta iota zeta delta [mdl file].
  destruct (loadOk e); [|done].
  destruct w as [m f]. cbn [mdl file] in *.
  destruct f as [d|]; cbn [decoded] in Hloss; cbn beta iota zeta delta [mdl file];
    rewrite Hloss; cbn beta iota zeta delta [mdl file]; by destruct (saveOk e).
Qed.

End legacy_db.

(** ** More theorems at work on examples *)

Section more_witnesses.
Import Session System Examples.

Lemma store_failures_do_not_change_play_witness :
  ∃ c w1' w2',
    Update dict enter fine typed_CRANE = Done (c, w1') ∧
    Update dict enter no_game typed_CRANE = Done (c, w2') ∧
    same_play (mdl w1') (mdl w2').
Proof.
  apply (store_failures_do_not_change_play dict enter fine no_game
           typed_CRANE typed_CRANE).
  - exact (alone_model_ok _ typed_CRANE_reachable).
  - unfold same_play. repeat split.
  - reflexivity.
Defined.

End more_witnesses.

Lemma legacy_score_is_sum_witness :
  Legacy.score_of (Legacy.mkDb [1; 1; 1; 0; 0; 0; 0])
  = store.SUM ((λ k, 100 - 10 * (k - 1)) <$> omap id [Some 2; None; Some 1]).
Proof.
  apply (legacy_score_is_sum [Some 2; None; Some 1]).
  - vm_compute. reflexivity.
  - vm_compute. reflexivity.
Defined.

Lemma legacy_rejected_word_witness :
  ∃ msg,
    Legacy.doAcceptWord (λ _, true) (Legacy.mkEnv true true "CRANE")
      (Legacy.mkWorld Legacy.zero_model None)
    = Done (Tick (1 * Second),
            Legacy.mkWorld
              (Legacy.set_statusPending
                 (int_incr (Legacy.statusPending Legacy.zero_model))
                 (Legacy.set_status msg Legacy.zero_model))
              None).
Proof.
  apply (legacy_rejected_word (λ _, true) (Legacy.mkEnv true true "CRANE")
           (Legacy.mkWorld Legacy.zero_model None)).
  - reflexivity.
  - left. cbn. unfold numChars. lia.
Defined.

(** ** When a game is over *)

Section game_over.
Import Session System.
Variable dict : Dictionary.

Lemma handles_over_ok (e : env) (w w' : world) (msg : Msg) (c : Cmd) :
  model_ok (mdl w) → over_ok (mdl w) → handles dict e w msg c w' → over_ok (mdl w').
Proof.
  intros Hok Hp H.
  pose proof (ok_gridRow _ Hok) as Hrows.
  assert (Hstart : ∀ e0 w0, over_ok (mdl (restarted e0 w0))).
  { intros e0 w0. unfold restarted, rescored, over_ok.
    destruct (getTotalScoreOk e0); cbn; split; intros; (done || lia). }
  destruct H as [|runes|msg Hre|runes Hopen Hcol|runes msg Hopen Hmsg
                |runes guess Hopen Hcol Hrow Hword|ch row Hopen Hcol Hch Hrow
                |type runes Htype Hre|width height|]; try exact Hp; try apply Hstart.
  - unfold timed_out. cbn zeta. by case_decide.
  - destruct (accepted_fields guess e (defaulted w)) as (Hg & Ha & _ & Hr & _).
    pose proof (accepted_gameOver guess e (defaulted w)) as Hover.
    change (mdl (defaulted w)) with
      (set_status ("Score: " +:+ pretty (score (mdl w))) (mdl w)) in *.
    cbn [grid answer gridRow gameOver set_status] in *.
    pose proof (ok_in_progress _ Hok Hopen) as Hlt. unfold numGuesses in *.
    rewrite int_incr_small in Hr, Hover by lia.
    unfold over_ok. rewrite Hg, Ha, Hr, Hover.
    replace (gridRow (mdl w) + 1 - 1) with (gridRow (mdl w)) by lia.
    rewrite (list_lookup_total_correct _ _ _ Hrow).
    destruct Hp as [Hp _]. specialize (Hp Hopen).
    case_bool_decide as Hwin; [|case_decide as Hlast].
    + split; [done|]. intros _. split; [lia|by left].
    + split; [done|]. intros _. split; [lia|]. right. unfold numGuesses. lia.
    + rewrite Hopen. split; [|done]. intros _ i Hi.
      destruct (decide (Z.of_nat i = gridRow (mdl w))) as [Heq|Hne].
      * replace i with (Z.to_nat (gridRow (mdl w))) by lia.
        by rewrite (list_lookup_total_correct _ _ _ Hrow).
      * apply Hp. lia.
  - destruct Hp as [Hp _]. specialize (Hp Hopen).
    split; [|cbn; congruence]. intros _ i Hi. cbn in Hi |- *.
    rewrite list_lookup_total_insert_ne by lia. by apply Hp.
Qed.

(** In every session of a reachable system the game is over exactly when
    the grid says so: while it is in progress no submitted row is the
    answer, and once it is over the last submitted row is the answer or all
    six rows are used. *)
Theorem game_over_when_won_or_out_of_rows (sys : system) (s : session) :
  reachable dict sys → s ∈ sessions sys →
  let m := s_model s in
  (gameOver m = false →
   ∀ i, Z.of_nat i < gridRow m → grid m !!! i ≠ answer m) ∧
  (gameOver m = true →
   1 <= gridRow m ∧
   (grid m !!! Z.to_nat (gridRow m - 1) = answer m ∨ gridRow m = 6)).
Proof.
  intros Hreach Hs. cbn zeta.
  change (over_ok (s_model s)).
  revert s Hs. apply Forall_forall. revert sys Hreach.
  apply (reachable_sessions dict over_ok).
  - intros width height e t. unfold restarted, rescored, over_ok.
    destruct (getTotalScoreOk e); cbn; split; intros; (done || lia).
  - intros e w msg c w' Hok Hp H. by eapply handles_over_ok.
Qed.

(** A permanent status does not cancel the resets that are pending: when a
    guess wins the game while one status reset is pending, "You win!" is
    shown, and the reset, when it fires, puts the default status back. *)
Theorem pending_reset_wipes_win_status (e1 e2 : env) (w : world) (runes : list Z) :
  model_ok (mdl w) → gameOver (mdl w) = false → gridCol (mdl w) = numChars →
  grid (mdl w) !! Z.to_nat (gridRow (mdl w)) = Some (answer (mdl w)) →
  IsWord dict (string_of_list_ascii (answer (mdl w))) = true →
  statusPending (mdl w) = 1 →
  ∃ w1 w2,
    Update dict (KeyMsg KeyEnter runes) e1 w = Done (CmdNil, w1) ∧
    gameOver (mdl w1) = true ∧ status (mdl w1) = "You win!" ∧
    Update dict msgResetStatus e2 w1 = Done (CmdNil, w2) ∧
    gameOver (mdl w2) = true ∧
    status (mdl w2) = "Score: " +:+ pretty (score (mdl w1)).
Proof.
  intros Hok Hgo Hcol Hrow Hword Hpending.
  eexists _, _. split; [by apply Update_enter_accepts|].
  destruct (accepted_fields (answer (mdl w)) e1 (defaulted w))
    as (_ & _ & _ & _ & _ & Hp & _).
  pose proof (accepted_gameOver (answer (mdl w)) e1 (defaulted w)) as Hover.
  change (answer (mdl (defaulted w))) with (answer (mdl w)) in Hover.
  rewrite bool_decide_eq_true_2 in Hover by done.
  change (statusPending (mdl (defaulted w))) with (statusPending (mdl w)) in Hp.
  rewrite Hpending in Hp.
  split; [done|]. split.
  { unfold accepted.
    change (answer (mdl (defaulted w))) with (answer (mdl w)).
    by rewrite bool_decide_eq_true_2 by done. }
  rewrite Update_timer. split; [done|].
  unfold timed_out. cbn zeta. rewrite Hp.
  change (int_decr 1) with 0. cbn [statusPending set_statusPending].
  rewrite decide_True by done. cbn. done.
Qed.

End game_over.

(** ** How the first revision starts *)

Section legacy_init.
Import Legacy.

(** [Init] of the first revision draws the puzzle word inside the callback
    of [withDb]: if db.json can be read, the score is [db.score] of it, a
    word is drawn and the statistics are written back (creating the file);
    if it cannot be read, no word is drawn, so the game starts on the zero
    word, with the error kept and shown for three seconds. *)
Theorem legacy_Init_outcomes (e : env) (width height : Z) (f : option db) :
  ∃ c w',
    Init e (mkWorld (set_height height (set_width width zero_model)) f) = Done (c, w') ∧
    gameOver (mdl w') = false ∧ gridRow (mdl w') = 0 ∧ gridCol (mdl w') = 0 ∧
    (loadOk e = true →
     word (mdl w') = copy_bytes (replicate 5 byte0) (bytes (randomWord e)) ∧
     score (mdl w') = score_of (decoded f) ∧
     (saveOk e = true →
      file w' = Some (decoded f) ∧ errors (mdl w') = [] ∧ c = CmdNil) ∧
     (saveOk e = false →
      file w' = f ∧ errors (mdl w') = ["could not write to database"]
      ∧ c = Tick (3 * Second))) ∧
    (loadOk e = false →
     word (mdl w') = replicate 5 byte0 ∧ score (mdl w') = 0 ∧ file w' = f ∧
     errors (mdl w') = ["could not read from database"] ∧
     status (mdl w') = "Error loading database." ∧ c = Tick (3 * Second)).
Proof.
  unfold Init, withDb, loadDb, save, reportError, setStatus, reset, resetStatus.
  unfold mbind, M_bind, mret, M_ret, get, ask, modify, read_file, write_file, lift.
  cbn beta iota zeta delta [mdl file].
  destruct (loadOk e); [destruct f as [d|]|];
    cbn beta iota zeta delta [mdl file]; try destruct (saveOk e);
    cbn beta iota zeta delta [mdl file];
    eexists _, _; (split; [reflexivity|]); cbn; split_and!; try done;
    intros; split_and!; try done; intros; by split_and!.
Qed.

End legacy_init.

Section game_over_witnesses.
Import Session System Examples.

Lemma game_over_when_won_or_out_of_rows_witness :
  1 <= gridRow (s_model (only won)).
Proof.
  refine (proj1 (proj2 (game_over_when_won_or_out_of_rows dict (alone won) (only won)
                          won_reachable (only_alone won)) _)).
  vm_compute. reflexivity.
Defined.

Lemma warned_CRANE_model_ok : model_ok (mdl warned_CRANE).
Proof.
  constructor.
  - vm_compute. reflexivity.
  - vm_compute. repeat constructor.
  - vm_compute. reflexivity.
  - vm_compute. split; discriminate.
  - vm_compute. split; discriminate.
  - vm_compute. intros _. reflexivity.
Qed.

Lemma pending_reset_wipes_win_status_witness :
  ∃ w1 w2,
    Update dict enter fine warned_CRANE = Done (CmdNil, w1) ∧
    status (mdl w1) = "You win!" ∧
    Update dict msgResetStatus fine w1 = Done (CmdNil, w2) ∧
    status (mdl w2) = "Score: " +:+ pretty (score (mdl w1)).
Proof.
  destruct (pending_reset_wipes_win_status dict fine fine warned_CRANE [])
    as (w1 & w2 & H1 & _ & H2 & H3 & _ & H4).
  - exact warned_CRANE_model_ok.
  - vm_compute. reflexivity.
  - vm_compute. reflexivity.
  - vm_compute. reflexivity.
  - vm_compute. reflexivity.
  - vm_compute. reflexivity.
  - exact (ex_intro _ w1 (ex_intro _ w2 (conj H1 (conj H2 (conj H3 H4))))).
Defined.

End game_over_witnesses.

(** ** The keyboard that is shown *)

Section keyboard_view.
Import Session System.
Variable dict : Dictionary.

Lemma viewKeyboardRow_keys (m : model) (keys : list string) :
  viewKeyboardRow m keys
  = replicate (length keys) None
    ++ ((λ key, Some (viewKey key (color (keyboardKeyState m key)))) <$> keys).
Proof.
  unfold viewKeyboardRow. generalize (replicate (length keys) (@None key_view)).
  induction keys as [|key keys IH]; intros acc; cbn [foldl fmap list_fmap].
  - by rewrite app_nil_r.
  - rewrite IH. by rewrite <- app_assoc.
Qed.

(** In every session of a reachable system the keyboard that is shown
    tells the truth about the answer: a letter key drawn green or yellow is
    a letter of the answer, a letter key drawn grey is not, and ENTER and
    DELETE are never coloured.  Every row holds, before its keys, as many
    empty strings as it has keys. *)
Theorem keyboard_view_never_lies (sys : system) (s : session) :
  reachable dict sys → s ∈ sessions sys →
  let m := s_model s in
  (∀ row key c, row ∈ viewKeyboard m → Some (viewKey key c) ∈ row →
     (∀ b, key = String b EmptyString →
           (c = colorGreen ∨ c = colorYellow → b ∈ answer m) ∧
           (c = colorSecondary → b ∉ answer m)) ∧
     (String.length key ≠ 1%nat → c = colorPrimary)) ∧
  (∀ keys, take (length keys) (viewKeyboardRow m keys) = replicate (length keys) None
           ∧ length (viewKeyboardRow m keys) = (2 * length keys)%nat).
Proof.
  intros Hreach Hs. cbn zeta.
  assert (key_sound (answer (s_model s)) (keyStates (s_model s))) as Hsound.
  { revert s Hs. apply Forall_forall. revert sys Hreach.
    apply (reachable_sessions dict (λ m, key_sound (answer m) (keyStates m))).
    - intros width height e t k. unfold restarted, rescored.
      destruct (getTotalScoreOk e); done.
    - intros e w msg c w' Hok Hp H.
      destruct H as [|runes|msg Hre|runes Hopen Hcol|runes msg Hopen Hmsg
                    |runes guess Hopen Hcol Hrow Hword|ch row Hopen Hcol Hch Hrow
                    |type runes Htype Hre|width height|]; try exact Hp.
      + unfold timed_out. cbn zeta. by case_decide.
      + intros k. unfold restarted, rescored. destruct (getTotalScoreOk e); done.
      + destruct (accepted_fields guess e (defaulted w)) as (_ & -> & -> & _).
        by apply (acceptKey_loop (answer (mdl w)) guess (keyStates (mdl w))
                    (ok_answer _ Hok) true (Z.to_nat numChars) ltac:(lia)). }
  split.
  - intros row key c Hrow Hkey.
    assert (c = color (keyboardKeyState (s_model s) key)) as ->.
    { unfold viewKeyboard in Hrow.
      repeat (apply elem_of_cons in Hrow as [->|Hrow]);
        [..|by apply elem_of_nil in Hrow];
        rewrite viewKeyboardRow_keys in Hkey;
        apply elem_of_app in Hkey as [[[=] _]%elem_of_replicate|Hkey];
        apply list_elem_of_fmap in Hkey as (key' & [= -> ->] & _); done. }
    split.
    + intros b ->. cbn [keyboardKeyState]. specialize (Hsound b).
      destruct (keyStates_get _ b); cbn [color]; split; intros; try done;
        intuition congruence.
    + intros Hlen. destruct key as [|b [|]]; cbn in Hlen |- *; done.
  - intros keys. rewrite viewKeyboardRow_keys. split.
    + rewrite take_app_length'; [done|]. by rewrite length_replicate.
    + rewrite length_app, length_replicate, length_fmap. lia.
Qed.

End keyboard_view.

Lemma keyboard_view_never_lies_witness :
  take 9 (viewKeyboardRow (System.s_model (Examples.only Examples.won))
            ["A"; "S"; "D"; "F"; "G"; "H"; "J"; "K"; "L"]%string)
  = replicate 9 None.
Proof.
  exact (proj1 (proj2 (keyboard_view_never_lies Examples.dict
                         (Examples.alone Examples.won) (Examples.only Examples.won)
                         won_reachable (only_alone Examples.won))
                  ["A"; "S"; "D"; "F"; "G"; "H"; "J"; "K"; "L"]%string)).
Defined.
